(** * Verification of the ninenine-challenge repository

  A shallow embedding of the executable parts of the repository:
  - problem 4: the three [sum_to_n] implementations (JavaScript);
  - problem 5: [InputValidator.validateId] (TypeScript);
  - problem 6: the live-scoreboard design, whose code lives in the ADRs
    (token bucket, rate-limit middleware, action-proof validation, SQL
    schema and ranking queries) and in the sequence diagram (score update
    transaction, cache refresh, response, broadcast). *)

From Stdlib Require Import ZArith Lia Bool List String Ascii DecimalString.
From Stdlib Require Import QArith Qcanon Lqa.
From stdpp Require Import gmap strings list fin_maps sorting.

Local Open Scope Z_scope.

(** * JavaScript numbers restricted to integer values

  A JavaScript [Number] is an IEEE-754 binary64 value.  Every value the
  modelled code manipulates is an integer, so a Number is represented by
  the integer it denotes, and each arithmetic operation rounds its exact
  result to the nearest representable double, ties to even.  (Overflow to
  [Infinity], beyond 2^1024, is not modelled.) *)
Module JSNumber.

Definition MAX_SAFE_INTEGER : Z := 2 ^ 53 - 1.

(** Nearest binary64 value of an integer: integers below 2^53 in absolute
    value are exact; above, the 53 leading bits are kept and the rest is
    rounded to nearest, ties to even. *)
Definition round_to_double (z : Z) : Z :=
  let a := Z.abs z in
  if a <? 2 ^ 53 then z
  else
    let e := Z.log2 a - 52 in
    let q := Z.shiftr a e in
    let r := a - Z.shiftl q e in
    let half := Z.shiftl 1 (e - 1) in
    let q' := if r <? half then q
              else if half <? r then q + 1
              else if Z.even q then q else q + 1 in
    Z.sgn z * Z.shiftl q' e.

Definition js_add (a b : Z) : Z := round_to_double (a + b).
Definition js_sub (a b : Z) : Z := round_to_double (a - b).
Definition js_mul (a b : Z) : Z := round_to_double (a * b).

(** [x / 2] on a Number is exact (a change of exponent); it yields an
    integer when [x] is even, which is the only case the code reaches
    (lemma [half_operand_even] below). *)
Definition js_half (x : Z) : Z := x / 2.

End JSNumber.

(** * Problem 4: three ways to sum to n *)
Module SumToN.
Import JSNumber.

(** The [for] loop of [sum_to_n_a]: [fuel] bounds the number of loop
    tests; [None] means the loop is still running when it is spent. *)
Fixpoint loop_a (fuel : nat) (n i sum : Z) : option Z :=
  match fuel with
  | O => None
  | S fuel' =>
      if i <=? n then loop_a fuel' n (js_add i 1) (js_add sum i)
      else Some sum
  end.

Definition sum_to_n_a (fuel : nat) (n : Z) : option Z := loop_a fuel n 1 0.

Definition sum_to_n_b (n : Z) : Z := js_half (js_mul n (js_add n 1)).

(** The recursion of [sum_to_n_c]: [stack] is the number of call frames
    the engine has room for; [None] is the RangeError "Maximum call stack
    size exceeded" the program catches. *)
Fixpoint sum_to_n_c (stack : nat) (n : Z) : option Z :=
  match stack with
  | O => None
  | S stack' =>
      if n <=? 0 then Some 0
      else option_map (js_add n) (sum_to_n_c stack' (js_sub n 1))
  end.

(** The closed form, over the mathematical integers. *)
Definition closed_form (n : Z) : Z := n * (n + 1) / 2.

(** What the loop and the recursion are expected to return. *)
Definition expected (n : Z) : Z := if 0 <=? n then closed_form n else 0.

(** The specification's statement, for one input. *)
Definition agree_with_closed_form (n : Z) : Prop :=
  exists fuel stack,
    sum_to_n_a fuel n = Some (closed_form n) /\
    sum_to_n_b n = closed_form n /\
    sum_to_n_c stack n = Some (closed_form n).

End SumToN.

(** * Problem 5: [InputValidator.validateId] *)
Module InputValidator.
Import JSNumber.

(** [validateId] takes [id: any] and observes it in three ways only:
    [id === null], [id === undefined] and [String(id)].  A value is
    therefore a string, an integer Number printed in decimal notation
    (magnitude below 10^21), or any other value (object, array, boolean,
    fractional or huge Number, ...) given by its [String] conversion.
    Strings are sequences of 8-bit code units. *)
Inductive js_value : Type :=
| JSNull
| JSUndefined
| JSString (s : string)
| JSInteger (z : Z)
| JSOther (converted : string).

Definition ToString (v : js_value) : string :=
  match v with
  | JSNull => "null"
  | JSUndefined => "undefined"
  | JSString s => s
  | JSInteger z => NilZero.string_of_int (Z.to_int z)
  | JSOther s => s
  end.

(** White space and line terminators among the 8-bit code units:
    TAB, LF, VT, FF, CR, SP and NBSP. *)
Definition is_js_space (c : ascii) : bool :=
  let n := Z.of_N (N_of_ascii c) in
  ((9 <=? n) && (n <=? 13)) || (n =? 32) || (n =? 160).

Fixpoint trimStart_chars (l : list ascii) : list ascii :=
  match l with
  | c :: l' => if is_js_space c then trimStart_chars l' else l
  | nil => nil
  end.

Definition trim_chars (l : list ascii) : list ascii :=
  rev (trimStart_chars (rev (trimStart_chars l))).

(** [String.prototype.trim] *)
Definition trim (s : string) : string :=
  string_of_list_ascii (trim_chars (list_ascii_of_string s)).

(** The class [\d]: the ten ASCII digits. *)
Definition is_digit (c : ascii) : bool :=
  let n := Z.of_N (N_of_ascii c) in (48 <=? n) && (n <=? 57).

Definition digit_value (c : ascii) : Z := Z.of_N (N_of_ascii c) - 48.

(** [/^\d+$/.test(s)]: one or more digits and nothing else. *)
Definition test_digits (s : string) : bool :=
  match list_ascii_of_string s with
  | nil => false
  | l => forallb is_digit l
  end.

Fixpoint digit_prefix (l : list ascii) : list ascii :=
  match l with
  | c :: l' => if is_digit c then c :: digit_prefix l' else nil
  | nil => nil
  end.

Definition digits_value (l : list ascii) : Z :=
  fold_left (fun acc c => 10 * acc + digit_value c) l 0.

(** [parseInt(s, 10)]: skip leading white space, read an optional sign,
    take the longest prefix of digits; [None] is NaN (no digit), else the
    Number nearest to the signed value. *)
Definition read_sign (l : list ascii) : Z * list ascii :=
  match l with
  | "-"%char :: l' => (-1, l')
  | "+"%char :: l' => (1, l')
  | _ => (1, l)
  end.

Definition parseInt (s : string) : option Z :=
  let '(sign, l) := read_sign (trimStart_chars (list_ascii_of_string s)) in
  match digit_prefix l with
  | nil => None
  | ds => Some (round_to_double (sign * digits_value ds))
  end.

(** The result object [{ isValid: boolean; value?: number }]. *)
Record id_result : Type := { isValid : bool; value : option Z }.

Definition invalid : id_result := {| isValid := false; value := None |}.

Definition validateId (id : js_value) : id_result :=
  match id with
  | JSNull | JSUndefined => invalid
  | _ =>
      let idStr := trim (ToString id) in
      if negb (test_digits idStr) then invalid
      else
        match parseInt idStr with
        | None => invalid
        | Some numericId =>
            if (numericId <=? 0) || (numericId >? MAX_SAFE_INTEGER)
            then invalid
            else {| isValid := true; value := Some numericId |}
        end
  end.

(** The specification's reading of a valid id: [v] is the value of [id]. *)
Definition valid_id (id : js_value) (v : Z) : Prop :=
  id <> JSNull /\ id <> JSUndefined /\
  let l := list_ascii_of_string (trim (ToString id)) in
  l <> nil /\ Forall (fun c => is_digit c = true) l /\
  v = digits_value l /\ 0 < v <= MAX_SAFE_INTEGER.

End InputValidator.

(** * Python floats: IEEE 754 binary64

  Every finite binary64 value is an integer multiple of 2^-1074, the
  smallest subnormal: [FNum n] is the value n * 2^-1074.  Such a value is
  a double when n has at most 53 significant bits and is below 2^1024 in
  absolute value (2^2098 units).  An operation rounds its exact result to
  the nearest double, ties to even, and overflows to an infinity.  The
  sign of a zero is not kept: no operation of the modelled code
  distinguishes -0.0 from 0.0. *)
Module Binary64.

Inductive float : Type :=
| FNaN
| FInf (negative : bool)
| FNum (units : Z).

(** 1.0 in units of 2^-1074. *)
Definition one_unit : Z := 2 ^ 1074.

(** The first magnitude that is no longer finite, 2^1024. *)
Definition overflow_threshold : Z := 2 ^ 2098.

(** The float of an integer (exact up to 2^53). *)
Definition of_Z (z : Z) : float := FNum (z * one_unit).

(** Nearest integer to p / 2^s, ties to even. *)
Definition div_nearest_even (p s : Z) : Z :=
  let q := p / 2 ^ s in
  let r := p mod 2 ^ s in
  if 2 * r <? 2 ^ s then q
  else if 2 ^ s <? 2 * r then q + 1
  else if Z.even q then q else q + 1.

(** The double nearest to p * 2^-k units, in units: the 53 leading bits
    of p are kept, but nothing below one unit. *)
Definition round53 (k p : Z) : Z :=
  let s := Z.max (Z.log2 (Z.abs p) - 52) k in
  div_nearest_even p s * 2 ^ (s - k).

Definition overflow (n : Z) : float :=
  if overflow_threshold <=? Z.abs n then FInf (n <? 0) else FNum n.

(** [n] units is a binary64 value. *)
Definition binary64 (n : Z) : bool :=
  (round53 0 n =? n) && (Z.abs n <? overflow_threshold).

Definition finite_double (x : float) : bool :=
  match x with
  | FNum n => binary64 n
  | _ => false
  end.

Definition fopp (x : float) : float :=
  match x with
  | FNaN => FNaN
  | FInf s => FInf (negb s)
  | FNum n => FNum (- n)
  end.

(** [x + y] *)
Definition fadd (x y : float) : float :=
  match x, y with
  | FNaN, _ => FNaN
  | _, FNaN => FNaN
  | FInf a, FInf b => if Bool.eqb a b then FInf a else FNaN
  | FInf a, FNum _ => FInf a
  | FNum _, FInf b => FInf b
  | FNum a, FNum b => overflow (round53 0 (a + b))
  end.

(** [x - y] *)
Definition fsub (x y : float) : float := fadd x (fopp y).

(** [x * y]: the exact product of two values in units is in units of
    2^-2148. *)
Definition fmul (x y : float) : float :=
  match x, y with
  | FNaN, _ => FNaN
  | _, FNaN => FNaN
  | FInf a, FInf b => FInf (xorb a b)
  | FInf a, FNum n => if n =? 0 then FNaN else FInf (xorb a (n <? 0))
  | FNum n, FInf b => if n =? 0 then FNaN else FInf (xorb (n <? 0) b)
  | FNum a, FNum b => overflow (round53 1074 (a * b))
  end.

(** [x < y]; false when a side is NaN. *)
Definition flt (x y : float) : bool :=
  match x, y with
  | FNaN, _ => false
  | _, FNaN => false
  | FInf a, FInf b => a && negb b
  | FInf a, FNum _ => a
  | FNum _, FInf b => negb b
  | FNum a, FNum b => a <? b
  end.

(** [x <= y]; false when a side is NaN. *)
Definition fle (x y : float) : bool :=
  match x, y with
  | FNaN, _ => false
  | _, FNaN => false
  | FInf a, FInf b => a || negb b
  | FInf a, FNum _ => a
  | FNum _, FInf b => negb b
  | FNum a, FNum b => a <=? b
  end.

(** [x] is NaN or at most [y]. *)
Definition below_or_nan (x y : float) : Prop := y = FNaN \/ fle x y = true.

(** NaN, +Infinity or a finite value that is not negative. *)
Definition not_negative (x : float) : Prop :=
  match x with
  | FNaN => True
  | FInf negative => negative = false
  | FNum n => 0 <= n
  end.

(** The real number a finite float denotes. *)
Definition value (x : float) : option Qc :=
  match x with
  | FNum n => Some (Q2Qc (n # Z.to_pos one_unit))
  | _ => None
  end.

End Binary64.

(** * Problem 6, ADR-007: token-bucket rate limiting

  The limiter's numbers are Python floats.  [time.time()] returns one, so
  the elapsed time, the refill and every count computed from them are
  binary64 values, each operation rounded.  [bucket_size], [refill_rate]
  and [tokens_requested] are taken as floats as well: an integer argument
  that a double holds exactly behaves as that double in these operations.
  [json.dumps] and [json.loads] carry a float to Redis and back
  unchanged.  Redis expires a key by its own clock. *)
Module RateLimiter.
Import Binary64.
Local Open Scope Qc_scope.

(** The JSON object stored under a bucket key. *)
Record bucket : Type := { tokens : float; last_refill : float }.

(** A Redis entry written by SETEX: a value and the time it expires. *)
Record entry : Type := { payload : bucket; expires_at : Qc }.

Definition redis_get (redis : gmap string entry) (clock : Qc) (key : string)
  : option bucket :=
  match redis !! key with
  | Some e => if decide (clock < expires_at e) then Some (payload e) else None
  | None => None
  end.

Definition redis_setex (redis : gmap string entry) (clock : Qc)
           (key : string) (ttl : Qc) (v : bucket) : gmap string entry :=
  <[key := {| payload := v; expires_at := clock + ttl |}]> redis.

Record TokenBucketRateLimiter : Type :=
  { bucket_size : float; refill_rate : float (* tokens per second *) }.

(** Python's [min(a, b)]: [b] only when [b < a]. *)
Definition py_min (a b : float) : float := if flt b a then b else a.

Definition bucket_key (key : string) : string := "bucket:" +:+ key.

Definition ttl : Qc := Qc_of_Z 3600.

(** [TokenBucketRateLimiter.is_allowed(key, tokens_requested)] when
    [time.time()] returns [current_time] and the clock of Redis shows
    [clock]; returns [(allowed, current_tokens)] and the store. *)
Definition is_allowed (self : TokenBucketRateLimiter)
           (redis : gmap string entry) (clock : Qc) (current_time : float)
           (key : string) (tokens_requested : float)
  : (bool * float) * gmap string entry :=
  let '(last, current_tokens) :=
    match redis_get redis clock (bucket_key key) with
    | Some b => (last_refill b, tokens b)
    | None => (current_time, bucket_size self)
    end in
  let time_elapsed := fsub current_time last in
  let tokens_to_add := fmul time_elapsed (refill_rate self) in
  let current_tokens :=
    py_min (bucket_size self) (fadd current_tokens tokens_to_add) in
  let '(allowed, current_tokens) :=
    if fle tokens_requested current_tokens
    then (true, fsub current_tokens tokens_requested)
    else (false, current_tokens) in
  ((allowed, current_tokens),
   redis_setex redis clock (bucket_key key) ttl
     {| tokens := current_tokens; last_refill := current_time |}).

End RateLimiter.

(** * Section 4.2 of the specification: a token bucket over exact numbers

  Modelled from the spec: the token count of section 3 is a "real number,
  clamped to bucket capacity", and section 4.2 refills it in proportion
  to the elapsed time and then deducts one token.  This module is that
  bucket with every operation exact; it has the shape of
  [TokenBucketRateLimiter.is_allowed], whose floats are the module
  [RateLimiter] above.  The rate-limiting middleware calls four [check_*]
  helpers that the repository does not define: they are taken to be such
  buckets. *)
Module TokenBucket.
Local Open Scope Qc_scope.

(** The JSON object stored under a bucket key. *)
Record bucket : Type := { tokens : Qc; last_refill : Qc }.

(** A Redis entry written by SETEX: a value and the time it expires. *)
Record entry : Type := { payload : bucket; expires_at : Qc }.

Definition redis_get (redis : gmap string entry) (now : Qc) (key : string)
  : option bucket :=
  match redis !! key with
  | Some e => if decide (now < expires_at e) then Some (payload e) else None
  | None => None
  end.

Definition redis_setex (redis : gmap string entry) (now : Qc) (key : string)
           (ttl : Qc) (v : bucket) : gmap string entry :=
  <[key := {| payload := v; expires_at := now + ttl |}]> redis.

Record TokenBucketRateLimiter : Type :=
  { bucket_size : Qc; refill_rate : Qc (* tokens per second *) }.

(** Python's [min(a, b)]: [b] only when it is strictly smaller. *)
Definition py_min (a b : Qc) : Qc := if decide (b < a) then b else a.

Definition bucket_key (key : string) : string := "bucket:" +:+ key.

Definition ttl : Qc := Qc_of_Z 3600.

(** [RateLimiter.Allow] on one bucket at time [current_time]; returns
    [(allowed, current_tokens)] and the store. *)
Definition Allow (self : TokenBucketRateLimiter)
           (redis : gmap string entry) (current_time : Qc) (key : string)
           (tokens_requested : Qc) : (bool * Qc) * gmap string entry :=
  let '(last, current_tokens) :=
    match redis_get redis current_time (bucket_key key) with
    | Some b => (last_refill b, tokens b)
    | None => (current_time, bucket_size self)
    end in
  let time_elapsed := current_time - last in
  let tokens_to_add := time_elapsed * refill_rate self in
  let current_tokens :=
    py_min (bucket_size self) (current_tokens + tokens_to_add) in
  let '(allowed, current_tokens) :=
    if decide (tokens_requested <= current_tokens)
    then (true, current_tokens - tokens_requested)
    else (false, current_tokens) in
  ((allowed, current_tokens),
   redis_setex redis current_time (bucket_key key) ttl
     {| tokens := current_tokens; last_refill := current_time |}).

(** The specification's reading of one [Allow] call on a stored bucket. *)
Definition Qc_min (a b : Qc) : Qc := if decide (a <= b) then a else b.

Definition refilled (C r t t0 now : Qc) : Qc := Qc_min C (t + (now - t0) * r).

Definition allow_spec (C r t t0 now : Qc) : bool * bucket :=
  if decide (1 <= refilled C r t t0 now)
  then (true, {| tokens := refilled C r t t0 now - 1; last_refill := now |})
  else (false, {| tokens := refilled C r t t0 now; last_refill := now |}).

End TokenBucket.

(** * Section 4.2 of the specification: one call on a stored bucket

  Modelled from the spec: refilled = min(C, t + (now - t0) * r); grant
  and store refilled - 1 when refilled >= 1, refuse and store refilled
  otherwise.  The operations are those of the floats the bucket holds. *)
Module RateLimiterSpec.
Import Binary64 RateLimiter.

Definition refilled (C r t t0 now : float) : float :=
  py_min C (fadd t (fmul (fsub now t0) r)).

Definition allow_binary64 (C r t t0 now : float) : bool * bucket :=
  if fle (of_Z 1) (refilled C r t t0 now)
  then (true, {| tokens := fsub (refilled C r t t0 now) (of_Z 1);
                 last_refill := now |})
  else (false, {| tokens := refilled C r t t0 now; last_refill := now |}).

End RateLimiterSpec.

(** * Problem 6, ADR-007: the rate-limiting middleware *)
Module RateLimitMiddleware.
Import TokenBucket.
Local Open Scope Qc_scope.

Record rate_limit_keys : Type :=
  { user_global : string;
    user_action : string;
    ip_global : string;
    user_daily : string;
    action_interval : string }.

Definition get_rate_limit_keys (user_id ip_address action_type : string)
  : rate_limit_keys :=
  {| user_global := "rate_limit:user:" +:+ user_id +:+ ":global";
     user_action :=
       "rate_limit:user:" +:+ user_id +:+ ":action:" +:+ action_type;
     ip_global := "rate_limit:ip:" +:+ ip_address +:+ ":global";
     user_daily := "rate_limit:user:" +:+ user_id +:+ ":daily";
     action_interval := "rate_limit:user:" +:+ user_id +:+ ":interval" |}.

(** The limiter of each layer (capacity and refill rate are deployment
    configuration). *)
Record layers : Type :=
  { ip_limiter : TokenBucketRateLimiter;
    user_limiter : TokenBucketRateLimiter;
    action_limiter : TokenBucketRateLimiter;
    interval_limiter : TokenBucketRateLimiter }.

(** Modelled from the spec: the helpers [check_ip_rate_limit],
    [check_user_global_rate_limit], [check_action_rate_limit] and
    [check_minimum_interval] are called by the middleware but not defined
    in the repository.  Following section 4.2 each is one token bucket,
    asked for one token under the key of its layer. *)
Definition check_layer (limiter : TokenBucketRateLimiter)
           (redis : gmap string entry) (now : Qc) (key : string)
  : bool * gmap string entry :=
  let '((allowed, _), redis') := Allow limiter redis now key 1 in
  (allowed, redis').

Inductive outcome : Type :=
| Passed
| RateLimitExceeded (message : string) (retry_after : Qc).

Definition rate_limit_middleware (cfg : layers) (redis : gmap string entry)
           (now : Qc) (ip_address user_id action_type : string)
  : outcome * gmap string entry :=
  let keys := get_rate_limit_keys user_id ip_address action_type in
  let '(ok, redis) := check_layer (ip_limiter cfg) redis now (ip_global keys) in
  if negb ok
  then (RateLimitExceeded "IP rate limit exceeded" (Qc_of_Z 60), redis)
  else
    let '(ok, redis) :=
      check_layer (user_limiter cfg) redis now (user_global keys) in
    if negb ok
    then (RateLimitExceeded "User rate limit exceeded" (Qc_of_Z 60), redis)
    else
      let '(ok, redis) :=
        check_layer (action_limiter cfg) redis now (user_action keys) in
      if negb ok
      then (RateLimitExceeded "Action rate limit exceeded" (Qc_of_Z 30), redis)
      else
        let '(ok, redis) :=
          check_layer (interval_limiter cfg) redis now (action_interval keys) in
        if negb ok
        then (RateLimitExceeded "Too frequent actions" (Qc_of_Z 3), redis)
        else (Passed, redis).

(** A layer's token count after refill, before any deduction: the
    [availableTokens] of the specification. *)
Definition available (limiter : TokenBucketRateLimiter)
           (redis : gmap string entry) (now : Qc) (key : string) : Qc :=
  let '(last, current_tokens) :=
    match redis_get redis now (bucket_key key) with
    | Some b => (last_refill b, tokens b)
    | None => (now, bucket_size limiter)
    end in
  py_min (bucket_size limiter) (current_tokens + (now - last) * refill_rate limiter).

Definition layer_fails (limiter : TokenBucketRateLimiter)
           (redis : gmap string entry) (now : Qc) (key : string) : bool :=
  bool_decide (available limiter redis now key < 1).

(** The specification's [retryAfter]: the longest wait among the failing
    layers, each waiting (1 - availableTokens) / refillRate. *)
Definition layer_wait (limiter : TokenBucketRateLimiter)
           (redis : gmap string entry) (now : Qc) (key : string) : Qc :=
  (1 - available limiter redis now key) / refill_rate limiter.

Definition Qc_max (a b : Qc) : Qc := if decide (a <= b) then b else a.

Definition longest_wait (cfg : layers) (redis : gmap string entry) (now : Qc)
           (keys : rate_limit_keys) : option Qc :=
  let candidates :=
    [(ip_limiter cfg, ip_global keys);
     (user_limiter cfg, user_global keys);
     (action_limiter cfg, user_action keys);
     (interval_limiter cfg, action_interval keys)] in
  let waits :=
    omap (fun '(limiter, key) =>
            if layer_fails limiter redis now key
            then Some (layer_wait limiter redis now key) else None)
         candidates in
  match waits with
  | [] => None
  | w :: ws => Some (foldr Qc_max w ws)
  end.

(** The specification's statement, for one request: a denial carries the
    longest wait. *)
Definition retry_after_is_longest_wait (cfg : layers)
           (redis : gmap string entry) (now : Qc)
           (ip_address user_id action_type : string) : Prop :=
  forall message retry_after,
    fst (rate_limit_middleware cfg redis now ip_address user_id action_type) =
      RateLimitExceeded message retry_after ->
    longest_wait cfg redis now
      (get_rate_limit_keys user_id ip_address action_type) = Some retry_after.

(** What the middleware does: the first failing check, in the order of
    the code, decides the message and a fixed [retry_after]. *)
Definition first_failure (cfg : layers) (redis : gmap string entry) (now : Qc)
           (keys : rate_limit_keys) : outcome :=
  if layer_fails (ip_limiter cfg) redis now (ip_global keys)
  then RateLimitExceeded "IP rate limit exceeded" (Qc_of_Z 60)
  else if layer_fails (user_limiter cfg) redis now (user_global keys)
  then RateLimitExceeded "User rate limit exceeded" (Qc_of_Z 60)
  else if layer_fails (action_limiter cfg) redis now (user_action keys)
  then RateLimitExceeded "Action rate limit exceeded" (Qc_of_Z 30)
  else if layer_fails (interval_limiter cfg) redis now (action_interval keys)
  then RateLimitExceeded "Too frequent actions" (Qc_of_Z 3)
  else Passed.

End RateLimitMiddleware.

(** * Problem 6, ADR-006 and the sequence diagram: the score store *)
Module ScoreStore.

(** The columns of [users] the score path reads and writes. *)
Record user_row : Type :=
  { username : string; score : Z; is_active : bool }.

(** A row written by step 41,
    [INSERT INTO score_history (user_id, action, points, timestamp)]. *)
Record score_history_row : Type :=
  { user_id : Z; action_type : string; points_added : Z; timestamp : Qc }.

(** [users] is keyed by its primary key [id]; [action_nonces] holds the
    pairs of its UNIQUE(user_id, nonce) constraint. *)
Record database : Type :=
  { users : gmap Z user_row;
    score_history : list score_history_row;
    action_nonces : gset (Z * string) }.

(** The SQL type INTEGER: 32 bits, signed; exceeding it is an error. *)
Definition in_integer (z : Z) : bool := (- 2 ^ 31 <=? z) && (z <? 2 ^ 31).

Inductive sql_error : Type :=
| integer_out_of_range
| foreign_key_violation.

(** Step 40, [UPDATE users SET score = score + ? WHERE id = ?]; a missing
    id updates no row. *)
Definition sql_update_score (db : database) (id delta : Z)
  : sql_error + database :=
  match users db !! id with
  | None => inr db
  | Some u =>
      if in_integer (score u + delta)
      then inr {| users :=
                    <[id := {| username := username u;
                               score := score u + delta;
                               is_active := is_active u |}]> (users db);
                  score_history := score_history db;
                  action_nonces := action_nonces db |}
      else inl integer_out_of_range
  end.

(** Step 41; [user_id] references [users(id)]. *)
Definition sql_insert_history (db : database) (row : score_history_row)
  : sql_error + database :=
  match users db !! user_id row with
  | None => inl foreign_key_violation
  | Some _ =>
      if in_integer (points_added row)
      then inr {| users := users db;
                  score_history := score_history db ++ [row];
                  action_nonces := action_nonces db |}
      else inl integer_out_of_range
  end.

(** Steps 39 to 43: both statements or neither. *)
Definition score_update_transaction (db : database) (id delta : Z)
           (action : string) (now : Qc) : sql_error + database :=
  match sql_update_score db id delta with
  | inl e => inl e
  | inr db1 =>
      sql_insert_history db1
        {| user_id := id; action_type := action;
           points_added := delta; timestamp := now |}
  end.

Inductive apply_result : Type :=
| NewScore (new_score : Z)
| NotFound
| ConcurrentConflict
| TransactionFailed.

(** One attempt of the score update.  [conflict] is the store's verdict
    on the commit: an optimistic-locking conflict rolls the attempt back.
    Step 44 returns the score read back after the commit. *)
Definition ApplyIncrement (conflict : bool) (db : database) (id delta : Z)
           (action : string) (now : Qc) : apply_result * database :=
  match score_update_transaction db id delta action now with
  | inl foreign_key_violation => (NotFound, db)
  | inl integer_out_of_range => (TransactionFailed, db)
  | inr db' =>
      if conflict then (ConcurrentConflict, db)
      else match users db' !! id with
           | Some u => (NewScore (score u), db')
           | None => (NotFound, db)
           end
  end.

Definition score_of (db : database) (id : Z) : Z :=
  match users db !! id with
  | Some u => score u
  | None => 0
  end.

(** A call of [ApplyIncrement], with the verdict it will meet. *)
Record increment : Type :=
  { conflict : bool; target : Z; delta : Z; action : string; at_time : Qc }.

Definition apply_increment (db : database) (op : increment)
  : apply_result * database :=
  ApplyIncrement (conflict op) db (target op) (delta op) (action op)
    (at_time op).

(** The calls in the order the store serialises them, with their results. *)
Fixpoint run (db : database) (ops : list increment)
  : list (increment * apply_result) * database :=
  match ops with
  | [] => ([], db)
  | op :: ops' =>
      let '(r, db1) := apply_increment db op in
      let '(trace, db2) := run db1 ops' in
      ((op, r) :: trace, db2)
  end.

Definition succeeded (r : apply_result) : bool :=
  match r with NewScore _ => true | _ => false end.

(** The calls that returned success. *)
Definition accepted (trace : list (increment * apply_result))
  : list increment :=
  fst <$> filter (fun c => succeeded (snd c) = true) trace.

(** The deltas of the accepted calls on [id]. *)
Definition accepted_deltas (id : Z) (trace : list (increment * apply_result))
  : list Z :=
  delta <$> filter (fun op => target op = id) (accepted trace).

Definition record_of (op : increment) : score_history_row :=
  {| user_id := target op; action_type := action op;
     points_added := delta op; timestamp := at_time op |}.

Definition sum_Z (l : list Z) : Z := foldr Z.add 0 l.

(** Sum of the deltas of the history records of identity [id]. *)
Definition history_sum (id : Z) (rows : list score_history_row) : Z :=
  sum_Z (points_added <$> filter (fun row => user_id row = id) rows).

(** ** Ranking queries *)

(** [ORDER BY score DESC, id ASC] on rows [(id, user)]. *)
Definition ranks_before (a b : Z * user_row) : Prop :=
  score (snd b) < score (snd a) \/
  (score (snd a) = score (snd b) /\ fst a <= fst b).

Global Instance ranks_before_dec : RelDecision ranks_before.
Proof. intros a b. unfold ranks_before. apply _. Defined.

(** [ROW_NUMBER() OVER (...)]: rows numbered from [start]. *)
Fixpoint row_number {A : Type} (start : nat) (l : list A) : list (A * nat) :=
  match l with
  | [] => []
  | x :: l' => (x, start) :: row_number (S start) l'
  end.

(** [FROM users WHERE is_active = true ORDER BY score DESC, id ASC],
    with the window's row numbers. *)
Definition active_users (db : database) : list (Z * user_row) :=
  filter (fun r => is_active (snd r) = true) (map_to_list (users db)).

Definition ranking (db : database) : list (Z * user_row) :=
  merge_sort ranks_before (active_users db).

Definition ranked (db : database) : list ((Z * user_row) * nat) :=
  row_number 1 (ranking db).

(** The leaderboard query, [LIMIT k] (the repository uses 10). *)
Definition leaderboard (db : database) (k : nat)
  : list ((Z * user_row) * nat) :=
  take k (ranked db).

(** The user-rank query, [SELECT rank FROM user_rank WHERE id = $1]. *)
Definition user_rank (db : database) (id : Z) : option nat :=
  snd <$> head (filter (fun r => fst (fst r) = id) (ranked db)).

(** The specification's rank: 1-based position among all identities. *)
Definition strictly_before (a b : Z * user_row) : Prop :=
  ranks_before a b /\ fst a <> fst b.

Global Instance strictly_before_dec : RelDecision strictly_before.
Proof. intros a b. unfold strictly_before. apply _. Defined.

Definition position_among (rows : list (Z * user_row)) (id : Z) (u : user_row)
  : nat :=
  S (length (filter (fun r => strictly_before r (id, u)) rows)).

Definition rank_among_all (db : database) (id : Z) : option nat :=
  match users db !! id with
  | Some u => Some (position_among (map_to_list (users db)) id u)
  | None => None
  end.

(** The specification's statement, for one store: a rank is a position
    among all identities. *)
Definition rank_is_position_among_all (db : database) : Prop :=
  forall id, user_rank db id = rank_among_all db id.

End ScoreStore.

(** * Problem 6, ADR-005: validation of action proofs *)
Module ProofVerifier.
Local Open Scope Qc_scope.

Record action_proof : Type :=
  { user_id : Z;
    action_type : string;
    timestamp : Qc;
    action_data : string;
    signature : string;
    expected_points : Z;
    nonce : string }.

(** [InvalidActionError] with its four causes: "Timestamp too old"
    (StaleProof in the specification), "Invalid signature", "Nonce already
    used" (ReplayedProof) and a failed action-specific validation
    (ImplausiblePoints). *)
Inductive InvalidActionError : Type :=
| TimestampTooOld
| InvalidSignature
| NonceAlreadyUsed
| InvalidActionData.

Definition Qc_abs (x : Qc) : Qc := if decide (0 <= x) then x else - x.

(** Modelled from the spec: [is_timestamp_fresh] is called with
    [max_age=30] but not defined in the repository.  Section 4.1 rejects
    when |now - proof.timestamp| > maxSkew, so a timestamp is fresh when
    that distance is at most [max_age]. *)
Definition is_timestamp_fresh (now ts max_age : Qc) : bool :=
  bool_decide (Qc_abs (now - ts) <= max_age).

(** [secure_compare]: equality of the two signatures (in constant time). *)
Definition secure_compare (a b : string) : bool := bool_decide (a = b).

(** Modelled from the spec: [is_nonce_used] is not defined in the
    repository; it looks the pair up in the recently-seen set, the table
    [action_nonces]. *)
Definition is_nonce_used (nonces : gset (Z * string)) (n : string) (uid : Z)
  : bool :=
  bool_decide ((uid, n) ∈ nonces).

Section Validation.

(** The keyed hash of a proof and the action-specific validation (which
    raises or returns) are supplied by the deployment. *)
Variable generate_hmac : action_proof -> string -> string.
Variable validate_action_data : string -> string -> bool.

(** [validate_action_proof(proof, user_secret)] at time [now], reading the
    nonce table; [inr tt] is the [return True]. *)
Definition validate_action_proof (nonces : gset (Z * string)) (now : Qc)
           (proof : action_proof) (user_secret : string)
  : InvalidActionError + unit :=
  if negb (is_timestamp_fresh now (timestamp proof) (Qc_of_Z 30))
  then inl TimestampTooOld
  else if negb (secure_compare (signature proof)
                  (generate_hmac proof user_secret))
  then inl InvalidSignature
  else if is_nonce_used nonces (nonce proof) (user_id proof)
  then inl NonceAlreadyUsed
  else if negb (validate_action_data (action_type proof) (action_data proof))
  then inl InvalidActionData
  else inr tt.

End Validation.

End ProofVerifier.

(** * Section 4.1 of the specification: recording the nonce

  Modelled from the spec: [validate_action_proof] reads the nonce table
  and no statement of the repository writes to it.  Section 4.1 has an
  accepted proof record its nonce before returning, by an atomic
  insert-if-absent whose loser resolves to ReplayedProof.  The table
  [action_nonces] of ADR-006 declares UNIQUE(user_id, nonce): an INSERT
  of a pair that is present fails.  A submission is therefore the
  validation of the repository followed by that INSERT, two atomic
  steps on the shared table. *)
Module NonceRecording.
Import ProofVerifier.

(** INSERT INTO action_nonces (user_id, nonce); [None] is the violation
    of UNIQUE(user_id, nonce). *)
Definition insert_nonce (nonces : gset (Z * string)) (uid : Z) (n : string)
  : option (gset (Z * string)) :=
  if bool_decide ((uid, n) ∈ nonces) then None
  else Some ({[ (uid, n) ]} ∪ nonces).

(** Where a submission stands: it has arrived, it has passed
    [validate_action_proof], or it has been answered. *)
Inductive stage : Type :=
| Arrived
| Validated
| Answered (answer : InvalidActionError + unit).

(** Steps a submission cannot have fewer than: 2 once it is answered. *)
Definition progress (st : stage) : nat :=
  match st with
  | Arrived => 0
  | Validated => 1
  | Answered _ => 2
  end.

(** Two submissions and the nonce table they share. *)
Record race : Type :=
  { first : stage; second : stage; table : gset (Z * string) }.

Section Submissions.

Variable generate_hmac : action_proof -> string -> string.
Variable validate_action_data : string -> string -> bool.

(** The next atomic step of a submission received at time [now]: the
    validation, which reads the table, then the insertion. *)
Definition advance (now : Qc) (proof : action_proof) (user_secret : string)
           (st : stage) (nonces : gset (Z * string))
  : stage * gset (Z * string) :=
  match st with
  | Arrived =>
      match validate_action_proof generate_hmac validate_action_data
              nonces now proof user_secret with
      | inl e => (Answered (inl e), nonces)
      | inr _ => (Validated, nonces)
      end
  | Validated =>
      match insert_nonce nonces (user_id proof) (nonce proof) with
      | Some nonces' => (Answered (inr tt), nonces')
      | None => (Answered (inl NonceAlreadyUsed), nonces)
      end
  | Answered a => (Answered a, nonces)
  end.

(** One proof submitted twice, at [now1] and at [now2].  The scheduler
    lets the first ([true]) or the second ([false]) submission take its
    next step. *)
Definition move (now1 now2 : Qc) (proof : action_proof)
           (user_secret : string) (who : bool) (s : race) : race :=
  if who
  then let '(st, nonces) :=
         advance now1 proof user_secret (first s) (table s) in
       {| first := st; second := second s; table := nonces |}
  else let '(st, nonces) :=
         advance now2 proof user_secret (second s) (table s) in
       {| first := first s; second := st; table := nonces |}.

Fixpoint run (now1 now2 : Qc) (proof : action_proof) (user_secret : string)
         (schedule : list bool) (s : race) : race :=
  match schedule with
  | [] => s
  | who :: rest =>
      run now1 now2 proof user_secret rest
        (move now1 now2 proof user_secret who s)
  end.

End Submissions.

(** Both submissions have just arrived. *)
Definition arrived (nonces : gset (Z * string)) : race :=
  {| first := Arrived; second := Arrived; table := nonces |}.

(** The steps a schedule gives to a submission. *)
Definition steps (who : bool) (schedule : list bool) : nat :=
  count_occ Bool.bool_dec schedule who.

Definition accepted : stage := Answered (inr tt).

Definition replayed : stage := Answered (inl NonceAlreadyUsed).

(** What a race started from the table [nonces] can have reached: no
    insertion yet, or exactly one insertion, by the one submission that
    is accepted. *)
Definition one_winner (nonces : gset (Z * string)) (pair : Z * string)
           (s : race) : Prop :=
  (table s = nonces /\ (progress (first s) < 2)%nat /\
   (progress (second s) < 2)%nat) \/
  (table s = {[ pair ]} ∪ nonces /\
   ((first s = accepted /\ (second s = replayed \/
                            (progress (second s) < 2)%nat)) \/
    (second s = accepted /\ (first s = replayed \/
                             (progress (first s) < 2)%nat)))).

End NonceRecording.

(** * Problem 6, ADR-003 and phase 7: the leaderboard cache *)
Module LeaderboardCache.
Local Open Scope Qc_scope.

(** Modelled from the spec: the generation counter of a snapshot (data
    model, section 3); the repository caches the rows (id, username, score)
    under "top_10_scores" and nothing else. *)
Record snapshot : Type :=
  { rows : list (Z * string * Z); generation : nat }.

Definition LEADERBOARD_TTL : Qc := Qc_of_Z 60.

(** The Redis key: absent, or a value with its expiry time. *)
Definition cache : Type := option (snapshot * Qc).

(** GET "top_10_scores": a miss when the key is absent or expired. *)
Definition Get (c : cache) (now : Qc) : option snapshot :=
  match c with
  | Some (s, expires) => if decide (now < expires) then Some s else None
  | None => None
  end.

(** DELETE "top_10_scores" *)
Definition Invalidate (c : cache) : cache := None.

(** SET "top_10_scores" with new data (TTL: 60 seconds) *)
Definition Populate (c : cache) (now : Qc) (s : snapshot) : cache :=
  Some (s, now + LEADERBOARD_TTL).

Definition stored_generation (c : cache) : option nat :=
  match c with
  | Some (s, _) => Some (generation s)
  | None => None
  end.

Definition populate_all (c : cache) (calls : list (Qc * snapshot)) : cache :=
  foldl (fun c call => Populate c (fst call) (snd call)) c calls.

(** The specification's statement, for one call: the stored generation
    does not decrease. *)
Definition generation_never_regresses (c : cache) (now : Qc) (s : snapshot)
  : Prop :=
  forall g g',
    stored_generation c = Some g ->
    stored_generation (Populate c now s) = Some g' ->
    (g <= g')%nat.

End LeaderboardCache.

(** * Problem 6, sequence diagram phases 5 to 9: one score update

    The diagram gives the order of the steps and the error flows before
    the commit.  Modelled from the spec (sections 4.6 and 7): what happens
    when the cache or the broadcast fails after the commit, the bounded
    retry of a conflicting transaction, and the names of the stages; the
    repository has no code for them. *)
Module Coordinator.
Import ScoreStore TokenBucket RateLimitMiddleware ProofVerifier LeaderboardCache.
Local Open Scope Qc_scope.

(** Modelled from the spec: the stages of the per-request state machine
    (section 4.6) and the error taxonomy (section 7). *)
Inductive stage : Type :=
| Received
| RateLimited
| Authenticated
| ProofChecked
| Applied
| CacheRefreshed
| Broadcast
| Failed
| Responded.

Inductive error_kind : Type :=
| Unauthenticated
| RateLimitedFor (retry_after : Qc)
| InvalidProof (e : InvalidActionError)
| IdentityNotFound
| ConflictExhausted
| StoreFailure.

(** HTTP 200 [{success: true, new_score, new_rank, points_added}], or a
    structured error. *)
Inductive response : Type :=
| Success (new_score : Z) (new_rank : option nat) (points_added : Z)
| Failure (kind : error_kind).

(** The event of step 51,
    [{type: "score_update", top_10, updated_user: {id, username, score}}]. *)
Record score_update_event : Type :=
  { top_10 : list (Z * string * Z); updated_user : Z * string * Z }.

Record system : Type :=
  { db : database;
    rate_limits : gmap string entry;
    leaderboard_cache : cache;
    broadcasts : list score_update_event;
    telemetry : list string }.

Record request : Type :=
  { ip_address : string; proof : action_proof }.

(** What the collaborators answer while one request is served. *)
Record environment : Type :=
  { token_identity : option Z;      (* ValidateToken: user id, or Invalid *)
    user_secret : string;
    commit_conflicts : list bool;   (* verdict of the store on each attempt *)
    cache_available : bool;
    hub_available : bool;
    next_generation : nat }.

Definition MAX_RETRIES : nat := 3.

(** Modelled from the spec: the bounded retry (section 4.3, default 3);
    the diagram only says that a conflicting transaction is retried with
    fresh data.  Each attempt is the whole transaction again. *)
Fixpoint apply_with_retry (retries : nat) (conflicts : list bool)
         (d : database) (id delta : Z) (action : string) (now : Qc)
  : apply_result * database :=
  match ApplyIncrement (hd false conflicts) d id delta action now with
  | (ConcurrentConflict, d') =>
      match retries with
      | O => (ConcurrentConflict, d')
      | S retries' =>
          apply_with_retry retries' (tl conflicts) d' id delta action now
      end
  | result => result
  end.

Definition top_rows (d : database) : list (Z * string * Z) :=
  (fun r => (fst (fst r), username (snd (fst r)), score (snd (fst r))))
    <$> leaderboard d 10.

(** Modelled from the spec: the failure branch (section 7: logged as
    DownstreamUnavailable, never surfaced); the repository has no flow for
    an unreachable cache.  Otherwise steps 45 to 48: DELETE, SELECT the
    top 10, SET. *)
Definition refresh_cache (env : environment) (now : Qc) (st : system) : system :=
  if cache_available env
  then {| db := db st;
          rate_limits := rate_limits st;
          leaderboard_cache :=
            Populate (Invalidate (leaderboard_cache st)) now
              {| rows := top_rows (db st);
                 generation := next_generation env |};
          broadcasts := broadcasts st;
          telemetry := telemetry st |}
  else {| db := db st;
          rate_limits := rate_limits st;
          leaderboard_cache := leaderboard_cache st;
          broadcasts := broadcasts st;
          telemetry := telemetry st ++ ["DownstreamUnavailable: cache"] |}.

(** Modelled from the spec: the failure branch (section 7), as for the
    cache.  Otherwise step 51: the event is handed to the WebSocket
    server. *)
Definition broadcast_update (env : environment) (uid : Z) (st : system)
  : system :=
  if hub_available env
  then {| db := db st;
          rate_limits := rate_limits st;
          leaderboard_cache := leaderboard_cache st;
          broadcasts :=
            broadcasts st ++
            [{| top_10 := top_rows (db st);
                updated_user :=
                  (uid,
                   match users (db st) !! uid with
                   | Some u => username u
                   | None => ""
                   end,
                   score_of (db st) uid) |}];
          telemetry := telemetry st |}
  else {| db := db st;
          rate_limits := rate_limits st;
          leaderboard_cache := leaderboard_cache st;
          broadcasts := broadcasts st;
          telemetry := telemetry st ++ ["DownstreamUnavailable: broadcast"] |}.

Definition with_rate_limits (st : system) (redis : gmap string entry) : system :=
  {| db := db st;
     rate_limits := redis;
     leaderboard_cache := leaderboard_cache st;
     broadcasts := broadcasts st;
     telemetry := telemetry st |}.

Definition with_db (st : system) (d : database) : system :=
  {| db := d;
     rate_limits := rate_limits st;
     leaderboard_cache := leaderboard_cache st;
     broadcasts := broadcasts st;
     telemetry := telemetry st |}.

Record handled : Type :=
  { reply : response; stages : list stage; final : system }.

Definition str (z : Z) : string := NilZero.string_of_int (Z.to_int z).

Section Handler.

Variable generate_hmac : action_proof -> string -> string.
Variable validate_action_data : string -> string -> bool.
Variable limits : layers.

Definition fail (seen : list stage) (kind : error_kind) (st : system) : handled :=
  {| reply := Failure kind; stages := seen ++ [Failed; Responded]; final := st |}.

(** Modelled from the spec: the request handler of POST /api/score/update,
    which the repository describes but does not implement.  The order of
    the stages is that of section 4.6 (token, rate limit, proof, apply,
    cache, broadcast, response); the steps themselves are the repository's
    middleware, validation, transaction and queries. *)
Definition handle_score_update (env : environment) (st : system) (now : Qc)
           (req : request) : handled :=
  match token_identity env with
  | None => fail [Received] Unauthenticated st
  | Some uid =>
      let p := proof req in
      let '(verdict, redis) :=
        rate_limit_middleware limits (rate_limits st) now (ip_address req)
          (str uid) (action_type p) in
      let st1 := with_rate_limits st redis in
      match verdict with
      | RateLimitExceeded _ retry_after =>
          fail [Received; RateLimited] (RateLimitedFor retry_after) st1
      | Passed =>
          match validate_action_proof generate_hmac validate_action_data
                  (action_nonces (db st1)) now p (user_secret env) with
          | inl e => fail [Received; Authenticated] (InvalidProof e) st1
          | inr _ =>
              match apply_with_retry MAX_RETRIES (commit_conflicts env)
                      (db st1) uid (expected_points p) (action_type p) now with
              | (NewScore new_score, d) =>
                  let st2 := with_db st1 d in
                  let st3 := refresh_cache env now st2 in
                  let st4 := broadcast_update env uid st3 in
                  {| reply :=
                       Success new_score (user_rank d uid) (expected_points p);
                     stages :=
                       [Received; Authenticated; ProofChecked; Applied] ++
                       (if cache_available env then [CacheRefreshed] else []) ++
                       (if hub_available env then [Broadcast] else []) ++
                       [Responded];
                     final := st4 |}
              | (NotFound, _) =>
                  fail [Received; Authenticated; ProofChecked]
                    IdentityNotFound st1
              | (ConcurrentConflict, _) =>
                  fail [Received; Authenticated; ProofChecked]
                    ConflictExhausted st1
              | (TransactionFailed, _) =>
                  fail [Received; Authenticated; ProofChecked] StoreFailure st1
              end
          end
      end
  end.

End Handler.


End Coordinator.

(** * Concrete stores used by the examples *)
Module Scenarios.
Import TokenBucket RateLimitMiddleware ScoreStore.

(** Ten tokens a minute. *)
Definition ten_per_minute : TokenBucketRateLimiter :=
  {| bucket_size := Qc_of_Z 10; refill_rate := Q2Qc (1 # 6) |}.

(** A bucket emptied at time 0. *)
Definition demo_redis : gmap string entry :=
  {[ bucket_key "user:7" :=
       {| payload := {| tokens := Qc_of_Z 0; last_refill := Qc_of_Z 0 |};
          expires_at := ttl |} ]}.

Definition demo_layers : layers :=
  {| ip_limiter := ten_per_minute; user_limiter := ten_per_minute;
     action_limiter := ten_per_minute; interval_limiter := ten_per_minute |}.

(** User 7 has just spent the last token of the puzzle bucket. *)
Definition spent_redis : gmap string entry :=
  {[ bucket_key "rate_limit:user:7:action:puzzle_complete" :=
       {| payload := {| tokens := Qc_of_Z 0; last_refill := Qc_of_Z 0 |};
          expires_at := ttl |} ]}.

(** A deactivated leader and one active identity. *)
Definition two_users : database :=
  {| users :=
       {[ 1 := {| username := "alice"; score := 100; is_active := false |};
          2 := {| username := "bob"; score := 50; is_active := true |} ]};
     score_history := [];
     action_nonces := ∅ |}.

(** A stand-in for the keyed hash, and an action validation that accepts. *)
Definition demo_hmac (p : ProofVerifier.action_proof) (secret : string)
  : string :=
  secret +:+ ":" +:+ ProofVerifier.nonce p.

Definition any_action (_ _ : string) : bool := true.

(** The puzzle proof of the specification's scenario, signed by user 7. *)
Definition puzzle_proof (ts : Qc) : ProofVerifier.action_proof :=
  {| ProofVerifier.user_id := 7;
     ProofVerifier.action_type := "puzzle_complete";
     ProofVerifier.timestamp := ts;
     ProofVerifier.action_data := "{}";
     ProofVerifier.signature := "s3cret:n1";
     ProofVerifier.expected_points := 50;
     ProofVerifier.nonce := "n1" |}.

(** A cache holding generation 2, and an older snapshot arriving late. *)
Definition newer_cached : LeaderboardCache.cache :=
  Some ({| LeaderboardCache.rows := [(2, "bob", 150)];
           LeaderboardCache.generation := 2 |}, Qc_of_Z 60).

Definition older_snapshot : LeaderboardCache.snapshot :=
  {| LeaderboardCache.rows := [(2, "bob", 100)];
     LeaderboardCache.generation := 1 |}.

End Scenarios.

Module CoordinatorScenarios.
Import ScoreStore Coordinator.

(** Identity 7 holds score 100, identity 8 holds 120. *)
Definition scoreboard : system :=
  {| db :=
       {| users :=
            {[ 7 := {| username := "ann"; score := 100; is_active := true |};
               8 := {| username := "bea"; score := 120; is_active := true |} ]};
          score_history := [];
          action_nonces := ∅ |};
     rate_limits := ∅;
     leaderboard_cache := None;
     broadcasts := [];
     telemetry := [] |}.

(** The token is valid for identity 7; cache and hub are unreachable. *)
Definition outage : environment :=
  {| token_identity := Some 7;
     user_secret := "s3cret";
     commit_conflicts := [];
     cache_available := false;
     hub_available := false;
     next_generation := 1 |}.

End CoordinatorScenarios.

(** * Runs of the rate limiter *)
Module RateLimiterRuns.
Import Binary64 RateLimiter.

(** [n] calls of [is_allowed] for one token, one after the other at the
    same instant. *)
Fixpoint burst (self : TokenBucketRateLimiter) (redis : gmap string entry)
         (clock : Qc) (current_time : float) (key : string) (n : nat)
  : list bool * gmap string entry :=
  match n with
  | O => ([], redis)
  | S n' =>
      let '((allowed, _), redis1) :=
        is_allowed self redis clock current_time key (of_Z 1) in
      let '(rest, redis2) := burst self redis1 clock current_time key n' in
      (allowed :: rest, redis2)
  end.

End RateLimiterRuns.

Module RateLimiterScenarios.
Import Binary64 RateLimiter.

(** The double nearest to 1/6, 0.16666666666666666. *)
Definition one_sixth : float := FNum (6004799503160661 * 2 ^ 1019).

(** Ten tokens, refilled at ten tokens a minute. *)
Definition ten_a_minute : TokenBucketRateLimiter :=
  {| bucket_size := of_Z 10; refill_rate := one_sixth |}.

(** A bucket emptied at time 0.0, read while it is alive. *)
Definition emptied : gmap string entry :=
  {[ bucket_key "user:7" :=
       {| payload := {| tokens := of_Z 0; last_refill := of_Z 0 |};
          expires_at := ttl |} ]}.

(** A bucket holding half a token, last refilled at time 0.0. *)
Definition half_full : gmap string entry :=
  {[ bucket_key "user:7" :=
       {| payload := {| tokens := FNum (2 ^ 1073); last_refill := of_Z 0 |};
          expires_at := ttl |} ]}.

(** A bucket whose hour ran out long ago. *)
Definition expired : gmap string entry :=
  {[ bucket_key "user:7" :=
       {| payload := {| tokens := of_Z 0; last_refill := of_Z 0 |};
          expires_at := ttl |} ]}.

End RateLimiterScenarios.

(** * Problem 6, ADR-006: the constraints the schema declares *)
Module ScoreStoreSchema.
Import ScoreStore.

(** [score INTEGER], [points_added INTEGER] and
    [user_id INTEGER REFERENCES users(id)]. *)
Definition schema_holds (db : database) : Prop :=
  map_Forall (fun _ u => in_integer (score u) = true) (users db) /\
  Forall (fun row => in_integer (points_added row) = true /\
                     is_Some (users db !! user_id row)) (score_history db).

(** Fifty points for identity 7. *)
Definition bonus : increment :=
  {| conflict := false; target := 7; delta := 50;
     action := "puzzle_complete"; at_time := Qc_of_Z 0 |}.

End ScoreStoreSchema.


(** * Problem 5: JavaScript values, strings and regular expressions *)
Module JSValues.

(** A Number: NaN, an infinity or a finite value; every finite double is
    a rational. *)
Inductive number : Type :=
| NaN
| Infinity
| NegInfinity
| Finite (q : Qc).

Definition of_Z (z : Z) : number := Finite (Qc_of_Z z).

Definition is_NaN (n : number) : bool :=
  match n with NaN => true | _ => false end.

(** [a < b]; false when a side is NaN. *)
Definition lt (a b : number) : bool :=
  match a, b with
  | NaN, _ => false
  | _, NaN => false
  | Finite x, Finite y => bool_decide (x < y)%Qc
  | NegInfinity, NegInfinity => false
  | NegInfinity, _ => true
  | Infinity, _ => false
  | Finite _, Infinity => true
  | Finite _, NegInfinity => false
  end.

(** [a <= b] is "not b < a", and false when a side is NaN. *)
Definition le (a b : number) : bool :=
  negb (is_NaN a) && negb (is_NaN b) && negb (lt b a).

Definition gt (a b : number) : bool := lt b a.

Definition ge (a b : number) : bool := le b a.

(** [Number.isInteger] *)
Definition isInteger (n : number) : bool :=
  match n with
  | Finite q => bool_decide (Qden (this q) = 1%positive)
  | _ => false
  end.

(** [ToIntegerOrInfinity] followed by the clamp to [0, len] that
    [substring] applies to its end index. *)
Definition clamp_index (n : number) (len : nat) : nat :=
  match n with
  | NaN | NegInfinity => 0%nat
  | Infinity => len
  | Finite q =>
      Nat.min (Z.to_nat (Z.quot (Qnum (this q)) (Z.pos (Qden (this q))))) len
  end.

(** A value of any type as the checks observe it: through [typeof], its
    truthiness, and the string or the Number it is. *)
Inductive any : Type :=
| AString (s : string)
| ANumber (n : number)
| AOther (truthy : bool).

(** [!v] is the negation of this. *)
Definition ToBoolean (v : any) : bool :=
  match v with
  | AString s => negb (String.eqb s "")
  | ANumber NaN => false
  | ANumber (Finite q) => negb (bool_decide (q = Qc_of_Z 0))
  | ANumber _ => true
  | AOther t => t
  end.

(** [s.includes(sub)] *)
Fixpoint includes (s sub : string) : bool :=
  String.prefix sub s ||
  match s with
  | EmptyString => false
  | String _ s' => includes s' sub
  end.

(** [s.substring(0, end)] *)
Definition substring_0 (s : string) (end_index : number) : string :=
  string_of_list_ascii
    (take (clamp_index end_index (String.length s)) (list_ascii_of_string s)).

End JSValues.

(** White space at the ends of a string. *)
Module Trimmed.
Import InputValidator.

Definition space (c : ascii) : Prop := is_js_space c = true.

(** Neither the first nor the last code unit is white space. *)
Definition trimmed (l : list ascii) : Prop :=
  (forall c t, l = c :: t -> is_js_space c = false) /\
  (forall c t, l = t ++ [c] -> is_js_space c = false).

End Trimmed.

(** Regular expressions of the form [/^r$/] without flags, and their
    [test] method, by derivatives. *)
Module Regex.

Inductive regex : Type :=
| Void
| Eps
| Class (p : ascii -> bool)
| Seq (r1 r2 : regex)
| Alt (r1 r2 : regex)
| Star (r : regex).

(** [r+] *)
Definition Plus (r : regex) : regex := Seq r (Star r).

(** The strings a regular expression denotes. *)
Inductive lang : regex -> list ascii -> Prop :=
| lang_Eps : lang Eps nil
| lang_Class p c : p c = true -> lang (Class p) (c :: nil)
| lang_Seq r1 r2 l1 l2 : lang r1 l1 -> lang r2 l2 -> lang (Seq r1 r2) (l1 ++ l2)
| lang_Alt_l r1 r2 l : lang r1 l -> lang (Alt r1 r2) l
| lang_Alt_r r1 r2 l : lang r2 l -> lang (Alt r1 r2) l
| lang_Star_nil r : lang (Star r) nil
| lang_Star_cons r l1 l2 :
    lang r l1 -> lang (Star r) l2 -> lang (Star r) (l1 ++ l2).

Fixpoint nullable (r : regex) : bool :=
  match r with
  | Void => false
  | Eps => true
  | Class _ => false
  | Seq r1 r2 => nullable r1 && nullable r2
  | Alt r1 r2 => nullable r1 || nullable r2
  | Star _ => true
  end.

Fixpoint deriv (c : ascii) (r : regex) : regex :=
  match r with
  | Void => Void
  | Eps => Void
  | Class p => if p c then Eps else Void
  | Seq r1 r2 =>
      if nullable r1
      then Alt (Seq (deriv c r1) r2) (deriv c r2)
      else Seq (deriv c r1) r2
  | Alt r1 r2 => Alt (deriv c r1) (deriv c r2)
  | Star r1 => Seq (deriv c r1) (Star r1)
  end.

Fixpoint matches (r : regex) (l : list ascii) : bool :=
  match l with
  | nil => nullable r
  | c :: l' => matches (deriv c r) l'
  end.

(** [/^r$/.test(s)] *)
Definition test (r : regex) (s : string) : bool :=
  matches r (list_ascii_of_string s).

End Regex.

(** * Problem 5: the field validators of class InputValidator *)
Module InputValidatorFields.
Import JSValues Regex.

(** The class [[^\s@]] *)
Definition not_space_or_at (c : ascii) : bool :=
  negb (InputValidator.is_js_space c || Ascii.eqb c "@").

(** [/^[^\s@]+@[^\s@]+\.[^\s@]+$/] *)
Definition emailRegex : regex :=
  Seq (Plus (Class not_space_or_at))
    (Seq (Class (Ascii.eqb "@"))
       (Seq (Plus (Class not_space_or_at))
          (Seq (Class (Ascii.eqb "."))
             (Plus (Class not_space_or_at))))).

Definition validateEmail (email : string) : bool :=
  test emailRegex email && (String.length email <=? 254)%nat.

Definition is_letter (c : ascii) : bool :=
  let n := Z.of_N (N_of_ascii c) in
  ((97 <=? n) && (n <=? 122)) || ((65 <=? n) && (n <=? 90)).

(** The class [[a-zA-Z\s\-']] *)
Definition name_char (c : ascii) : bool :=
  is_letter c || InputValidator.is_js_space c || Ascii.eqb c "-" ||
  Ascii.eqb c "'".

(** [/^[a-zA-Z\s\-']+$/] *)
Definition nameRegex : regex := Plus (Class name_char).

Definition validateName (name : string) : bool :=
  if String.eqb name "" ||
     (String.length (InputValidator.trim name) =? 0)%nat
  then false
  else if (100 <? String.length name)%nat then false
  else test nameRegex (InputValidator.trim name).

Definition validateAge (age : number) : bool :=
  isInteger age && ge age (of_Z 0) && le age (of_Z 150).

Record ValidationResult : Type := { isValid : bool; errors : list string }.

Definition name_error : string :=
  "Name must be 1-100 characters and contain only letters, spaces, hyphens, and apostrophes".

Definition email_error : string :=
  "Email must be a valid email address (max 254 characters)".

Definition age_error : string := "Age must be an integer between 0 and 150".

Definition validateUserInput (name email : string) (age : number)
  : ValidationResult :=
  let errors := [] in
  let errors :=
    if negb (validateName name) then errors ++ [name_error] else errors in
  let errors :=
    if negb (validateEmail email) then errors ++ [email_error] else errors in
  let errors :=
    if negb (validateAge age) then errors ++ [age_error] else errors in
  {| isValid := (length errors =? 0)%nat; errors := errors |}.

(** [sanitizeString(input, maxLength = 255)]; [None] is an omitted
    [maxLength]. *)
Definition sanitizeString (input : any) (maxLength : option number) : string :=
  match input with
  | AString s =>
      substring_0 (InputValidator.trim s)
        (match maxLength with Some m => m | None => of_Z 255 end)
  | _ => ""
  end.

End InputValidatorFields.

(** * Problem 5: validation rules, error mapping and method decorators *)
Module ValidationRules.
Import JSValues.

(** [boolean | string], the result type of a validation function. *)
Inductive validation : Type :=
| VBoolean (b : bool)
| VString (s : string).

(** [!v || typeof v !== 'string' || rest(v)] *)
Definition not_a_string_or (v : any) (rest : string -> bool) : bool :=
  match v with
  | AString s => negb (ToBoolean v) || rest s
  | _ => true
  end.

(** [typeof v !== 'number' || rest(v)] *)
Definition not_a_number_or (v : any) (rest : number -> bool) : bool :=
  match v with
  | ANumber n => rest n
  | _ => true
  end.

Definition validateUserCreation (name email age : any) : validation :=
  if not_a_string_or name
       (fun s => (String.length (InputValidator.trim s) =? 0)%nat)
  then VString "Name is required and must be a non-empty string"
  else if not_a_string_or email (fun s => negb (includes s "@"))
  then VString "Valid email is required"
  else if not_a_number_or age
            (fun n => lt n (of_Z 0) || gt n (of_Z 150))
  then VString "Age must be a number between 0 and 150"
  else VBoolean true.

Definition validateUserUpdate (id name email age : any) : validation :=
  if not_a_number_or id (fun n => le n (of_Z 0))
  then VString "Valid user ID is required"
  else validateUserCreation name email age.

Definition validateUserId (id : any) : validation :=
  if not_a_number_or id (fun n => le n (of_Z 0))
  then VString "Valid user ID is required"
  else VBoolean true.

Definition validateEmail (email : any) : validation :=
  if not_a_string_or email (fun s => negb (includes s "@"))
  then VString "Valid email is required"
  else VBoolean true.

End ValidationRules.

Module USER_ERROR_MESSAGES.

Definition EMAIL_ALREADY_EXISTS : string := "Email already exists".
Definition USER_NOT_FOUND : string := "User not found".
Definition INVALID_USER_DATA : string := "Invalid user data provided".
Definition MISSING_REQUIRED_FIELDS : string := "Missing required fields".
Definition DATABASE_ERROR : string := "Database operation failed".
Definition FAILED_TO_FETCH_USERS : string := "Failed to fetch users".
Definition FAILED_TO_FETCH_USER : string := "Failed to fetch user".
Definition FAILED_TO_CHECK_EMAIL : string := "Failed to check email".
Definition FAILED_TO_CREATE_USER : string := "Failed to create user".
Definition FAILED_TO_UPDATE_USER : string := "Failed to update user".
Definition FAILED_TO_DELETE_USER : string := "Failed to delete user".
Definition FAILED_TO_FILTER_USERS : string := "Failed to filter users".
Definition FAILED_TO_GET_USER_STATISTICS : string :=
  "Failed to get user statistics".

End USER_ERROR_MESSAGES.

Module ErrorHandler.
Import JSValues USER_ERROR_MESSAGES.

(** A thrown value: an [Error] with its message, an [Error] built from a
    member inherited from [Object.prototype] (its message is the text of
    that member), or a value that is not an [Error]. *)
Inductive thrown : Type :=
| Error (message : string)
| ErrorOfInherited (property : string)
| NotAnError.

(** The outcome of an awaited call. *)
Inductive result (T : Type) : Type :=
| Returned (value : T)
| Thrown (error : thrown).

Arguments Returned {T} value.
Arguments Thrown {T} error.

(** The names every object literal inherits from [Object.prototype]. *)
Definition Object_prototype_names : list string :=
  ["constructor"; "hasOwnProperty"; "isPrototypeOf"; "propertyIsEnumerable";
   "toLocaleString"; "toString"; "valueOf"; "__proto__";
   "__defineGetter__"; "__defineSetter__"; "__lookupGetter__";
   "__lookupSetter__"].

Inductive member : Type :=
| Own (text : string)
| Inherited
| Undefined.

(** [errorMap[operation]] *)
Definition errorMap (operation : string) : member :=
  if String.eqb operation "fetch_users" then Own FAILED_TO_FETCH_USERS
  else if String.eqb operation "fetch_user" then Own FAILED_TO_FETCH_USER
  else if String.eqb operation "check_email" then Own FAILED_TO_CHECK_EMAIL
  else if String.eqb operation "create_user" then Own FAILED_TO_CREATE_USER
  else if String.eqb operation "update_user" then Own FAILED_TO_UPDATE_USER
  else if String.eqb operation "delete_user" then Own FAILED_TO_DELETE_USER
  else if String.eqb operation "filter_users" then Own FAILED_TO_FILTER_USERS
  else if String.eqb operation "get_stats"
  then Own FAILED_TO_GET_USER_STATISTICS
  else if existsb (String.eqb operation) Object_prototype_names
  then Inherited
  else Undefined.

(** [handleDatabaseError(error, operation): never]: the value it throws.
    The console output is not part of the result. *)
Definition handleDatabaseError (error : thrown) (operation : string)
  : thrown :=
  if match error with
     | Error message => includes message "Unique constraint"
     | ErrorOfInherited _ => false
     | NotAnError => false
     end
  then Error EMAIL_ALREADY_EXISTS
  else match errorMap operation with
       | Own text => Error text
       | Inherited => ErrorOfInherited operation
       | Undefined => Error DATABASE_ERROR
       end.

End ErrorHandler.

(** The decorators wrap a method; a method takes its arguments and is
    awaited to a result.  Calls of [Logger] only write to the console and
    are left out. *)
Module Decorators.
Import ValidationRules ErrorHandler.

Definition LogMethod {A T : Type} (method : A -> result T) : A -> result T :=
  fun args =>
    match method args with
    | Returned r => Returned r
    | Thrown error => Thrown error
    end.

Definition HandleErrors {A T : Type} (operation : string)
           (method : A -> result T) : A -> result T :=
  fun args =>
    match method args with
    | Returned r => Returned r
    | Thrown error => Thrown (handleDatabaseError error operation)
    end.

Definition Monitor {A T : Type} (method : A -> result T) : A -> result T :=
  fun args =>
    match method args with
    | Returned r => Returned r
    | Thrown error => Thrown error
    end.

Definition ValidateInput {A T : Type} (validationFn : A -> validation)
           (method : A -> result T) : A -> result T :=
  fun args =>
    match validationFn args with
    | VBoolean true => method args
    | VString errorMessage => Thrown (Error errorMessage)
    | VBoolean false => Thrown (Error "Invalid input parameters")
    end.

End Decorators.

(** * Problem 5: the user service and its controller *)
Module UserService.
Import JSValues ValidationRules ErrorHandler Decorators.

(** The age buckets of [getUserStats], counted over the ages the query
    returned. *)
Definition count_ages (p : Z -> bool) (users : list Z) : nat :=
  length (List.filter p users).

Definition ageDistribution (users : list Z) : list (string * nat) :=
  [("18-25", count_ages (fun age => (18 <=? age) && (age <=? 25)) users);
   ("26-35", count_ages (fun age => (26 <=? age) && (age <=? 35)) users);
   ("36-50", count_ages (fun age => (36 <=? age) && (age <=? 50)) users);
   ("50+", count_ages (fun age => 50 <? age) users)].

Section Methods.

(** The bodies of the methods are queries of the Prisma client. *)
Variable User : Type.
Variable getUserById_body : any -> result (option User).
Variable emailExists_body : any -> result bool.
Variable createUser_body : any * any * any -> result User.
Variable updateUser_body : any * any * any * any -> result (option User).
Variable deleteUser_body : any -> result bool.

(** Decorators apply from the bottom up: the one nearest to the method
    wraps it first. *)
Definition getUserById : any -> result (option User) :=
  LogMethod (Monitor (HandleErrors "fetch_user"
    (ValidateInput validateUserId getUserById_body))).

Definition emailExists : any -> result bool :=
  LogMethod (Monitor (HandleErrors "check_email"
    (ValidateInput ValidationRules.validateEmail emailExists_body))).

Definition createUser : any * any * any -> result User :=
  LogMethod (Monitor (HandleErrors "create_user"
    (ValidateInput (fun '(name, email, age) =>
                      validateUserCreation name email age)
       createUser_body))).

Definition updateUser : any * any * any * any -> result (option User) :=
  LogMethod (Monitor (HandleErrors "update_user"
    (ValidateInput (fun '(id, name, email, age) =>
                      validateUserUpdate id name email age)
       updateUser_body))).

Definition deleteUser : any -> result bool :=
  LogMethod (Monitor (HandleErrors "delete_user"
    (ValidateInput validateUserId deleteUser_body))).

End Methods.

End UserService.

Module UserController.
Import JSNumber JSValues Regex ErrorHandler USER_ERROR_MESSAGES.

(** [/^[^\s@]+@[^\s@]+\.[^\s@]+$/] *)
Definition emailRegex : regex :=
  Seq (Plus (Class InputValidatorFields.not_space_or_at))
    (Seq (Class (Ascii.eqb "@"))
       (Seq (Plus (Class InputValidatorFields.not_space_or_at))
          (Seq (Class (Ascii.eqb "."))
             (Plus (Class InputValidatorFields.not_space_or_at))))).

Definition validateEmail (email : any) : bool :=
  match email with
  | AString s => test emailRegex s && (String.length s <=? 254)%nat
  | _ => false
  end.

Definition validateName (name : any) : bool :=
  match name with
  | AString s =>
      ToBoolean name && (0 <? String.length (InputValidator.trim s))%nat &&
      (String.length s <=? 100)%nat
  | _ => false
  end.

Definition validateAge (age : any) : bool :=
  match age with
  | ANumber n => isInteger n && ge n (of_Z 0) && le n (of_Z 150)
  | _ => false
  end.

(** [parseInt(s)] without a radix: as [parseInt(s, 10)], except that a
    string starting (after white space and sign) with 0x or 0X is read in
    base 16. *)
Definition is_hex_digit (c : ascii) : bool :=
  let n := Z.of_N (N_of_ascii c) in
  InputValidator.is_digit c || ((97 <=? n) && (n <=? 102)) ||
  ((65 <=? n) && (n <=? 70)).

Definition hex_digit_value (c : ascii) : Z :=
  let n := Z.of_N (N_of_ascii c) in
  if InputValidator.is_digit c then n - 48
  else if 97 <=? n then n - 87 else n - 55.

Fixpoint hex_prefix (l : list ascii) : list ascii :=
  match l with
  | c :: l' => if is_hex_digit c then c :: hex_prefix l' else nil
  | nil => nil
  end.

Definition hex_value (l : list ascii) : Z :=
  fold_left (fun acc c => 16 * acc + hex_digit_value c) l 0.

Definition has_hex_prefix (l : list ascii) : bool :=
  match l with
  | c0 :: c1 :: _ =>
      Ascii.eqb c0 "0" && (Ascii.eqb c1 "x" || Ascii.eqb c1 "X")
  | _ => false
  end.

(** The Number of the integer that was read: the nearest double, and an
    infinity when that is 2^1024 or more in absolute value. *)
Definition number_of_integer (z : Z) : number :=
  let r := round_to_double z in
  if 2 ^ 1024 <=? Z.abs r
  then (if r <? 0 then NegInfinity else Infinity)
  else of_Z r.

Definition parseInt (s : string) : number :=
  let '(sign, l) :=
    InputValidator.read_sign
      (InputValidator.trimStart_chars (list_ascii_of_string s)) in
  if has_hex_prefix l
  then match hex_prefix (drop 2 l) with
       | nil => NaN
       | ds => number_of_integer (sign * hex_value ds)
       end
  else match InputValidator.digit_prefix l with
       | nil => NaN
       | ds => number_of_integer (sign * InputValidator.digits_value ds)
       end.

Inductive HTTP_STATUS : Type :=
| OK
| CREATED
| NO_CONTENT
| BAD_REQUEST
| NOT_FOUND
| INTERNAL_SERVER_ERROR.

Inductive payload (User : Type) : Type :=
| error_body (error : string)
| user_body (user : User)
| no_body.

Arguments error_body {User} error.
Arguments user_body {User} user.
Arguments no_body {User}.

Section Handlers.

Variable User : Type.

(** The service object the controller imports. *)
Variable getUserById : any -> result (option User).
Variable emailExists : any -> result bool.
Variable createUser_service : any * any * any -> result User.
Variable updateUser_service : any * any * any * any -> result (option User).
Variable deleteUser_service : any -> result bool.

Definition database_error : HTTP_STATUS * payload User :=
  (INTERNAL_SERVER_ERROR, error_body DATABASE_ERROR).

Definition invalid_user_data : HTTP_STATUS * payload User :=
  (BAD_REQUEST, error_body INVALID_USER_DATA).

Definition user_not_found : HTTP_STATUS * payload User :=
  (NOT_FOUND, error_body USER_NOT_FOUND).

(** [createUser(req, res)] on the fields of [req.body]. *)
Definition createUser (name email age : any) : HTTP_STATUS * payload User :=
  if negb (validateName name) || negb (validateEmail email) ||
     negb (validateAge age)
  then invalid_user_data
  else
    match name, email with
    | AString name', AString email' =>
        match emailExists email with
        | Thrown _ => database_error
        | Returned true => (BAD_REQUEST, error_body EMAIL_ALREADY_EXISTS)
        | Returned false =>
            match createUser_service
                    (AString (InputValidator.trim name'),
                     AString (InputValidator.trim email'), age) with
            | Thrown _ => database_error
            | Returned user => (CREATED, user_body user)
            end
        end
    | _, _ => database_error
    end.

(** [isNaN(id) || id <= 0] on [parseInt(req.params.id)]; [None] is the
    rejected id. *)
Definition route_id (id : string) : option number :=
  let n := parseInt id in
  if is_NaN n || le n (of_Z 0) then None else Some n.

Definition getUser (id : string) : HTTP_STATUS * payload User :=
  match route_id id with
  | None => invalid_user_data
  | Some n =>
      match getUserById (ANumber n) with
      | Thrown _ => database_error
      | Returned None => user_not_found
      | Returned (Some user) => (OK, user_body user)
      end
  end.

Definition updateUser (id : string) (name email age : any)
  : HTTP_STATUS * payload User :=
  match route_id id with
  | None => invalid_user_data
  | Some n =>
      if negb (validateName name) || negb (validateEmail email) ||
         negb (validateAge age)
      then invalid_user_data
      else
        match name, email with
        | AString name', AString email' =>
            match updateUser_service
                    (ANumber n, AString (InputValidator.trim name'),
                     AString (InputValidator.trim email'), age) with
            | Thrown _ => database_error
            | Returned None => user_not_found
            | Returned (Some user) => (OK, user_body user)
            end
        | _, _ => database_error
        end
  end.

Definition deleteUser (id : string) : HTTP_STATUS * payload User :=
  match route_id id with
  | None => invalid_user_data
  | Some n =>
      match deleteUser_service (ANumber n) with
      | Thrown _ => database_error
      | Returned false => user_not_found
      | Returned true => (NO_CONTENT, no_body)
      end
  end.

End Handlers.

End UserController.


(* ===================================================================== *)
(** * Proofs *)
(* ===================================================================== *)

Module JSNumberFacts.
Import JSNumber.

Lemma round_exact (z : Z) : Z.abs z <= 2 ^ 53 -> round_to_double z = z.
Proof.
  intros Hz. unfold round_to_double.
  destruct (Z.ltb_spec (Z.abs z) (2 ^ 53)) as [Hlt | Hge]; [reflexivity |].
  assert (Hcase : z = 2 ^ 53 \/ z = - 2 ^ 53) by lia.
  destruct Hcase as [-> | ->]; vm_compute; reflexivity.
Qed.

(** An even integer below 2^54 has at most 53 significant bits. *)
Lemma round_even_exact (z : Z) :
  0 <= z < 2 ^ 54 -> Z.even z = true -> round_to_double z = z.
Proof.
  intros [Hlo Hhi] Hev.
  destruct (Z.lt_ge_cases z (2 ^ 53)) as [Hsmall | Hbig].
  { apply round_exact. lia. }
  unfold round_to_double.
  rewrite Z.abs_eq by lia.
  destruct (Z.ltb_spec z (2 ^ 53)) as [? | _]; [lia |].
  assert (Hlog : Z.log2 z = 53) by (apply Z.log2_unique; lia).
  rewrite Hlog. change (53 - 52) with 1. change (1 - 1) with 0.
  rewrite Z.shiftr_div_pow2, !Z.shiftl_mul_pow2 by lia.
  change (2 ^ 0) with 1. change (2 ^ 1) with 2.
  apply Zeven_bool_iff, Zeven_div2 in Hev. rewrite Z.div2_div in Hev.
  rewrite Z.sgn_pos by lia.
  match goal with
  | |- context [?a <? ?b] => destruct (Z.ltb_spec a b) as [_ | ?]; [| lia]
  end.
  lia.
Qed.

(** Beyond 2^53 every double is an even integer. *)
Lemma round_even (z : Z) :
  Z.even z = true \/ 2 ^ 53 <= Z.abs z -> Z.even (round_to_double z) = true.
Proof.
  intros H. unfold round_to_double.
  destruct (Z.ltb_spec (Z.abs z) (2 ^ 53)) as [Hlt | Hge].
  { destruct H as [H | H]; [exact H | lia]. }
  set (e := Z.log2 (Z.abs z) - 52).
  assert (He : 1 <= e).
  { unfold e. assert (53 <= Z.log2 (Z.abs z)); [| lia].
    change 53 with (Z.log2 (2 ^ 53)). apply Z.log2_le_mono. exact Hge. }
  rewrite Z.even_mul. apply orb_true_iff. right.
  rewrite Z.shiftl_mul_pow2 by lia.
  rewrite Z.even_mul. apply orb_true_iff. right.
  replace (2 ^ e) with (2 * 2 ^ (e - 1))
    by (rewrite <- Z.pow_succ_r by lia; f_equal; lia).
  rewrite Z.even_mul. reflexivity.
Qed.

(** Rounding never brings a value of at least 2^53 below 2^53. *)
Lemma round_large (z : Z) : 2 ^ 53 <= z -> 2 ^ 53 <= round_to_double z.
Proof.
  intros Hz. unfold round_to_double.
  rewrite Z.abs_eq by lia.
  destruct (Z.ltb_spec z (2 ^ 53)) as [? | _]; [lia |].
  set (e := Z.log2 z - 52).
  assert (Hlog : 53 <= Z.log2 z).
  { change 53 with (Z.log2 (2 ^ 53)). apply Z.log2_le_mono. exact Hz. }
  assert (He : 1 <= e) by (unfold e; lia).
  rewrite Z.sgn_pos, Z.mul_1_l by lia.
  assert (Hq : 2 ^ 52 <= Z.shiftr z e).
  { rewrite Z.shiftr_div_pow2 by lia.
    apply Z.div_le_lower_bound; [apply Z.pow_pos_nonneg; lia |].
    rewrite <- Z.pow_add_r by lia.
    replace (e + 52) with (Z.log2 z) by (unfold e; lia).
    apply Z.log2_spec. lia. }
  set (q := Z.shiftr z e) in *.
  match goal with
  | |- _ <= Z.shiftl ?q' e => assert (Hq' : q <= q')
  end.
  { repeat match goal with
           | |- context [if ?b then _ else _] => destruct b
           end; lia. }
  rewrite Z.shiftl_mul_pow2 by lia.
  assert (H2e : 2 <= 2 ^ e).
  { change 2 with (2 ^ 1) at 1. apply Z.pow_le_mono_r; lia. }
  change (2 ^ 53) with (2 ^ 52 * 2). nia.
Qed.

End JSNumberFacts.

Module SumToNFacts.
Import JSNumber SumToN JSNumberFacts.

Example sum_a_5 : sum_to_n_a 6 5 = Some 15.
Proof. reflexivity. Qed.

Example sum_b_5 : sum_to_n_b 5 = 15.
Proof. reflexivity. Qed.

Example sum_c_5 : sum_to_n_c 6 5 = Some 15.
Proof. reflexivity. Qed.

Example sum_c_stack_overflow : sum_to_n_c 5 5 = None.
Proof. reflexivity. Qed.

Example round_examples :
  round_to_double 9007199456067585 = 9007199456067584 /\
  round_to_double 9007199590285315 = 9007199590285316 /\
  round_to_double (2 ^ 53 + 1) = 2 ^ 53 /\
  round_to_double (2 ^ 53 + 3) = 2 ^ 53 + 4 /\
  round_to_double (- (2 ^ 53 + 3)) = - (2 ^ 53 + 4).
Proof. repeat split; vm_compute; reflexivity. Qed.

(** The operand of [/ 2] in [sum_to_n_b] is even for every input, so the
    division never produces a fraction. *)
Lemma half_operand_even (n : Z) : Z.even (js_mul n (js_add n 1)) = true.
Proof.
  unfold js_mul, js_add. apply round_even. left.
  rewrite Z.even_mul. destruct (Z.even n) eqn:Hn; [reflexivity |].
  simpl. apply round_even.
  destruct (Z.le_gt_cases (2 ^ 53) (Z.abs (n + 1))) as [Hbig | Hsmall];
    [right; exact Hbig | left].
  rewrite Z.even_add, Hn. reflexivity.
Qed.

Lemma closed_form_double (n : Z) : 2 * closed_form n = n * (n + 1).
Proof.
  unfold closed_form.
  assert (Hev : Z.even (n * (n + 1)) = true).
  { rewrite Z.even_mul, Z.even_add. destruct (Z.even n); reflexivity. }
  apply Zeven_bool_iff, Zeven_div2 in Hev. rewrite Z.div2_div in Hev. lia.
Qed.

Lemma closed_form_succ (n : Z) : closed_form (n + 1) = closed_form n + (n + 1).
Proof.
  pose proof (closed_form_double n). pose proof (closed_form_double (n + 1)). lia.
Qed.

Lemma closed_form_mono (m n : Z) : 0 <= m <= n -> closed_form m <= closed_form n.
Proof.
  intros H. pose proof (closed_form_double n). pose proof (closed_form_double m). nia.
Qed.

Lemma closed_form_ge (n : Z) : 0 <= n -> n <= closed_form n.
Proof. intros H. pose proof (closed_form_double n). nia. Qed.

Lemma loop_a_unfold (fuel : nat) (n i sum : Z) :
  loop_a (S fuel) n i sum =
  if i <=? n then loop_a fuel n (js_add i 1) (js_add sum i) else Some sum.
Proof. reflexivity. Qed.

(** While the running sum stays within 2^53 the loop computes exactly:
    [k] iterations from counter [i] lead to counter [i + k]. *)
Lemma loop_a_exact (n : Z) (k : nat) :
  forall (fuel : nat) (i : Z),
    1 <= i -> i + Z.of_nat k <= n + 1 ->
    closed_form (i + Z.of_nat k - 1) <= 2 ^ 53 ->
    loop_a (k + fuel) n i (closed_form (i - 1)) =
    loop_a fuel n (i + Z.of_nat k) (closed_form (i + Z.of_nat k - 1)).
Proof.
  induction k as [| k IH]; intros fuel i Hi Hn Hsafe.
  - simpl. rewrite Z.add_0_r. reflexivity.
  - change (S k + fuel)%nat with (S (k + fuel)). rewrite loop_a_unfold.
    rewrite Nat2Z.inj_succ in *.
    destruct (Z.leb_spec i n) as [_ | ?]; [| lia].
    assert (Hcf : closed_form i <= 2 ^ 53).
    { etransitivity; [apply (closed_form_mono i (i + Z.succ (Z.of_nat k) - 1)); lia
                     | exact Hsafe]. }
    pose proof (closed_form_ge i ltac:(lia)) as Hge.
    assert (Hi1 : js_add i 1 = i + 1).
    { unfold js_add. apply round_exact.
      pose proof (closed_form_succ (i - 1)) as Hs.
      replace (i - 1 + 1) with i in Hs by lia.
      pose proof (closed_form_double (i - 1)).
      destruct (Z.eq_dec i 1) as [-> | Hne]; [vm_compute; discriminate |].
      assert (i + 1 <= closed_form i) by nia. lia. }
    assert (Hs1 : js_add (closed_form (i - 1)) i = closed_form i).
    { unfold js_add. pose proof (closed_form_succ (i - 1)) as Hs.
      replace (i - 1 + 1) with i in Hs by lia. rewrite <- Hs.
      apply round_exact. lia. }
    rewrite Hi1, Hs1.
    replace (closed_form i) with (closed_form (i + 1 - 1)) by (f_equal; lia).
    rewrite IH by (try lia; replace (i + 1 + Z.of_nat k - 1)
                     with (i + Z.succ (Z.of_nat k) - 1) by lia; exact Hsafe).
    f_equal; [| f_equal]; lia.
Qed.

Lemma sum_to_n_a_exact (fuel : nat) (n : Z) :
  0 <= n -> closed_form n <= 2 ^ 53 -> (Z.to_nat n < fuel)%nat ->
  sum_to_n_a fuel n = Some (closed_form n).
Proof.
  intros Hn Hsafe Hfuel. unfold sum_to_n_a.
  replace fuel with (Z.to_nat n + S (fuel - Z.to_nat n - 1))%nat by lia.
  change 0 with (closed_form (1 - 1)) at 1.
  rewrite loop_a_exact by (rewrite ?Z2Nat.id by lia; try lia;
                           replace (1 + n - 1) with n by lia; exact Hsafe).
  rewrite Z2Nat.id by lia. rewrite loop_a_unfold.
  destruct (Z.leb_spec (1 + n) n) as [? | _]; [lia |].
  do 2 f_equal. lia.
Qed.

Lemma sum_to_n_a_negative (fuel : nat) (n : Z) :
  n < 0 -> (0 < fuel)%nat -> sum_to_n_a fuel n = Some 0.
Proof.
  intros Hn Hfuel. destruct fuel as [| fuel]; [lia |].
  unfold sum_to_n_a. rewrite loop_a_unfold.
  destruct (Z.leb_spec 1 n) as [? | _]; [lia | reflexivity].
Qed.

Lemma sum_to_n_c_exact (stack : nat) :
  forall n : Z,
    0 <= n -> closed_form n <= 2 ^ 53 -> (Z.to_nat n < stack)%nat ->
    sum_to_n_c stack n = Some (closed_form n).
Proof.
  induction stack as [| stack IH]; intros n Hn Hsafe Hstack; [lia |].
  simpl. destruct (Z.leb_spec n 0) as [Hz | Hpos].
  - replace n with 0 by lia. reflexivity.
  - pose proof (closed_form_ge n Hn) as Hge.
    assert (Hsub : js_sub n 1 = n - 1).
    { unfold js_sub. apply round_exact. lia. }
    rewrite Hsub.
    rewrite IH; try lia.
    + simpl. f_equal. unfold js_add.
      pose proof (closed_form_succ (n - 1)) as Hs.
      replace (n - 1 + 1) with n in Hs by lia.
      replace (n + closed_form (n - 1)) with (closed_form n) by lia.
      apply round_exact.
      pose proof (closed_form_ge n Hn). lia.
    + pose proof (closed_form_mono (n - 1) n ltac:(lia)). lia.
Qed.

Lemma sum_to_n_c_negative (stack : nat) (n : Z) :
  n < 0 -> (0 < stack)%nat -> sum_to_n_c stack n = Some 0.
Proof.
  intros Hn Hstack. destruct stack as [| stack]; [lia |].
  simpl. destruct (Z.leb_spec n 0) as [_ | ?]; [reflexivity | lia].
Qed.

Lemma sum_to_n_b_exact (n : Z) :
  0 <= n -> closed_form n <= 2 ^ 53 - 1 -> sum_to_n_b n = closed_form n.
Proof.
  intros Hn Hsafe. unfold sum_to_n_b, js_half.
  pose proof (closed_form_double n) as Hd.
  pose proof (closed_form_ge n Hn) as Hge.
  assert (Hadd : js_add n 1 = n + 1) by (unfold js_add; apply round_exact; lia).
  rewrite Hadd. unfold js_mul. rewrite round_even_exact.
  - reflexivity.
  - change (2 ^ 54) with (2 * 2 ^ 53). lia.
  - rewrite Z.even_mul, Z.even_add. destruct (Z.even n); reflexivity.
Qed.

Lemma loop_a_fuel_mono (fuel extra : nat) :
  forall (n i sum v : Z),
    loop_a fuel n i sum = Some v -> loop_a (fuel + extra) n i sum = Some v.
Proof.
  induction fuel as [| fuel IH]; intros n i sum v H; [discriminate |].
  change (S fuel + extra)%nat with (S (fuel + extra)).
  rewrite loop_a_unfold in *.
  destruct (i <=? n); [apply IH; exact H | exact H].
Qed.

(** Past 2^53 the loop and the formula round differently: at
    n = 2^27 + 2 the loop returns 9007199590285314 whatever the fuel,
    the formula 9007199590285316, and the exact sum is 9007199590285315. *)
Lemma sum_to_n_a_rounds (fuel : nat) (v : Z) :
  sum_to_n_a fuel 134217730 = Some v -> v = 9007199590285314.
Proof.
  intros H.
  destruct (Z_of_nat_complete 134217727) as [k Hk]; [lia |].
  assert (Hrun : loop_a (k + 4) 134217730 1 0 = Some 9007199590285314).
  { change 0 with (closed_form (1 - 1)) at 1.
    rewrite loop_a_exact; rewrite <- ?Hk; try lia.
    - vm_compute. reflexivity.
    - vm_compute. discriminate. }
  apply (loop_a_fuel_mono _ (k + 4)) in H.
  apply (loop_a_fuel_mono _ fuel) in Hrun.
  rewrite Nat.add_comm in Hrun. congruence.
Qed.

Example sum_to_n_b_rounds :
  sum_to_n_b 134217730 = 9007199590285316 /\
  closed_form 134217730 = 9007199590285315.
Proof. split; vm_compute; reflexivity. Qed.

(** Within the safe range the three implementations do agree with the
    closed form. *)
Lemma safe_range_agrees (n : Z) :
  0 <= n -> closed_form n <= MAX_SAFE_INTEGER -> agree_with_closed_form n.
Proof.
  unfold MAX_SAFE_INTEGER. intros Hn Hsafe.
  exists (S (Z.to_nat n)), (S (Z.to_nat n)). repeat split.
  - apply sum_to_n_a_exact; lia.
  - apply sum_to_n_b_exact; lia.
  - apply sum_to_n_c_exact; lia.
Qed.

(** C9, as the specification states it, fails: at n = 2^27 + 2 the sum
    9007199590285315 is odd and above 2^53, hence not a Number; the
    formula returns its neighbour 9007199590285316 (and the loop the other
    neighbour, 9007199590285314, by [sum_to_n_a_rounds]). *)
Lemma sum_to_n_closed_form_fails : ~ agree_with_closed_form 134217730.
Proof.
  intros (fuel & stack & _ & Hb & _). vm_compute in Hb. discriminate.
Qed.

(** C9 (amended): for every integer n whose sum n(n+1)/2 does not exceed
    Number.MAX_SAFE_INTEGER, the loop (given more than n loop tests) and
    the recursion (given more than n stack frames) both return n(n+1)/2
    when n >= 0 and 0 when n < 0, and for n >= 0 the formula returns
    n(n+1)/2 as well. *)
Theorem sum_to_n_agree (n : Z) (fuel stack : nat) :
  expected n <= MAX_SAFE_INTEGER ->
  (Z.to_nat n < fuel)%nat -> (Z.to_nat n < stack)%nat ->
  sum_to_n_a fuel n = Some (expected n) /\
  sum_to_n_c stack n = Some (expected n) /\
  (0 <= n -> sum_to_n_b n = closed_form n).
Proof.
  unfold expected, MAX_SAFE_INTEGER. intros Hsafe Hfuel Hstack.
  destruct (Z.leb_spec 0 n) as [Hn | Hn].
  - repeat split.
    + apply sum_to_n_a_exact; lia.
    + apply sum_to_n_c_exact; lia.
    + intros _. apply sum_to_n_b_exact; lia.
  - repeat split.
    + apply sum_to_n_a_negative; lia.
    + apply sum_to_n_c_negative; lia.
    + lia.
Qed.

Lemma sum_to_n_agree_witness :
  sum_to_n_a 101 100 = Some 5050 /\
  sum_to_n_c 101 100 = Some 5050 /\
  (0 <= 100 -> sum_to_n_b 100 = 5050).
Proof.
  apply (sum_to_n_agree 100 101 101).
  - vm_compute. discriminate.
  - vm_compute. lia.
  - vm_compute. lia.
Defined.

End SumToNFacts.

Module InputValidatorFacts.
Import JSNumber InputValidator JSNumberFacts.

Example validateId_tests :
  validateId (JSString "123") = {| isValid := true; value := Some 123 |} /\
  validateId (JSString "1") = {| isValid := true; value := Some 1 |} /\
  validateId (JSInteger 456) = {| isValid := true; value := Some 456 |} /\
  validateId (JSString "0") = invalid /\
  validateId (JSString "-5") = invalid /\
  validateId (JSString "abc") = invalid /\
  validateId (JSString "") = invalid /\
  validateId (JSString "12a") = invalid /\
  validateId JSNull = invalid /\
  validateId JSUndefined = invalid /\
  validateId (JSInteger (MAX_SAFE_INTEGER + 1)) = invalid /\
  validateId (JSString "12.3") = invalid /\
  validateId (JSString "00123") = {| isValid := true; value := Some 123 |} /\
  validateId (JSString "  456  ") = {| isValid := true; value := Some 456 |} /\
  validateId (JSInteger (-5)) = invalid /\
  validateId (JSString "9007199254740991") =
    {| isValid := true; value := Some MAX_SAFE_INTEGER |} /\
  validateId (JSString "9007199254740993") = invalid.
Proof. repeat split; vm_compute; reflexivity. Qed.

Lemma digit_not_space (c : ascii) : is_digit c = true -> is_js_space c = false.
Proof.
  unfold is_digit, is_js_space. intros H.
  apply andb_true_iff in H. destruct H as [H1 H2].
  apply Z.leb_le in H1. apply Z.leb_le in H2.
  repeat match goal with
         | |- context [?a <=? ?b] => destruct (Z.leb_spec a b)
         | |- context [?a =? ?b] => destruct (Z.eqb_spec a b)
         end; simpl; try reflexivity; lia.
Qed.

Lemma digit_value_range (c : ascii) :
  is_digit c = true -> 0 <= digit_value c <= 9.
Proof.
  unfold is_digit, digit_value. intros H.
  apply andb_true_iff in H. destruct H as [H1 H2].
  apply Z.leb_le in H1. apply Z.leb_le in H2. lia.
Qed.

Lemma digit_prefix_all (l : list ascii) :
  Forall (fun c => is_digit c = true) l -> digit_prefix l = l.
Proof.
  induction 1 as [| c l Hc _ IH]; simpl; [reflexivity |].
  rewrite Hc, IH. reflexivity.
Qed.

Lemma digits_fold_nonneg (l : list ascii) :
  Forall (fun c => is_digit c = true) l ->
  forall acc : Z,
    0 <= acc -> 0 <= fold_left (fun a c => 10 * a + digit_value c) l acc.
Proof.
  induction 1 as [| c l Hc _ IH]; intros acc Hacc; simpl; [exact Hacc |].
  apply IH. pose proof (digit_value_range c Hc). lia.
Qed.

Lemma digits_value_nonneg (l : list ascii) :
  Forall (fun c => is_digit c = true) l -> 0 <= digits_value l.
Proof. intros H. apply digits_fold_nonneg; [exact H | lia]. Qed.

Lemma test_digits_spec (s : string) :
  test_digits s = true <->
  list_ascii_of_string s <> nil /\
  Forall (fun c => is_digit c = true) (list_ascii_of_string s).
Proof.
  unfold test_digits. destruct (list_ascii_of_string s) as [| c l].
  - split; [discriminate | intros [H _]; contradiction].
  - rewrite List.Forall_forall, forallb_forall.
    split; [intros H; split; [discriminate | exact H] | intros [_ H]; exact H].
Qed.

Lemma read_sign_digit (c : ascii) (l : list ascii) :
  is_digit c = true -> read_sign (c :: l) = (1, c :: l).
Proof.
  intros H. destruct c as [[] [] [] [] [] [] [] []];
    solve [reflexivity | vm_compute in H; discriminate H].
Qed.

Lemma parseInt_digits (s : string) :
  list_ascii_of_string s <> nil ->
  Forall (fun c => is_digit c = true) (list_ascii_of_string s) ->
  parseInt s = Some (round_to_double (digits_value (list_ascii_of_string s))).
Proof.
  intros Hne Hall. unfold parseInt.
  destruct (list_ascii_of_string s) as [| c l]; [contradiction |].
  pose proof (Forall_inv Hall) as Hc.
  simpl trimStart_chars. rewrite (digit_not_space c Hc).
  rewrite (read_sign_digit c l Hc), (digit_prefix_all _ Hall), Z.mul_1_l.
  reflexivity.
Qed.

(** On a string of digits the three numeric tests of [validateId] amount
    to a range test on the exact value. *)
Lemma validateId_digits (id : js_value) :
  id <> JSNull -> id <> JSUndefined ->
  let l := list_ascii_of_string (trim (ToString id)) in
  l <> nil -> Forall (fun c => is_digit c = true) l ->
  validateId id =
  if (0 <? digits_value l) && (digits_value l <=? MAX_SAFE_INTEGER)
  then {| isValid := true; value := Some (digits_value l) |}
  else invalid.
Proof.
  intros Hnull Hundef l Hne Hall.
  assert (Htest : test_digits (trim (ToString id)) = true)
    by (apply test_digits_spec; split; assumption).
  assert (Hbody : validateId id =
            if negb (test_digits (trim (ToString id))) then invalid
            else match parseInt (trim (ToString id)) with
                 | None => invalid
                 | Some numericId =>
                     if (numericId <=? 0) || (numericId >? MAX_SAFE_INTEGER)
                     then invalid
                     else {| isValid := true; value := Some numericId |}
                 end)
    by (destruct id; try reflexivity; contradiction).
  rewrite Hbody, Htest, (parseInt_digits _ Hne Hall). simpl negb. cbv iota.
  fold l. pose proof (digits_value_nonneg l Hall) as Hpos.
  unfold MAX_SAFE_INTEGER.
  destruct (Z.leb_spec (digits_value l) (2 ^ 53 - 1)) as [Hsafe | Hbig].
  - rewrite round_exact by lia. rewrite andb_true_r.
    destruct (Z.ltb_spec 0 (digits_value l)) as [Hgt | Hle].
    + destruct (Z.leb_spec (digits_value l) 0) as [? | _]; [lia |].
      destruct (Z.gtb_spec (digits_value l) (2 ^ 53 - 1)) as [? | _]; [lia |].
      reflexivity.
    + destruct (Z.leb_spec (digits_value l) 0) as [_ | ?]; [| lia].
      reflexivity.
  - rewrite andb_false_r.
    pose proof (round_large (digits_value l) ltac:(lia)) as Hr.
    destruct (Z.gtb_spec (round_to_double (digits_value l)) (2 ^ 53 - 1))
      as [_ | ?]; [| lia].
    rewrite orb_true_r. reflexivity.
Qed.

Lemma validateId_not_digits (id : js_value) :
  test_digits (trim (ToString id)) = false -> validateId id = invalid.
Proof.
  intros H. destruct id; try reflexivity; unfold validateId; rewrite H; reflexivity.
Qed.

(** C10: [validateId id] is valid exactly when [id] is neither null nor
    undefined and [String(id).trim()] is a non-empty string of decimal
    digits whose value v satisfies 0 < v <= Number.MAX_SAFE_INTEGER; it
    then returns v as [value], and an invalid result carries no value. *)
Theorem validateId_correct (id : js_value) :
  (isValid (validateId id) = true <-> exists v, valid_id id v) /\
  (forall v, valid_id id v ->
             validateId id = {| isValid := true; value := Some v |}) /\
  (isValid (validateId id) = false -> value (validateId id) = None).
Proof.
  assert (Hvalid : forall v, valid_id id v ->
              validateId id = {| isValid := true; value := Some v |}).
  { intros v (Hnull & Hundef & Hne & Hall & Hv & Hlo & Hhi).
    rewrite (validateId_digits id Hnull Hundef Hne Hall). rewrite <- Hv.
    destruct (Z.ltb_spec 0 v); [| lia].
    destruct (Z.leb_spec v MAX_SAFE_INTEGER); [| lia]. reflexivity. }
  split; [split | split].
  - intros Hok.
    destruct (test_digits (trim (ToString id))) eqn:Htest.
    + apply test_digits_spec in Htest. destruct Htest as [Hne Hall].
      assert (Hnull : id <> JSNull) by (intros ->; discriminate Hok).
      assert (Hundef : id <> JSUndefined) by (intros ->; discriminate Hok).
      rewrite (validateId_digits id Hnull Hundef Hne Hall) in Hok.
      set (l := list_ascii_of_string (trim (ToString id))) in *.
      exists (digits_value l).
      destruct (Z.ltb_spec 0 (digits_value l)); [| discriminate Hok].
      destruct (Z.leb_spec (digits_value l) MAX_SAFE_INTEGER);
        [| discriminate Hok].
      repeat split; assumption.
    + rewrite (validateId_not_digits id Htest) in Hok. discriminate Hok.
  - intros [v Hv]. rewrite (Hvalid v Hv). reflexivity.
  - exact Hvalid.
  - intros Hbad.
    destruct (test_digits (trim (ToString id))) eqn:Htest.
    + apply test_digits_spec in Htest. destruct Htest as [Hne Hall].
      destruct id; try reflexivity;
        match goal with
        | |- context [validateId ?x] =>
            rewrite (validateId_digits x ltac:(discriminate) ltac:(discriminate)
                       Hne Hall) in *
        end;
        match goal with
        | |- context [if ?b then _ else _] => destruct b
        end; solve [reflexivity | discriminate Hbad].
    + rewrite (validateId_not_digits id Htest). reflexivity.
Qed.

End InputValidatorFacts.

Module TokenBucketFacts.
Import TokenBucket Scenarios.
Local Open Scope Qc_scope.

Lemma py_min_is_min (a b : Qc) : py_min a b = Qc_min a b.
Proof.
  unfold py_min, Qc_min. repeat case_decide; try reflexivity.
  - exfalso. eapply Qclt_not_le; eassumption.
  - exfalso. apply Qcnot_lt_le in H. contradiction.
Qed.

Lemma Qc_min_le_l (a b : Qc) : Qc_min a b <= a.
Proof.
  unfold Qc_min. case_decide; [apply Qcle_refl |].
  apply Qclt_le_weak, Qcnot_le_lt. assumption.
Qed.

Lemma Qc_min_le_r (a b : Qc) : Qc_min a b <= b.
Proof. unfold Qc_min. case_decide; [assumption | apply Qcle_refl]. Qed.

Lemma redis_get_setex (redis : gmap string entry) (now later : Qc)
      (key : string) (v : bucket) :
  later < now + ttl ->
  redis_get (redis_setex redis now key ttl v) later key = Some v.
Proof.
  intros H. unfold redis_get, redis_setex. rewrite lookup_insert_eq. simpl.
  case_decide; [reflexivity | contradiction].
Qed.

Lemma redis_get_setex_ne (redis : gmap string entry) (now later : Qc)
      (key key' : string) (v : bucket) :
  key <> key' ->
  redis_get (redis_setex redis now key ttl v) later key' =
  redis_get redis later key'.
Proof.
  intros H. unfold redis_get, redis_setex. rewrite lookup_insert_ne by exact H.
  reflexivity.
Qed.

Lemma Qc_pred_le (x : Qc) : x - 1 <= x.
Proof.
  unfold Qcminus. rewrite <- (Qcplus_0_r x) at 2.
  apply Qcplus_le_mono_l. vm_compute. discriminate.
Qed.

Lemma allow_spec_bounded (C r t t0 now : Qc) :
  tokens (snd (allow_spec C r t t0 now)) <= C.
Proof.
  unfold allow_spec. case_decide; simpl.
  - eapply Qcle_trans; [apply Qc_pred_le | apply Qc_min_le_l].
  - apply Qc_min_le_l.
Qed.

(** Whatever was stored before, after a call the stored count is within
    the capacity: the limiter also bounds a first call and an expired key. *)
Lemma Allow_bounded (self : TokenBucketRateLimiter)
      (redis : gmap string entry) (now : Qc) (key : string) :
  exists b : bucket,
    snd (Allow self redis now key 1) !! bucket_key key =
      Some {| payload := b; expires_at := now + ttl |} /\
    tokens b <= bucket_size self /\ last_refill b = now.
Proof.
  unfold Allow.
  destruct (redis_get redis now (bucket_key key)) as [[t t0] |]; simpl;
    rewrite py_min_is_min; case_decide; simpl;
    (eexists; split; [apply lookup_insert_eq | split; [simpl | reflexivity]]);
    try (eapply Qcle_trans; [apply Qc_pred_le |]); apply Qc_min_le_l.
Qed.


Example demo_granted :
  fst (fst (Allow ten_per_minute demo_redis (Qc_of_Z 6) "user:7" 1)) = true /\
  fst (fst (Allow ten_per_minute demo_redis (Qc_of_Z 5) "user:7" 1)) = false.
Proof. split; vm_compute; reflexivity. Qed.

Lemma py_min_cases (a b : Qc) :
  (b < a /\ py_min a b = b) \/ (a <= b /\ py_min a b = a).
Proof.
  unfold py_min. case_decide as H; [left | right]; split; auto.
  apply Qcnot_lt_le, H.
Qed.

End TokenBucketFacts.

Module Binary64Facts.
Import Binary64.

Lemma pow2_pos (s : Z) : 0 <= s -> 0 < 2 ^ s.
Proof. intros. apply Z.pow_pos_nonneg; lia. Qed.

(** Rounding to nearest is off by at most half a step. *)
Lemma div_nearest_even_near (p s : Z) :
  0 <= s -> 2 * Z.abs (div_nearest_even p s * 2 ^ s - p) <= 2 ^ s.
Proof.
  intros Hs. pose proof (pow2_pos s Hs) as Hpos.
  unfold div_nearest_even.
  pose proof (Z.div_mod p (2 ^ s) ltac:(lia)) as Hdm.
  pose proof (Z.mod_pos_bound p (2 ^ s) Hpos) as Hr.
  set (q := p / 2 ^ s) in *. set (r := p mod 2 ^ s) in *.
  set (d := 2 ^ s) in *.
  destruct (Z.ltb_spec (2 * r) d); [nia |].
  destruct (Z.ltb_spec d (2 * r)); [nia |].
  destruct (Z.even q); nia.
Qed.

Lemma div_nearest_even_exact (m s : Z) :
  0 <= s -> div_nearest_even (m * 2 ^ s) s = m.
Proof.
  intros Hs. pose proof (pow2_pos s Hs) as Hpos.
  unfold div_nearest_even.
  rewrite Z.div_mul, Z.mod_mul by lia.
  destruct (Z.ltb_spec (2 * 0) (2 ^ s)); [reflexivity | lia].
Qed.

Lemma div_nearest_even_mono (p1 p2 s : Z) :
  0 <= s -> p1 <= p2 -> div_nearest_even p1 s <= div_nearest_even p2 s.
Proof.
  intros Hs Hle. pose proof (pow2_pos s Hs) as Hpos.
  destruct (Z.eq_dec p1 p2) as [-> | Hne]; [lia |].
  pose proof (div_nearest_even_near p1 s Hs) as H1.
  pose proof (div_nearest_even_near p2 s Hs) as H2.
  set (a := div_nearest_even p1 s) in *. set (b := div_nearest_even p2 s) in *.
  set (d := 2 ^ s) in *.
  destruct (Z.le_gt_cases a b) as [? | Hgt]; [assumption |]. exfalso.
  assert (b + 1 <= a) by lia.
  assert (2 * (a * d) - d <= 2 * p1) by lia.
  assert (2 * p2 <= 2 * (b * d) + d) by lia.
  assert ((b + 1) * d <= a * d) by nia.
  nia.
Qed.

Lemma div_nearest_even_opp (p s : Z) :
  0 <= s -> div_nearest_even (- p) s = - div_nearest_even p s.
Proof.
  intros Hs. pose proof (pow2_pos s Hs) as Hpos.
  unfold div_nearest_even.
  pose proof (Z.div_mod p (2 ^ s) ltac:(lia)) as Hdm.
  pose proof (Z.mod_pos_bound p (2 ^ s) Hpos) as Hr.
  set (d := 2 ^ s) in *.
  destruct (Z.eq_dec (p mod d) 0) as [H0 | Hn0].
  - assert (Hq : (- p) / d = - (p / d)) by (apply Z.div_opp_l_z; lia).
    assert (Hm : (- p) mod d = 0) by (apply Z.mod_opp_l_z; lia).
    rewrite Hq, Hm, H0.
    destruct (Z.ltb_spec (2 * 0) d); [reflexivity | lia].
  - assert (Hq : (- p) / d = - (p / d) - 1) by (apply Z.div_opp_l_nz; lia).
    assert (Hm : (- p) mod d = d - p mod d) by (apply Z.mod_opp_l_nz; lia).
    rewrite Hq, Hm.
    set (q := p / d) in *. set (r := p mod d) in *.
    assert (Hev : Z.even (- q - 1) = negb (Z.even q)).
    { replace (- q - 1) with (- (q + 1)) by lia.
      rewrite Z.even_opp, Z.even_add. destruct (Z.even q); reflexivity. }
    rewrite Hev.
    destruct (Z.ltb_spec (2 * (d - r)) d), (Z.ltb_spec d (2 * (d - r))),
      (Z.ltb_spec (2 * r) d), (Z.ltb_spec d (2 * r)); try lia.
    destruct (Z.even q); simpl; lia.
Qed.

Lemma log2_abs_pow2 (p : Z) :
  p <> 0 -> 2 ^ Z.log2 (Z.abs p) <= Z.abs p < 2 ^ (Z.log2 (Z.abs p) + 1).
Proof.
  intros Hp. pose proof (Z.log2_spec (Z.abs p) ltac:(lia)) as H.
  rewrite <- Z.add_1_r in H. exact H.
Qed.

(** The step of the grid on which p * 2^-k is rounded. *)
Lemma round53_step (k p : Z) :
  0 <= k ->
  let s := Z.max (Z.log2 (Z.abs p) - 52) k in
  k <= s /\ Z.abs p < 2 ^ (s + 53).
Proof.
  intros Hk s. split; [lia |].
  destruct (Z.eq_dec p 0) as [-> | Hp].
  - simpl. apply pow2_pos. lia.
  - pose proof (log2_abs_pow2 p Hp) as [_ Hhi].
    eapply Z.lt_le_trans; [exact Hhi |].
    apply Z.pow_le_mono_r; lia.
Qed.

Lemma div_nearest_even_bound (p s : Z) :
  0 <= s -> Z.abs p <= 2 ^ (s + 53) ->
  Z.abs (div_nearest_even p s) <= 2 ^ 53.
Proof.
  intros Hs Hp.
  assert (Hsplit : 2 ^ (s + 53) = 2 ^ 53 * 2 ^ s)
    by (rewrite <- Z.pow_add_r by lia; f_equal; lia).
  pose proof (div_nearest_even_mono p (2 ^ 53 * 2 ^ s) s Hs ltac:(lia)) as Hup.
  pose proof (div_nearest_even_mono (- 2 ^ 53 * 2 ^ s) p s Hs ltac:(lia))
    as Hlo.
  rewrite div_nearest_even_exact in Hup, Hlo by exact Hs. lia.
Qed.

Lemma round53_0 (k : Z) : 0 <= k -> round53 k 0 = 0.
Proof.
  intros Hk. unfold round53. simpl Z.abs. simpl Z.log2.
  change 0 with (0 * 2 ^ Z.max (0 - 52) k) at 1.
  rewrite div_nearest_even_exact by lia. reflexivity.
Qed.

Lemma round53_opp (k p : Z) : 0 <= k -> round53 k (- p) = - round53 k p.
Proof.
  intros Hk. unfold round53. rewrite Z.abs_opp.
  rewrite div_nearest_even_opp by lia. lia.
Qed.

Lemma round53_nonneg (k p : Z) : 0 <= k -> 0 <= p -> 0 <= round53 k p.
Proof.
  intros Hk Hp. unfold round53.
  set (s := Z.max (Z.log2 (Z.abs p) - 52) k).
  pose proof (div_nearest_even_mono 0 p s ltac:(lia) Hp) as H.
  change 0 with (0 * 2 ^ s) in H at 1.
  rewrite div_nearest_even_exact in H by lia.
  pose proof (pow2_pos (s - k) ltac:(lia)). nia.
Qed.

(** Rounding is monotone (positive arguments first). *)
Lemma round53_mono_pos (k p1 p2 : Z) :
  0 <= k -> 0 < p1 -> p1 <= p2 -> round53 k p1 <= round53 k p2.
Proof.
  intros Hk Hp1 Hle. unfold round53.
  rewrite !Z.abs_eq by lia.
  set (s1 := Z.max (Z.log2 p1 - 52) k).
  set (s2 := Z.max (Z.log2 p2 - 52) k).
  assert (Hlog : Z.log2 p1 <= Z.log2 p2) by (apply Z.log2_le_mono; lia).
  assert (Hs : s1 <= s2) by lia.
  destruct (Z.eq_dec s1 s2) as [Heq | Hne].
  - rewrite Heq.
    pose proof (div_nearest_even_mono p1 p2 s2 ltac:(lia) Hle).
    pose proof (pow2_pos (s2 - k) ltac:(lia)). nia.
  - assert (Hs2 : s2 = Z.log2 p2 - 52) by lia.
    assert (Hlt : s1 + 1 <= s2) by lia.
    (* the first result is at most 2^(s1+53-k) *)
    pose proof (round53_step k p1 Hk) as [_ Hp1hi].
    rewrite Z.abs_eq in Hp1hi by lia. fold s1 in Hp1hi.
    pose proof (div_nearest_even_bound p1 s1 ltac:(lia)
                  ltac:(rewrite Z.abs_eq by lia; lia)) as Hm1.
    (* the second is at least 2^(s2+52-k) *)
    assert (Hp2lo : 2 ^ 52 * 2 ^ s2 <= p2).
    { rewrite <- Z.pow_add_r by lia.
      replace (52 + s2) with (Z.log2 p2) by lia.
      apply Z.log2_spec. lia. }
    pose proof (div_nearest_even_mono _ _ s2 ltac:(lia) Hp2lo) as Hm2.
    rewrite div_nearest_even_exact in Hm2 by lia.
    assert (Hpow : 2 ^ (s2 - k) = 2 ^ (s2 - s1) * 2 ^ (s1 - k))
      by (rewrite <- Z.pow_add_r by lia; f_equal; lia).
    assert (H2 : 2 <= 2 ^ (s2 - s1)).
    { change 2 with (2 ^ 1) at 1. apply Z.pow_le_mono_r; lia. }
    pose proof (pow2_pos (s1 - k) ltac:(lia)) as Hq1.
    rewrite Hpow. change (2 ^ 53) with (2 * 2 ^ 52) in Hm1.
    set (a := div_nearest_even p1 s1) in *.
    set (b := div_nearest_even p2 s2) in *.
    set (u := 2 ^ (s1 - k)) in *. set (v := 2 ^ (s2 - s1)) in *.
    assert (a * u <= 2 * 2 ^ 52 * u) by nia.
    assert (2 * 2 ^ 52 * u <= b * v * u) by nia.
    lia.
Qed.

Lemma round53_mono (k p1 p2 : Z) :
  0 <= k -> p1 <= p2 -> round53 k p1 <= round53 k p2.
Proof.
  intros Hk Hle.
  destruct (Z.lt_trichotomy 0 p1) as [Hpos | [<- | Hneg]].
  - apply round53_mono_pos; assumption.
  - rewrite round53_0 by exact Hk. apply round53_nonneg; assumption.
  - destruct (Z.le_gt_cases 0 p2) as [Hp2 | Hp2].
    + pose proof (round53_nonneg k p2 Hk Hp2).
      pose proof (round53_nonneg k (- p1) Hk ltac:(lia)) as H1.
      rewrite round53_opp in H1 by exact Hk. lia.
    + pose proof (round53_mono_pos k (- p2) (- p1) Hk ltac:(lia) ltac:(lia))
        as H.
      rewrite !round53_opp in H by exact Hk. lia.
Qed.

(** A value m * 2^j with |m| <= 2^53 is on the grid. *)
Lemma round53_exact (m j : Z) :
  0 <= j -> Z.abs m <= 2 ^ 53 -> round53 0 (m * 2 ^ j) = m * 2 ^ j.
Proof.
  intros Hj Hm. destruct (Z.eq_dec m 0) as [-> | Hm0].
  { simpl. apply round53_0. lia. }
  pose proof (pow2_pos j Hj) as Hpj.
  unfold round53.
  set (n := m * 2 ^ j).
  assert (Hn : Z.abs n = Z.abs m * 2 ^ j)
    by (unfold n; rewrite Z.abs_mul, (Z.abs_eq (2 ^ j)) by lia; reflexivity).
  assert (Hlog : Z.log2 (Z.abs n) = j + Z.log2 (Z.abs m))
    by (rewrite Hn; apply Z.log2_mul_pow2; lia).
  set (s := Z.max (Z.log2 (Z.abs n) - 52) 0).
  rewrite Z.sub_0_r.
  assert (Hlm : Z.log2 (Z.abs m) <= 53).
  { change 53 with (Z.log2 (2 ^ 53)). apply Z.log2_le_mono. exact Hm. }
  assert (Hdiv : exists c, n = c * 2 ^ s).
  { destruct (Z.le_gt_cases s j) as [Hsj | Hsj].
    - exists (m * 2 ^ (j - s)). unfold n.
      rewrite <- Z.mul_assoc, <- Z.pow_add_r by lia. do 2 f_equal. lia.
    - assert (Hl53 : Z.log2 (Z.abs m) = 53) by lia.
      assert (Habs : Z.abs m = 2 ^ 53).
      { pose proof (Z.log2_spec (Z.abs m) ltac:(lia)) as [Hlo _].
        rewrite Hl53 in Hlo. lia. }
      assert (Hs : s = j + 1) by lia.
      exists (Z.sgn m * 2 ^ 52). unfold n. rewrite Hs.
      assert (Hsgn : m = Z.sgn m * (2 ^ 52 * 2)).
      { change (2 ^ 52 * 2) with (2 ^ 53). lia. }
      rewrite Z.pow_add_r by lia. change (2 ^ 1) with 2.
      rewrite Hsgn at 1. ring. }
  destruct Hdiv as [c Hc]. rewrite Hc at 1.
  rewrite div_nearest_even_exact by lia. lia.
Qed.

(** What rounding returns is on the grid. *)
Lemma round53_idempotent (k p : Z) :
  0 <= k -> round53 0 (round53 k p) = round53 k p.
Proof.
  intros Hk. unfold round53 at 2 3.
  pose proof (round53_step k p Hk) as [Hks Hhi].
  set (s := Z.max (Z.log2 (Z.abs p) - 52) k) in *.
  apply round53_exact; [lia |].
  apply div_nearest_even_bound; lia.
Qed.

Lemma binary64_spec (n : Z) :
  binary64 n = true <-> round53 0 n = n /\ Z.abs n < overflow_threshold.
Proof.
  unfold binary64. rewrite andb_true_iff, Z.eqb_eq, Z.ltb_lt. reflexivity.
Qed.

End Binary64Facts.

Module FloatFacts.
Import Binary64 Binary64Facts.

Lemma one_unit_pos : 0 < one_unit.
Proof. reflexivity. Qed.

Lemma of_Z_1 : of_Z 1 = FNum one_unit.
Proof. unfold of_Z. rewrite Z.mul_1_l. reflexivity. Qed.

Lemma of_Z_0 : of_Z 0 = FNum 0.
Proof. reflexivity. Qed.

Lemma overflow_small (n : Z) :
  Z.abs n < overflow_threshold -> overflow n = FNum n.
Proof.
  intros H. unfold overflow.
  destruct (Z.leb_spec overflow_threshold (Z.abs n)); [lia | reflexivity].
Qed.

Lemma overflow_not_negative (n : Z) : 0 <= n -> not_negative (overflow n).
Proof.
  intros H. unfold overflow.
  destruct (Z.leb_spec overflow_threshold (Z.abs n)); simpl; [| exact H].
  destruct (Z.ltb_spec n 0); [lia | reflexivity].
Qed.

Lemma overflow_mono (m n : Z) :
  m <= n -> fle (overflow m) (overflow n) = true.
Proof.
  intros H. unfold overflow.
  assert (0 < overflow_threshold) by reflexivity.
  destruct (Z.leb_spec overflow_threshold (Z.abs m)),
    (Z.leb_spec overflow_threshold (Z.abs n)); simpl;
    repeat match goal with
           | |- context [?a <? ?b] => destruct (Z.ltb_spec a b)
           end; simpl; try reflexivity; lia.
Qed.

Lemma overflow_not_nan (n : Z) : overflow n <> FNaN.
Proof. unfold overflow. destruct (_ <=? _); discriminate. Qed.

(** Comparisons of floats, case by case. *)
Ltac float_order :=
  repeat match goal with
         | x : float |- _ => destruct x as [| [] |]
         end;
  simpl in *; try discriminate; try reflexivity; try tauto;
  repeat match goal with
         | H : (_ <? _) = true |- _ => apply Z.ltb_lt in H
         | H : (_ <? _) = false |- _ => apply Z.ltb_ge in H
         | H : (_ <=? _) = true |- _ => apply Z.leb_le in H
         | H : (_ <=? _) = false |- _ => apply Z.leb_gt in H
         | |- (_ <? _) = true => apply Z.ltb_lt
         | |- (_ <? _) = false => apply Z.ltb_ge
         | |- (_ <=? _) = true => apply Z.leb_le
         | |- (_ <=? _) = false => apply Z.leb_gt
         end;
  try lia.

Lemma fle_trans (x y z : float) :
  fle x y = true -> fle y z = true -> fle x z = true.
Proof. intros H1 H2. float_order. Qed.

Lemma flt_fle (x y : float) : flt x y = true -> fle x y = true.
Proof. intros H. float_order. Qed.

Lemma flt_fle_trans (x y z : float) :
  fle x y = true -> flt y z = true -> fle x z = true.
Proof. intros H1 H2. float_order. Qed.

Lemma fle_total (x y : float) :
  x <> FNaN -> y <> FNaN -> flt x y = false -> fle y x = true.
Proof. intros Hx Hy H. float_order. Qed.

Lemma flt_irrefl_le (x y : float) :
  fle x y = true -> flt y x = true -> False.
Proof. intros H1 H2. float_order. Qed.

Lemma fle_not_nan_l (x y : float) : fle x y = true -> x <> FNaN.
Proof. intros H ->. discriminate H. Qed.

Lemma fle_not_nan_r (x y : float) : fle x y = true -> y <> FNaN.
Proof. intros H ->. destruct x; discriminate H. Qed.

Lemma flt_not_nan_l (x y : float) : flt x y = true -> x <> FNaN.
Proof. intros H ->. discriminate H. Qed.

Lemma flt_not_nan_r (x y : float) : flt x y = true -> y <> FNaN.
Proof. intros H ->. destruct x; discriminate H. Qed.

(** Signs through the operations. *)
Lemma fsub_self_not_negative (x : float) : not_negative (fsub x x).
Proof.
  destruct x as [| [] | n]; simpl; try exact I.
  rewrite Z.add_opp_diag_r, round53_0 by lia. simpl. lia.
Qed.

Lemma fsub_not_negative (x y : float) :
  fle y x = true -> not_negative (fsub x y).
Proof.
  intros H. destruct x as [| [] | a], y as [| [] | b]; simpl in *;
    try discriminate; try exact I; try reflexivity.
  apply Z.leb_le in H. apply overflow_not_negative, round53_nonneg; lia.
Qed.

Lemma fmul_not_negative (x y : float) :
  not_negative x -> fle (of_Z 0) y = true -> not_negative (fmul x y).
Proof.
  intros Hx Hy. destruct x as [| [] | a], y as [| [] | b]; simpl in *;
    try discriminate; try exact I; try reflexivity.
  - apply Z.leb_le in Hy. destruct (Z.eqb_spec b 0); simpl; [exact I |].
    destruct (Z.ltb_spec b 0); [lia | reflexivity].
  - destruct (Z.eqb_spec a 0); simpl; [exact I |].
    destruct (Z.ltb_spec a 0); [lia | reflexivity].
  - apply Z.leb_le in Hy. apply overflow_not_negative, round53_nonneg; nia.
Qed.

Lemma fadd_not_negative (x y : float) :
  fle (of_Z 0) x = true -> not_negative y -> not_negative (fadd x y).
Proof.
  intros Hx Hy. destruct x as [| [] | a], y as [| [] | b]; simpl in *;
    try discriminate; try exact I; try reflexivity.
  apply Z.leb_le in Hx. apply overflow_not_negative, round53_nonneg; lia.
Qed.

(** Taking one token from a count between 1 and a capacity that is a
    double leaves a count between 0 and the capacity. *)
Lemma fsub_one_range (n c : Z) :
  binary64 c = true -> one_unit <= n <= c ->
  exists m, fsub (FNum n) (of_Z 1) = FNum m /\ 0 <= m <= c.
Proof.
  intros Hc [Hlo Hhi]. apply binary64_spec in Hc. destruct Hc as [Hfix Hfin].
  pose proof one_unit_pos as Hone.
  rewrite of_Z_1. unfold fsub. simpl.
  set (m := round53 0 (n + - one_unit)).
  assert (H0 : 0 <= m) by (apply round53_nonneg; lia).
  assert (Hm : m <= c).
  { rewrite <- Hfix. apply round53_mono; lia. }
  exists m. split; [apply overflow_small; lia | lia].
Qed.

End FloatFacts.

Module RateLimiterFacts.
Import Binary64 Binary64Facts FloatFacts RateLimiter RateLimiterSpec.
Import RateLimiterScenarios.
Local Open Scope Qc_scope.

Lemma ttl_pos (clock : Qc) : clock < clock + ttl.
Proof.
  rewrite <- (Qcplus_0_r clock) at 1. apply Qcplus_lt_mono_l.
  vm_compute. reflexivity.
Qed.

Lemma redis_get_after_setex (redis : gmap string entry) (clock : Qc) (key : string)
      (v : bucket) :
  redis_get (redis_setex redis clock key ttl v) clock key = Some v.
Proof.
  unfold redis_get, redis_setex. rewrite lookup_insert_eq. simpl.
  destruct (decide (clock < clock + ttl)) as [_ | H]; [reflexivity |].
  exfalso. apply H, ttl_pos.
Qed.

Lemma py_min_le (C x : float) :
  C <> FNaN -> fle (py_min C x) C = true.
Proof.
  intros HC. unfold py_min. destruct (flt x C) eqn:Hlt.
  - apply flt_fle, Hlt.
  - destruct C as [| [] | c]; try reflexivity; [contradiction |].
    simpl. apply Z.leb_refl.
Qed.

(** The refilled count is the capacity or a smaller sum. *)
Lemma py_min_either (C x : float) :
  (py_min C x = x /\ flt x C = true) \/ (py_min C x = C /\ flt x C = false).
Proof. unfold py_min. destruct (flt x C); auto. Qed.

Lemma allow_binary64_bounded (C r t t0 now : float) :
  finite_double C = true ->
  fle (tokens (snd (allow_binary64 C r t t0 now))) C = true.
Proof.
  intros HC. destruct C as [| s | c]; try discriminate HC. simpl in HC.
  unfold allow_binary64.
  set (x := refilled (FNum c) r t t0 now).
  assert (Hx : fle x (FNum c) = true) by (apply py_min_le; discriminate).
  destruct (fle (of_Z 1) x) eqn:Hone; simpl; [| exact Hx].
  rewrite of_Z_1 in Hone.
  destruct x as [| [] | n]; try discriminate Hone; try discriminate Hx.
  simpl in Hone, Hx. apply Z.leb_le in Hone, Hx.
  destruct (fsub_one_range n c HC ltac:(lia)) as (m & -> & Hm).
  simpl. apply Z.leb_le. lia.
Qed.

Lemma is_allowed_stored (self : TokenBucketRateLimiter)
      (redis : gmap string entry) (clock : Qc) (now : float) (key : string)
      (t t0 : float) :
  redis_get redis clock (bucket_key key) =
    Some {| tokens := t; last_refill := t0 |} ->
  is_allowed self redis clock now key (of_Z 1) =
  ((fst (allow_binary64 (bucket_size self) (refill_rate self) t t0 now),
    tokens (snd (allow_binary64 (bucket_size self) (refill_rate self)
                   t t0 now))),
   redis_setex redis clock (bucket_key key) ttl
     (snd (allow_binary64 (bucket_size self) (refill_rate self) t t0 now))).
Proof.
  intros Hget. unfold is_allowed, allow_binary64, refilled. rewrite Hget.
  cbn [last_refill tokens].
  destruct (fle (of_Z 1) _); reflexivity.
Qed.

Lemma is_allowed_fresh (self : TokenBucketRateLimiter)
      (redis : gmap string entry) (clock : Qc) (now : float) (key : string) :
  redis_get redis clock (bucket_key key) = None ->
  is_allowed self redis clock now key (of_Z 1) =
  ((fst (allow_binary64 (bucket_size self) (refill_rate self)
           (bucket_size self) now now),
    tokens (snd (allow_binary64 (bucket_size self) (refill_rate self)
                   (bucket_size self) now now))),
   redis_setex redis clock (bucket_key key) ttl
     (snd (allow_binary64 (bucket_size self) (refill_rate self)
             (bucket_size self) now now))).
Proof.
  intros Hget. unfold is_allowed, allow_binary64, refilled. rewrite Hget.
  destruct (fle (of_Z 1) _); reflexivity.
Qed.

Lemma last_refill_allow (C r t t0 now : float) :
  last_refill (snd (allow_binary64 C r t t0 now)) = now.
Proof. unfold allow_binary64. destruct (fle _ _); reflexivity. Qed.

(** Rounding is visible in the answer.  Six seconds after it was
    emptied, a bucket refilled at 0.16666666666666666 tokens a second
    (the double nearest to 1/6) grants a call: 6 * 0.16666666666666666
    is 1 - 2^-54 and rounds to 1.0.  The same formula over the real
    numbers that these floats denote stays below 1 and refuses. *)
Lemma rounding_grants :
  fst (fst (is_allowed ten_a_minute emptied 0 (of_Z 6) "user:7" (of_Z 1))) =
    true /\
  (forall C r t t0 now,
      value (of_Z 10) = Some C -> value one_sixth = Some r ->
      value (of_Z 0) = Some t -> value (of_Z 0) = Some t0 ->
      value (of_Z 6) = Some now ->
      fst (TokenBucket.allow_spec C r t t0 now) = false).
Proof.
  split; [vm_compute; reflexivity |].
  intros C r t t0 now [= <-] [= <-] [= <-] [= <-] [= <-].
  vm_compute. reflexivity.
Qed.

(** C4: on a stored bucket (t, t0), [is_allowed] computes
    refilled = min(C, t + (now - t0) * r), in the binary64 arithmetic of
    its floats, grants and stores refilled - 1 when refilled >= 1,
    refuses and stores refilled otherwise; either way the bucket is
    rewritten with last_refill = now, and the stored count does not
    exceed the capacity (a finite double). *)
Theorem is_allowed_binary64 (self : TokenBucketRateLimiter)
        (redis : gmap string entry) (clock : Qc) (now : float) (key : string)
        (t t0 : float) :
  redis_get redis clock (bucket_key key) =
    Some {| tokens := t; last_refill := t0 |} ->
  finite_double (bucket_size self) = true ->
  let spec := allow_binary64 (bucket_size self) (refill_rate self) t t0 now in
  let result := is_allowed self redis clock now key (of_Z 1) in
  fst (fst result) = fst spec /\
  snd (fst result) = tokens (snd spec) /\
  snd result !! bucket_key key =
    Some {| payload := snd spec; expires_at := clock + ttl |} /\
  last_refill (snd spec) = now /\
  fle (tokens (snd spec)) (bucket_size self) = true.
Proof.
  intros Hget HC spec result. subst spec result.
  rewrite (is_allowed_stored self redis clock now key t t0 Hget).
  cbn [fst snd]. repeat split.
  - apply lookup_insert_eq.
  - apply last_refill_allow.
  - apply allow_binary64_bounded, HC.
Qed.

Lemma is_allowed_binary64_witness :
  fst (fst (is_allowed ten_a_minute emptied 0 (of_Z 6) "user:7" (of_Z 1))) =
  fst (allow_binary64 (of_Z 10) one_sixth (of_Z 0) (of_Z 0) (of_Z 6)).
Proof.
  refine (proj1 (is_allowed_binary64 ten_a_minute emptied 0 (of_Z 6) "user:7"
                   (of_Z 0) (of_Z 0) _ _)); vm_compute; reflexivity.
Defined.

End RateLimiterFacts.

Module RateLimitMiddlewareFacts.
Import TokenBucket RateLimitMiddleware TokenBucketFacts Scenarios.
Local Open Scope Qc_scope.

Lemma bucket_key_inj (k k' : string) : bucket_key k = bucket_key k' -> k = k'.
Proof. unfold bucket_key. apply (inj (String.app "bucket:")). Qed.

Lemma check_layer_allowed (limiter : TokenBucketRateLimiter)
      (redis : gmap string entry) (now : Qc) (key : string) :
  fst (check_layer limiter redis now key) =
  negb (layer_fails limiter redis now key).
Proof.
  unfold check_layer, layer_fails, available, Allow.
  destruct (redis_get redis now (bucket_key key)) as [[t t0] |]; simpl;
    case_decide as Hle; simpl; case_bool_decide as Hlt; simpl;
    try reflexivity; exfalso.
  all: first [ exact (Qclt_not_le _ _ Hlt Hle)
             | apply Hlt, Qcnot_le_lt, Hle ].
Qed.

(** A check rewrites the bucket of its own key only. *)
Lemma check_layer_frame (limiter limiter' : TokenBucketRateLimiter)
      (redis : gmap string entry) (now : Qc) (key key' : string) :
  key <> key' ->
  available limiter' (snd (check_layer limiter redis now key)) now key' =
  available limiter' redis now key'.
Proof.
  intros Hne. unfold available, check_layer, Allow.
  destruct (redis_get redis now (bucket_key key)) as [[t t0] |]; simpl;
    case_decide; simpl;
    rewrite redis_get_setex_ne
      by (intros Heq; apply Hne, bucket_key_inj, Heq);
    reflexivity.
Qed.

Lemma layer_fails_frame (limiter limiter' : TokenBucketRateLimiter)
      (redis : gmap string entry) (now : Qc) (key key' : string) :
  key <> key' ->
  layer_fails limiter' (snd (check_layer limiter redis now key)) now key' =
  layer_fails limiter' redis now key'.
Proof.
  intros Hne. unfold layer_fails. rewrite check_layer_frame by exact Hne.
  reflexivity.
Qed.

(** The keys of one request are pairwise distinct. *)
Lemma keys_distinct (user_id ip_address action_type : string) :
  let keys := get_rate_limit_keys user_id ip_address action_type in
  ip_global keys <> user_global keys /\
  ip_global keys <> user_action keys /\
  ip_global keys <> action_interval keys /\
  user_global keys <> user_action keys /\
  user_global keys <> action_interval keys /\
  user_action keys <> action_interval keys.
Proof.
  simpl. repeat split; intros H; try discriminate H;
    apply (inj (String.app "rate_limit:user:")) in H;
    apply (inj (String.app user_id)) in H; discriminate H.
Qed.

(** The checks touch distinct buckets, so which one fails first can be
    read off the store as it was when the request arrived. *)
Lemma middleware_answer (cfg : layers) (redis : gmap string entry)
      (now : Qc) (ip_address user_id action_type : string) :
  fst (rate_limit_middleware cfg redis now ip_address user_id action_type) =
  first_failure cfg redis now
    (get_rate_limit_keys user_id ip_address action_type).
Proof.
  destruct (keys_distinct user_id ip_address action_type)
    as (H12 & H13 & H14 & H23 & H24 & H34).
  unfold rate_limit_middleware, first_failure.
  set (keys := get_rate_limit_keys user_id ip_address action_type) in *.
  clearbody keys.
  pose proof (check_layer_allowed (ip_limiter cfg) redis now (ip_global keys))
    as E1.
  pose proof (layer_fails_frame (ip_limiter cfg) (user_limiter cfg) redis now
                _ _ H12) as F12.
  pose proof (layer_fails_frame (ip_limiter cfg) (action_limiter cfg) redis now
                _ _ H13) as F13.
  pose proof (layer_fails_frame (ip_limiter cfg) (interval_limiter cfg) redis
                now _ _ H14) as F14.
  destruct (check_layer (ip_limiter cfg) redis now (ip_global keys))
    as [ok1 r1]. simpl in E1, F12, F13, F14. subst ok1.
  destruct (layer_fails (ip_limiter cfg) redis now (ip_global keys));
    [reflexivity |]. simpl negb. cbv iota.
  pose proof (check_layer_allowed (user_limiter cfg) r1 now (user_global keys))
    as E2.
  pose proof (layer_fails_frame (user_limiter cfg) (action_limiter cfg) r1 now
                _ _ H23) as F23.
  pose proof (layer_fails_frame (user_limiter cfg) (interval_limiter cfg) r1
                now _ _ H24) as F24.
  destruct (check_layer (user_limiter cfg) r1 now (user_global keys))
    as [ok2 r2]. simpl in E2, F23, F24. subst ok2. rewrite F12.
  destruct (layer_fails (user_limiter cfg) redis now (user_global keys));
    [reflexivity |]. simpl negb. cbv iota.
  pose proof (check_layer_allowed (action_limiter cfg) r2 now (user_action keys))
    as E3.
  pose proof (layer_fails_frame (action_limiter cfg) (interval_limiter cfg) r2
                now _ _ H34) as F34.
  destruct (check_layer (action_limiter cfg) r2 now (user_action keys))
    as [ok3 r3]. simpl in E3, F34. subst ok3. rewrite F23, F13.
  destruct (layer_fails (action_limiter cfg) redis now (user_action keys));
    [reflexivity |]. simpl negb. cbv iota.
  pose proof (check_layer_allowed (interval_limiter cfg) r3 now
                (action_interval keys)) as E4.
  destruct (check_layer (interval_limiter cfg) r3 now (action_interval keys))
    as [ok4 r4]. simpl in E4. subst ok4. rewrite F34, F24, F14.
  destruct (layer_fails (interval_limiter cfg) redis now (action_interval keys));
    reflexivity.
Qed.

Example spent_denied :
  fst (rate_limit_middleware demo_layers spent_redis (Qc_of_Z 0)
         "10.0.0.1" "7" "puzzle_complete") =
    RateLimitExceeded "Action rate limit exceeded" (Qc_of_Z 30).
Proof. rewrite middleware_answer. vm_compute. reflexivity. Qed.

Example spent_longest_wait :
  longest_wait demo_layers spent_redis (Qc_of_Z 0)
    (get_rate_limit_keys "7" "10.0.0.1" "puzzle_complete") = Some (Qc_of_Z 6).
Proof. vm_compute. f_equal. apply Qc_is_canon. reflexivity. Qed.

(** C5, as the specification states it, fails: with the action bucket
    empty at ten tokens a minute the formula gives 6 seconds, the
    middleware answers 30. *)
Lemma retry_after_not_longest_wait :
  ~ retry_after_is_longest_wait demo_layers spent_redis (Qc_of_Z 0)
      "10.0.0.1" "7" "puzzle_complete".
Proof.
  intros H. specialize (H _ _ spent_denied).
  rewrite spent_longest_wait in H.
  apply (f_equal (fun o => match o with
                           | Some q => Qnum (this q)
                           | None => 0%Z
                           end)) in H.
  vm_compute in H. discriminate H.
Qed.

(** C5 (amended): the middleware answers with the first failing check in
    the order IP, user, action, interval, and its retry_after is the
    constant of that check (60, 60, 30, 3 seconds), whatever the token
    counts; it passes when no layer fails. *)
Theorem retry_after_fixed (cfg : layers) (redis : gmap string entry)
        (now : Qc) (ip_address user_id action_type : string) :
  fst (rate_limit_middleware cfg redis now ip_address user_id action_type) =
  first_failure cfg redis now
    (get_rate_limit_keys user_id ip_address action_type).
Proof. apply middleware_answer. Qed.

End RateLimitMiddlewareFacts.

Module ScoreStoreFacts.
Import ScoreStore.

(** An attempt either commits both statements or leaves the store as it
    was. *)
Lemma apply_increment_step (db : database) (op : increment) :
  (succeeded (fst (apply_increment db op)) = true /\
   (exists u,
       users db !! target op = Some u /\
       users (snd (apply_increment db op)) =
         <[target op := {| username := username u;
                           score := score u + delta op;
                           is_active := is_active u |}]> (users db)) /\
   score_history (snd (apply_increment db op)) =
     score_history db ++ [record_of op] /\
   fst (apply_increment db op) =
     NewScore (score_of db (target op) + delta op)) \/
  (succeeded (fst (apply_increment db op)) = false /\
   snd (apply_increment db op) = db).
Proof.
  unfold apply_increment, ApplyIncrement, score_update_transaction,
    sql_update_score, score_of.
  destruct (users db !! target op) as [u |] eqn:Hu.
  - destruct (in_integer (score u + delta op)); [| right; split; reflexivity].
    unfold sql_insert_history. simpl. rewrite lookup_insert_eq.
    destruct (in_integer (delta op)); [| right; split; reflexivity].
    destruct (conflict op); [right; split; reflexivity |].
    simpl. rewrite lookup_insert_eq. simpl. left.
    split; [reflexivity |]. split; [exists u; split; reflexivity |].
    split; reflexivity.
  - unfold sql_insert_history. simpl. rewrite Hu. right. split; reflexivity.
Qed.

Lemma sum_Z_cons (x : Z) (l : list Z) : sum_Z (x :: l) = x + sum_Z l.
Proof. reflexivity. Qed.

Lemma sum_Z_app (l k : list Z) : sum_Z (l ++ k) = sum_Z l + sum_Z k.
Proof. unfold sum_Z. induction l as [| x l IH]; simpl; lia. Qed.

Lemma history_sum_app (id : Z) (l k : list score_history_row) :
  history_sum id (l ++ k) = history_sum id l + history_sum id k.
Proof. unfold history_sum. rewrite filter_app, fmap_app. apply sum_Z_app. Qed.

Lemma run_cons (db : database) (op : increment) (ops : list increment) :
  run db (op :: ops) =
  ((op, fst (apply_increment db op)) ::
     fst (run (snd (apply_increment db op)) ops),
   snd (run (snd (apply_increment db op)) ops)).
Proof.
  simpl. destruct (apply_increment db op) as [r db1]. simpl.
  destruct (run db1 ops) as [trace db2]. reflexivity.
Qed.

Lemma accepted_cons (op : increment) (r : apply_result)
      (trace : list (increment * apply_result)) :
  accepted ((op, r) :: trace) =
  if succeeded r then op :: accepted trace else accepted trace.
Proof.
  unfold accepted. rewrite filter_cons. simpl.
  destruct (succeeded r); reflexivity.
Qed.

Lemma run_score (db : database) (ops : list increment) (id : Z) :
  score_of (snd (run db ops)) id =
  score_of db id + sum_Z (accepted_deltas id (fst (run db ops))).
Proof.
  revert db. induction ops as [| op ops IH]; intros db.
  - simpl. unfold accepted_deltas, sum_Z. simpl. lia.
  - rewrite run_cons. cbn [fst snd]. rewrite IH.
    unfold accepted_deltas. rewrite accepted_cons.
    destruct (apply_increment_step db op)
      as [(Hok & (u & Hu & Husers) & _ & _) | (Hko & Hsame)].
    + rewrite Hok. rewrite filter_cons.
      unfold score_of at 1. rewrite Husers.
      destruct (decide (target op = id)) as [<- | Hne].
      * rewrite lookup_insert_eq. unfold score_of. rewrite Hu.
        rewrite fmap_cons, sum_Z_cons. simpl score. lia.
      * rewrite lookup_insert_ne by exact Hne. fold (score_of db id). lia.
    + rewrite Hko, Hsame. reflexivity.
Qed.

Lemma run_history (db : database) (ops : list increment) :
  score_history (snd (run db ops)) =
  score_history db ++ (record_of <$> accepted (fst (run db ops))).
Proof.
  revert db. induction ops as [| op ops IH]; intros db.
  - simpl. rewrite app_nil_r. reflexivity.
  - rewrite run_cons. cbn [fst snd]. rewrite IH, accepted_cons.
    destruct (apply_increment_step db op)
      as [(Hok & _ & Hhist & _) | (Hko & Hsame)].
    + rewrite Hok, Hhist, <- app_assoc. reflexivity.
    + rewrite Hko, Hsame. reflexivity.
Qed.

Lemma history_sum_records (id : Z) (ops : list increment) :
  history_sum id (record_of <$> ops) =
  sum_Z (delta <$> filter (fun op => target op = id) ops).
Proof.
  induction ops as [| op ops IH]; [reflexivity |].
  rewrite fmap_cons, filter_cons.
  change (record_of op :: (record_of <$> ops))
    with ([record_of op] ++ (record_of <$> ops)).
  rewrite history_sum_app, IH. unfold history_sum.
  rewrite filter_cons, filter_nil. simpl user_id.
  destruct (decide (target op = id)); [rewrite !fmap_cons, !sum_Z_cons |];
    set (rest := sum_Z (delta <$> filter _ ops)); simpl; lia.
Qed.

(** C1: over any sequence of ApplyIncrement calls, in the order the store
    serialises them, the score of an identity grows by exactly the sum of
    the deltas of the calls on it that returned success; the history grows
    by exactly the records of those calls, whose deltas sum to the same
    amount. *)
Theorem accepted_updates_are_the_score (db : database) (ops : list increment)
        (id : Z) :
  score_of (snd (run db ops)) id - score_of db id =
    sum_Z (accepted_deltas id (fst (run db ops))) /\
  score_history (snd (run db ops)) =
    score_history db ++ (record_of <$> accepted (fst (run db ops))) /\
  history_sum id (score_history (snd (run db ops))) -
    history_sum id (score_history db) =
    score_of (snd (run db ops)) id - score_of db id.
Proof.
  pose proof (run_score db ops id) as Hscore.
  pose proof (run_history db ops) as Hhist.
  split; [lia |]. split; [exact Hhist |].
  rewrite Hhist, history_sum_app, history_sum_records.
  unfold accepted_deltas in Hscore. lia.
Qed.

End ScoreStoreFacts.

Module RankingFacts.
Import ScoreStore Scenarios.

Global Instance ranks_before_total : Total ranks_before.
Proof. intros a b. unfold ranks_before. lia. Qed.

Global Instance ranks_before_transitive : Transitive ranks_before.
Proof. intros a b c. unfold ranks_before. lia. Qed.

Lemma ranks_before_antisym (a b : Z * user_row) :
  ranks_before a b -> ranks_before b a -> fst a = fst b.
Proof. unfold ranks_before. lia. Qed.

Lemma ranking_sorted (db : database) : StronglySorted ranks_before (ranking db).
Proof. apply StronglySorted_merge_sort; apply _. Qed.

Lemma ranking_perm (db : database) : ranking db ≡ₚ active_users db.
Proof. apply merge_sort_Permutation. Qed.

Lemma elem_of_active_users (db : database) (id : Z) (u : user_row) :
  (id, u) ∈ active_users db <-> users db !! id = Some u /\ is_active u = true.
Proof.
  unfold active_users. rewrite list_elem_of_filter, elem_of_map_to_list.
  simpl. tauto.
Qed.

Lemma elem_of_ranking (db : database) (id : Z) (u : user_row) :
  (id, u) ∈ ranking db <-> users db !! id = Some u /\ is_active u = true.
Proof. rewrite ranking_perm. apply elem_of_active_users. Qed.

Lemma active_users_NoDup (db : database) : NoDup (fst <$> active_users db).
Proof.
  unfold active_users.
  pose proof (NoDup_fst_map_to_list (users db)) as H.
  induction (map_to_list (users db)) as [| x l IH]; [constructor |].
  rewrite fmap_cons in H. apply NoDup_cons in H. destruct H as [Hx Hl].
  rewrite filter_cons. destruct (decide (is_active (snd x) = true)).
  - rewrite fmap_cons. apply NoDup_cons. split; [| apply IH, Hl].
    intros Hin. apply Hx. apply list_elem_of_fmap in Hin.
    destruct Hin as (y & -> & Hy). apply list_elem_of_filter in Hy.
    apply list_elem_of_fmap. exists y. split; [reflexivity | apply Hy].
  - apply IH, Hl.
Qed.

Lemma ranking_NoDup (db : database) : NoDup (fst <$> ranking db).
Proof. rewrite ranking_perm. apply active_users_NoDup. Qed.

Lemma row_number_app {A : Type} (start : nat) (l k : list A) :
  row_number start (l ++ k) =
  row_number start l ++ row_number (start + length l) k.
Proof.
  revert start. induction l as [| x l IH]; intros start; simpl.
  - rewrite Nat.add_0_r. reflexivity.
  - rewrite IH. do 3 f_equal. lia.
Qed.

Lemma row_number_lookup {A : Type} (start : nat) (l : list A) (i : nat) :
  row_number start l !! i = (fun x => (x, (start + i)%nat)) <$> l !! i.
Proof.
  revert start i. induction l as [| x l IH]; intros start [| i]; simpl;
    try reflexivity.
  - rewrite Nat.add_0_r. reflexivity.
  - rewrite IH. destruct (l !! i); simpl; [do 3 f_equal; lia | reflexivity].
Qed.

Lemma take_row_number {A : Type} (start k : nat) (l : list A) :
  take k (row_number start l) = row_number start (take k l).
Proof.
  revert start k. induction l as [| x l IH]; intros start [| k]; simpl;
    try reflexivity.
  rewrite IH. reflexivity.
Qed.

(** Rows whose id differs from [id] do not answer [WHERE id = $1]. *)
Lemma filter_row_number_none (start : nat) (id : Z) (l : list (Z * user_row)) :
  id ∉ fst <$> l ->
  filter (fun r : (Z * user_row) * nat => fst (fst r) = id)
         (row_number start l) = [].
Proof.
  revert start. induction l as [| x l IH]; intros start Hnot; [reflexivity |].
  simpl row_number. rewrite fmap_cons, not_elem_of_cons in Hnot.
  destruct Hnot as [Hx Hl].
  rewrite filter_cons_False by (simpl; congruence). apply IH, Hl.
Qed.

Lemma user_rank_split (db : database) (id : Z) (u : user_row)
      (pre post : list (Z * user_row)) :
  ranking db = pre ++ (id, u) :: post ->
  user_rank db id = Some (S (length pre)).
Proof.
  intros Hsplit. unfold user_rank, ranked.
  pose proof (ranking_NoDup db) as Hnd. rewrite Hsplit in *.
  rewrite fmap_app in Hnd. apply NoDup_app in Hnd.
  destruct Hnd as (_ & Hdisj & _).
  assert (Hpre : id ∉ fst <$> pre).
  { intros Hin. apply (Hdisj id Hin). rewrite fmap_cons. left. }
  rewrite row_number_app, filter_app, filter_row_number_none by exact Hpre.
  cbn [row_number app]. rewrite filter_cons_True by reflexivity.
  reflexivity.
Qed.

(** In a sorted list without repeated ids, the rows strictly before a row
    are exactly those to its left. *)
Lemma strictly_before_split (x : Z * user_row) (pre post : list (Z * user_row)) :
  StronglySorted ranks_before (pre ++ x :: post) ->
  NoDup (fst <$> pre ++ x :: post) ->
  length (filter (fun r => strictly_before r x) (pre ++ x :: post)) =
  length pre.
Proof.
  intros Hsorted Hnd.
  rewrite fmap_app, fmap_cons in Hnd. apply NoDup_app in Hnd.
  destruct Hnd as (_ & Hdisj & Hnd). apply NoDup_cons in Hnd.
  destruct Hnd as [Hpost _].
  assert (Hpre : filter (fun r => strictly_before r x) pre = pre).
  { assert (Hall : Forall (fun r => strictly_before r x) pre).
    { apply Forall_forall. intros r Hr. split.
      - apply (StronglySorted_app_1_elem_of _ _ _ _ _ Hsorted Hr). left.
      - intros Heq. apply (Hdisj (fst r)).
        + apply list_elem_of_fmap. exists r. split; [reflexivity | exact Hr].
        + rewrite Heq. left. }
    clear -Hall. induction Hall as [| r l Hr _ IH]; [reflexivity |].
    rewrite filter_cons_True by exact Hr. rewrite IH. reflexivity. }
  assert (Hrest : filter (fun r => strictly_before r x) (x :: post) = []).
  { apply StronglySorted_app_1_r in Hsorted.
    apply StronglySorted_inv in Hsorted. destruct Hsorted as [_ Hafter].
    rewrite filter_cons_False by (intros [_ Hne]; apply Hne; reflexivity).
    clear -Hafter Hpost. induction post as [| r post IH]; [reflexivity |].
    apply Forall_cons in Hafter. destruct Hafter as [Hr Hafter].
    rewrite fmap_cons, not_elem_of_cons in Hpost. destruct Hpost as [_ Hpost].
    rewrite filter_cons_False; [apply IH; assumption |].
    intros [Hbefore Hne]. apply Hne. symmetry.
    apply ranks_before_antisym; assumption. }
  rewrite filter_app, Hpre, Hrest, app_nil_r. reflexivity.
Qed.

Lemma user_rank_active (db : database) (id : Z) (u : user_row) :
  users db !! id = Some u -> is_active u = true ->
  user_rank db id = Some (position_among (active_users db) id u).
Proof.
  intros Hu Hact.
  assert (Hin : (id, u) ∈ ranking db) by (apply elem_of_ranking; auto).
  apply list_elem_of_split in Hin. destruct Hin as (pre & post & Hsplit).
  rewrite (user_rank_split db id u pre post Hsplit).
  unfold position_among. do 2 f_equal.
  rewrite <- (ranking_perm db).
  pose proof (ranking_sorted db) as Hsorted.
  pose proof (ranking_NoDup db) as Hnd.
  rewrite Hsplit in *. symmetry. apply strictly_before_split; assumption.
Qed.

Lemma user_rank_absent (db : database) (id : Z) :
  (forall u, users db !! id = Some u -> is_active u = false) ->
  user_rank db id = None.
Proof.
  intros Hnone. unfold user_rank, ranked.
  rewrite filter_row_number_none; [reflexivity |].
  intros Hin. apply list_elem_of_fmap in Hin. destruct Hin as ([j u] & -> & Hin).
  apply elem_of_ranking in Hin. destruct Hin as [Hu Hact].
  rewrite (Hnone u Hu) in Hact. discriminate.
Qed.

Lemma fst_row_number {A : Type} (start : nat) (l : list A) :
  fst <$> row_number start l = l.
Proof.
  revert start. induction l as [| x l IH]; intros start; [reflexivity |].
  simpl row_number. rewrite fmap_cons, IH. reflexivity.
Qed.

Lemma leaderboard_row (db : database) (k i n : nat) (row : Z * user_row) :
  leaderboard db k !! i = Some (row, n) ->
  n = S i /\ ranking db !! i = Some row /\ user_rank db (fst row) = Some n.
Proof.
  unfold leaderboard, ranked. intros Hrow.
  apply lookup_take_Some in Hrow. destruct Hrow as [Hrow _].
  rewrite row_number_lookup in Hrow.
  destruct (ranking db !! i) as [row' |] eqn:Hi; [| discriminate Hrow].
  simpl in Hrow. injection Hrow as -> <-.
  split; [reflexivity |]. split; [reflexivity |].
  destruct row as [id u].
  pose proof (take_drop_middle _ _ _ Hi) as Hsplit. symmetry in Hsplit.
  cbn [fst]. rewrite (user_rank_split db id u _ _ Hsplit).
  rewrite length_take_le; [reflexivity |].
  apply lookup_lt_Some in Hi. lia.
Qed.

Example two_users_ranks :
  user_rank two_users 2 = Some 1%nat /\
  rank_among_all two_users 2 = Some 2%nat /\
  user_rank two_users 1 = None.
Proof. repeat split; vm_compute; reflexivity. Qed.

(** C6, as the specification states it, fails: the queries rank the rows
    with is_active = true only, so behind a deactivated leader the best
    active identity has rank 1, not position 2 among all identities. *)
Lemma rank_not_among_all : ~ rank_is_position_among_all two_users.
Proof.
  intros H. specialize (H 2). vm_compute in H. discriminate H.
Qed.

(** C6 (amended): the ranking is the active identities sorted by score
    descending, ties by id ascending; [user_rank] is the 1-based position
    in it (one more than the number of active identities strictly ahead)
    and is absent for an inactive or unknown identity; the leaderboard is
    the first k rows of the ranking, numbered from 1, and the number of a
    row is the rank of its identity. *)
Theorem ranking_among_active (db : database) :
  StronglySorted ranks_before (ranking db) /\
  ranking db ≡ₚ active_users db /\
  (forall id,
      user_rank db id =
      match users db !! id with
      | Some u =>
          if is_active u
          then Some (position_among (active_users db) id u)
          else None
      | None => None
      end) /\
  (forall k, fst <$> leaderboard db k = take k (ranking db)) /\
  (forall k i row n,
      leaderboard db k !! i = Some (row, n) ->
      n = S i /\ user_rank db (fst row) = Some n).
Proof.
  split; [apply ranking_sorted |]. split; [apply ranking_perm |].
  split; [| split].
  - intros id. destruct (users db !! id) as [u |] eqn:Hu.
    + destruct (is_active u) eqn:Hact.
      * apply user_rank_active; assumption.
      * apply user_rank_absent. intros u' Hu'. congruence.
    + apply user_rank_absent. intros u' Hu'. congruence.
  - intros k. unfold leaderboard, ranked.
    rewrite take_row_number. apply fst_row_number.
  - intros k i row n Hrow.
    destruct (leaderboard_row db k i n row Hrow) as (Hn & _ & Hrank).
    split; assumption.
Qed.

End RankingFacts.

Module ProofVerifierFacts.
Import ProofVerifier.
Local Open Scope Qc_scope.

Section Validation.

Variable generate_hmac : action_proof -> string -> string.
Variable validate_action_data : string -> string -> bool.

Lemma stale_iff (nonces : gset (Z * string)) (now : Qc) (p : action_proof)
      (secret : string) :
  validate_action_proof generate_hmac validate_action_data nonces now p secret =
    inl TimestampTooOld <->
  Qc_of_Z 30 < Qc_abs (now - timestamp p).
Proof.
  unfold validate_action_proof, is_timestamp_fresh.
  case_bool_decide as Hfresh; simpl.
  - split.
    + repeat match goal with
             | |- context [if ?b then _ else _] => destruct b
             end; discriminate.
    + intros Hlt. exfalso. exact (Qclt_not_le _ _ Hlt Hfresh).
  - split; [intros _; apply Qcnot_le_lt, Hfresh | reflexivity].
Qed.

(** The distance exceeds the window when the timestamp is too far in the
    past or too far in the future. *)
Lemma Qc_abs_gt (bound x y : Qc) :
  0 <= bound ->
  (bound < Qc_abs (x - y) <-> bound < x - y \/ bound < y - x).
Proof.
  intros Hbound. unfold Qc_abs.
  assert (Hopp : - (x - y) = y - x) by ring.
  case_decide as Hsign; rewrite ?Hopp.
  - split; [auto |]. intros [H | H]; [exact H | exfalso].
    apply Qcopp_le_compat in Hsign. rewrite Hopp in Hsign.
    change (- 0) with 0 in Hsign.
    apply (Qclt_not_le _ _ H). eapply Qcle_trans; eassumption.
  - split; [auto |]. intros [H | H]; [exfalso | exact H].
    apply Hsign. eapply Qcle_trans; [exact Hbound |].
    apply Qclt_le_weak, H.
Qed.

(** An accepted proof meets every check; in particular its nonce is not in
    the table it was checked against. *)
Lemma accepted_inv (nonces : gset (Z * string)) (now : Qc) (p : action_proof)
      (secret : string) :
  validate_action_proof generate_hmac validate_action_data nonces now p secret =
    inr tt ->
  Qc_abs (now - timestamp p) <= Qc_of_Z 30 /\
  signature p = generate_hmac p secret /\
  ((user_id p, nonce p) ∉ nonces) /\
  validate_action_data (action_type p) (action_data p) = true.
Proof.
  unfold validate_action_proof, is_timestamp_fresh, secure_compare,
    is_nonce_used.
  repeat case_bool_decide; simpl; try discriminate.
  destruct (validate_action_data (action_type p) (action_data p));
    simpl; [auto | discriminate].
Qed.

End Validation.

End ProofVerifierFacts.

Module ReplayFacts.
Import ProofVerifier NonceRecording ProofVerifierFacts Scenarios.
Local Open Scope Qc_scope.

Section Submissions.

Variable generate_hmac : action_proof -> string -> string.
Variable validate_action_data : string -> string -> bool.

(** A proof that passes on a table is refused as a replay once its pair
    is in the table: the two checks before the nonce check do not read
    the table. *)
Lemma replay_after_insert (nonces : gset (Z * string)) (now : Qc)
      (p : action_proof) (secret : string) :
  validate_action_proof generate_hmac validate_action_data nonces now p
    secret = inr tt ->
  validate_action_proof generate_hmac validate_action_data
    ({[ (user_id p, nonce p) ]} ∪ nonces) now p secret =
  inl NonceAlreadyUsed.
Proof.
  unfold validate_action_proof.
  destruct (negb (is_timestamp_fresh now (timestamp p) (Qc_of_Z 30)));
    [discriminate |].
  destruct (negb (secure_compare (signature p) (generate_hmac p secret)));
    [discriminate |].
  intros _. unfold is_nonce_used.
  rewrite bool_decide_eq_true_2 by set_solver. reflexivity.
Qed.

Lemma insert_nonce_absent (nonces : gset (Z * string)) (uid : Z)
      (n : string) :
  (uid, n) ∉ nonces ->
  insert_nonce nonces uid n = Some ({[ (uid, n) ]} ∪ nonces).
Proof.
  intros H. unfold insert_nonce. rewrite bool_decide_eq_false_2 by exact H.
  reflexivity.
Qed.

Lemma insert_nonce_present (nonces : gset (Z * string)) (uid : Z)
      (n : string) :
  insert_nonce ({[ (uid, n) ]} ∪ nonces) uid n = None.
Proof.
  unfold insert_nonce. rewrite bool_decide_eq_true_2 by set_solver.
  reflexivity.
Qed.

Variable nonces : gset (Z * string).
Variables now1 now2 : Qc.
Variable proof : action_proof.
Variable user_secret : string.

Hypothesis passes1 :
  validate_action_proof generate_hmac validate_action_data nonces now1 proof
    user_secret = inr tt.
Hypothesis passes2 :
  validate_action_proof generate_hmac validate_action_data nonces now2 proof
    user_secret = inr tt.

Lemma advance_before_insert (now : Qc) (st : stage) :
  validate_action_proof generate_hmac validate_action_data nonces now proof
    user_secret = inr tt ->
  (progress st < 2)%nat ->
  advance generate_hmac validate_action_data now proof user_secret st nonces =
  match st with
  | Arrived => (Validated, nonces)
  | _ => (accepted, {[ (user_id proof, nonce proof) ]} ∪ nonces)
  end.
Proof.
  intros Hpass Hst.
  destruct st as [| | a]; simpl in *; [| | lia].
  - rewrite Hpass. reflexivity.
  - rewrite insert_nonce_absent; [reflexivity |].
    apply (accepted_inv _ _ _ _ _ _ Hpass).
Qed.

Lemma advance_after_insert (now : Qc) (st : stage) :
  validate_action_proof generate_hmac validate_action_data nonces now proof
    user_secret = inr tt ->
  advance generate_hmac validate_action_data now proof user_secret st
    ({[ (user_id proof, nonce proof) ]} ∪ nonces) =
  (match st with
   | Answered a => Answered a
   | _ => replayed
   end, {[ (user_id proof, nonce proof) ]} ∪ nonces).
Proof.
  intros Hpass. destruct st as [| | a]; simpl.
  - rewrite (replay_after_insert _ _ _ _ Hpass). reflexivity.
  - rewrite insert_nonce_present. reflexivity.
  - reflexivity.
Qed.

(** Every step keeps the race in a state with one winner at most. *)
Lemma move_one_winner (who : bool) (s : race) :
  one_winner nonces (user_id proof, nonce proof) s ->
  one_winner nonces (user_id proof, nonce proof)
    (move generate_hmac validate_action_data now1 now2 proof user_secret
       who s).
Proof.
  destruct s as [st1 st2 t]. unfold one_winner. cbn [first second table].
  intros [(-> & H1 & H2) | (-> & H)]; unfold move; cbn [first second table].
  - destruct who.
    + rewrite (advance_before_insert now1 st1 passes1 H1).
      destruct st1 as [| | a]; cbn [first second table progress] in *;
        [left; repeat split; [lia | exact H2] | | lia].
      right. split; [reflexivity |]. left. split; [reflexivity |].
      right. exact H2.
    + rewrite (advance_before_insert now2 st2 passes2 H2).
      destruct st2 as [| | a]; cbn [first second table progress] in *;
        [left; repeat split; [exact H1 | lia] | | lia].
      right. split; [reflexivity |]. right. split; [reflexivity |].
      right. exact H1.
  - right. destruct who.
    + rewrite (advance_after_insert now1 st1 passes1).
      cbn [first second table]. split; [reflexivity |].
      destruct H as [(-> & H) | (-> & H)]; [left; split; [reflexivity | exact H] |].
      right. split; [reflexivity |]. left.
      destruct H as [-> | H]; [reflexivity |].
      destruct st1 as [| | a]; [reflexivity | reflexivity |].
      simpl in H. lia.
    + rewrite (advance_after_insert now2 st2 passes2).
      cbn [first second table]. split; [reflexivity |].
      destruct H as [(-> & H) | (-> & H)];
        [| right; split; [reflexivity | exact H]].
      left. split; [reflexivity |]. left.
      destruct H as [-> | H]; [reflexivity |].
      destruct st2 as [| | a]; [reflexivity | reflexivity |].
      simpl in H. lia.
Qed.

(** A step takes its submission forward, to its answer at the latest
    with the second step, and leaves the other submission where it is. *)
Lemma advance_progress (now : Qc) (st : stage) (t : gset (Z * string)) :
  (Nat.min 2 (S (progress st)) <=
   progress (fst (advance generate_hmac validate_action_data now proof
                    user_secret st t)))%nat.
Proof.
  destruct st as [| | a]; simpl.
  - destruct (validate_action_proof generate_hmac validate_action_data t now
                proof user_secret) as [e | u]; simpl; lia.
  - destruct (insert_nonce _ _ _); simpl; lia.
  - lia.
Qed.

Lemma move_progress (who : bool) (s : race) :
  let s' := move generate_hmac validate_action_data now1 now2 proof
              user_secret who s in
  (Nat.min 2 (progress (first s) + (if who then 1 else 0)) <=
   progress (first s'))%nat /\
  (Nat.min 2 (progress (second s) + (if who then 0 else 1)) <=
   progress (second s'))%nat.
Proof.
  destruct s as [st1 st2 t]. unfold move. cbn [first second table].
  destruct who.
  - pose proof (advance_progress now1 st1 t) as H.
    destruct (advance _ _ now1 _ _ st1 t) as [st nonces'].
    cbn [first second fst] in *. split; lia.
  - pose proof (advance_progress now2 st2 t) as H.
    destruct (advance _ _ now2 _ _ st2 t) as [st nonces'].
    cbn [first second fst] in *. split; lia.
Qed.

Lemma run_one_winner (schedule : list bool) (s : race) :
  one_winner nonces (user_id proof, nonce proof) s ->
  one_winner nonces (user_id proof, nonce proof)
    (run generate_hmac validate_action_data now1 now2 proof user_secret
       schedule s).
Proof.
  revert s. induction schedule as [| who rest IH]; intros s Hs;
    [exact Hs |].
  simpl. apply IH, move_one_winner, Hs.
Qed.

Lemma run_progress (schedule : list bool) (s : race) :
  let s' := run generate_hmac validate_action_data now1 now2 proof
              user_secret schedule s in
  (Nat.min 2 (progress (first s) + steps true schedule) <=
   progress (first s'))%nat /\
  (Nat.min 2 (progress (second s) + steps false schedule) <=
   progress (second s'))%nat.
Proof.
  revert s. induction schedule as [| who rest IH]; intros s.
  - unfold steps. cbn [count_occ run]. split; lia.
  - specialize (IH (move generate_hmac validate_action_data now1 now2 proof
                      user_secret who s)).
    pose proof (move_progress who s) as Hm.
    cbn zeta in *. cbn [run].
    destruct IH as [IH1 IH2]. destruct Hm as [Hm1 Hm2].
    unfold steps in *. cbn [count_occ].
    destruct who;
      repeat match goal with
             | |- context [Bool.bool_dec ?a ?b] =>
                 destruct (Bool.bool_dec a b); try discriminate;
                 try congruence
             end; split; lia.
Qed.

(** C2: one proof submitted twice, each submission being the validation
    of the repository followed by the atomic insert-if-absent of
    section 4.1.  Let the proof pass the validation on the table as it
    is, at the time of either submission.  Then, in whatever order the
    steps of the two submissions are interleaved: a submission is
    accepted only when the pair (user, nonce) has been recorded; and
    once each submission has had its two steps, exactly one of them is
    accepted, the other is answered "Nonce already used" (ReplayedProof),
    and the table is the one it was plus that pair. *)
Theorem one_acceptance_per_nonce (schedule : list bool) :
  let final := run generate_hmac validate_action_data now1 now2 proof
                 user_secret schedule (arrived nonces) in
  (first final = accepted \/ second final = accepted ->
   (user_id proof, nonce proof) ∈ table final) /\
  ((2 <= steps true schedule)%nat -> (2 <= steps false schedule)%nat ->
   ((first final = accepted /\ second final = replayed) \/
    (first final = replayed /\ second final = accepted)) /\
   table final = {[ (user_id proof, nonce proof) ]} ∪ nonces).
Proof.
  intros final.
  assert (Hstart : one_winner nonces (user_id proof, nonce proof)
                     (arrived nonces)).
  { left. simpl. repeat split; lia. }
  pose proof (run_one_winner schedule _ Hstart) as Hinv.
  pose proof (run_progress schedule (arrived nonces)) as Hprog.
  fold final in Hinv. cbn zeta in Hprog. fold final in Hprog.
  cbn [arrived first second progress] in Hprog.
  destruct Hprog as [Hp1 Hp2].
  split.
  - intros Hacc. destruct Hinv as [(_ & H1 & H2) | (Ht & _)];
      [| rewrite Ht; apply elem_of_union_l, elem_of_singleton; reflexivity].
    exfalso. destruct Hacc as [Hacc | Hacc];
      [rewrite Hacc in H1 | rewrite Hacc in H2]; simpl in *; lia.
  - intros Hs1 Hs2.
    destruct Hinv as [(_ & H1 & H2) | (Ht & H)]; [lia |].
    split; [| exact Ht].
    destruct H as [(Ha & [Hr | Hlt]) | (Ha & [Hr | Hlt])];
      [left; auto | lia | right; auto | lia].
Qed.

End Submissions.

(** Both submissions pass the validation before either inserts: the
    second one inserts first and is accepted, the first one loses the
    insertion and is answered as a replay. *)
Lemma one_acceptance_per_nonce_witness :
  let final := run demo_hmac any_action (Qc_of_Z 1000) (Qc_of_Z 1001)
                 (puzzle_proof (Qc_of_Z 1000)) "s3cret"
                 [true; false; false; true] (arrived ∅) in
  ((first final = accepted /\ second final = replayed) \/
   (first final = replayed /\ second final = accepted)) /\
  table final = {[ (7, "n1"%string) ]} ∪ ∅.
Proof.
  refine (proj2 (one_acceptance_per_nonce demo_hmac any_action ∅
                   (Qc_of_Z 1000) (Qc_of_Z 1001)
                   (puzzle_proof (Qc_of_Z 1000)) "s3cret" _ _
                   [true; false; false; true]) _ _);
    try (vm_compute; reflexivity); unfold steps; simpl; lia.
Defined.

(** The interleaving of the witness, step by step. *)
Example losing_insert_is_a_replay :
  let final := run demo_hmac any_action (Qc_of_Z 1000) (Qc_of_Z 1001)
                 (puzzle_proof (Qc_of_Z 1000)) "s3cret"
                 [true; false; false; true] (arrived ∅) in
  first final = replayed /\ second final = accepted.
Proof. vm_compute. split; reflexivity. Qed.

(** Once the pair is in the table the check does reject. *)
Example recorded_nonce_rejected :
  validate_action_proof demo_hmac any_action {[ (7, "n1"%string) ]}
    (Qc_of_Z 1000) (puzzle_proof (Qc_of_Z 1000)) "s3cret" =
  inl NonceAlreadyUsed.
Proof. vm_compute. reflexivity. Qed.

End ReplayFacts.

Module LeaderboardCacheFacts.
Import LeaderboardCache Scenarios.
Local Open Scope Qc_scope.

Lemma populate_all_snoc (c : cache) (calls : list (Qc * snapshot)) (now : Qc)
      (s : snapshot) :
  populate_all c (calls ++ [(now, s)]) = Populate (populate_all c calls) now s.
Proof. unfold populate_all. rewrite foldl_app. reflexivity. Qed.

Lemma regression_iff (c : cache) (now : Qc) (s : snapshot) :
  generation_never_regresses c now s <->
  (forall g, stored_generation c = Some g -> (g <= generation s)%nat).
Proof.
  unfold generation_never_regresses. simpl. split.
  - intros H g Hg. apply (H g (generation s) Hg). reflexivity.
  - intros H g g' Hg Hg'. injection Hg' as <-. apply H, Hg.
Qed.

(** C8, as the specification states it, fails: SET replaces the value
    whatever its generation, so a late Populate of generation 1 replaces
    the cached generation 2. *)
Lemma populate_regresses :
  ~ generation_never_regresses newer_cached (Qc_of_Z 1) older_snapshot.
Proof.
  intros H. specialize (H 2%nat 1%nat eq_refl eq_refl). lia.
Qed.

(** C8 (amended): Populate replaces the cached snapshot unconditionally:
    after any sequence of Populate calls the cache holds the snapshot of
    the last call, with its generation, readable until its TTL expires
    (last writer wins); the stored generation does not decrease exactly
    when the incoming generation is not lower than the stored one. *)
Theorem populate_last_writer_wins (c : cache) (calls : list (Qc * snapshot))
        (now : Qc) (s : snapshot) :
  populate_all c (calls ++ [(now, s)]) = Some (s, now + LEADERBOARD_TTL) /\
  stored_generation (populate_all c (calls ++ [(now, s)])) =
    Some (generation s) /\
  (forall later, later < now + LEADERBOARD_TTL ->
                 Get (populate_all c (calls ++ [(now, s)])) later = Some s) /\
  (generation_never_regresses (populate_all c calls) now s <->
   forall g, stored_generation (populate_all c calls) = Some g ->
             (g <= generation s)%nat).
Proof.
  rewrite populate_all_snoc. unfold Populate.
  split; [reflexivity |]. split; [reflexivity |]. split.
  - intros later Hlater. simpl. rewrite decide_True by exact Hlater.
    reflexivity.
  - apply regression_iff.
Qed.

End LeaderboardCacheFacts.

Module CoordinatorFacts.
Import ScoreStore TokenBucket RateLimitMiddleware ProofVerifier LeaderboardCache.
Import Coordinator ScoreStoreFacts ProofVerifierFacts.
Local Open Scope Qc_scope.





Section Handler.

Variable generate_hmac : action_proof -> string -> string.
Variable validate_action_data : string -> string -> bool.
Variable limits : layers.

Local Abbreviation handle :=
  (handle_score_update generate_hmac validate_action_data limits).

Lemma failed_stages (seen : list stage) (kind : error_kind) (st : system) :
  Applied ∉ seen -> Applied ∉ stages (fail seen kind st).
Proof.
  intros Hseen. unfold fail. simpl. rewrite elem_of_app.
  intros [H | H]; [exact (Hseen H) |].
  apply elem_of_cons in H. destruct H as [H | H]; [discriminate H |].
  apply elem_of_cons in H. destruct H as [H | H]; [discriminate H |].
  apply elem_of_nil in H. exact H.
Qed.

Ltac not_applied :=
  apply failed_stages; rewrite ?elem_of_cons, elem_of_nil;
  intuition discriminate.

(** A request that fails leaves the store, the cache and the subscribers
    as they were, and never got as far as [Applied]. *)
Lemma failure_has_no_effect (env : environment) (st : system) (now : Qc)
      (req : request) (kind : error_kind) :
  reply (handle env st now req) = Failure kind ->
  (Applied ∉ stages (handle env st now req)) /\
  db (final (handle env st now req)) = db st /\
  broadcasts (final (handle env st now req)) = broadcasts st /\
  leaderboard_cache (final (handle env st now req)) = leaderboard_cache st.
Proof.
  unfold handle_score_update.
  destruct (token_identity env) as [uid |];
    [| intros _; split; [not_applied | repeat split]].
  destruct (rate_limit_middleware limits (rate_limits st) now (ip_address req)
              (str uid) (action_type (proof req))) as [verdict redis].
  destruct verdict as [| msg retry_after];
    [| intros _; split; [not_applied | repeat split]].
  destruct (validate_action_proof generate_hmac validate_action_data
              (action_nonces (db (with_rate_limits st redis))) now (proof req)
              (user_secret env)) as [e | []];
    [intros _; split; [not_applied | repeat split] |].
  destruct (apply_with_retry MAX_RETRIES (commit_conflicts env)
              (db (with_rate_limits st redis)) uid
              (expected_points (proof req)) (action_type (proof req)) now)
    as [[new_score | | |] d];
    [discriminate | | |]; intros _; (split; [not_applied | repeat split]).
Qed.




(** C3: the validation answers "Timestamp too old" exactly when
    |now - proof.timestamp| exceeds 30 seconds, in the past or in the
    future; a request carrying such a proof is answered with a failure (the
    stale-proof failure once authentication and rate limiting have passed),
    changes no score and is not broadcast. *)
Theorem stale_proof_rejected (env : environment) (st : system) (now : Qc)
        (req : request) :
  (forall nonces secret,
      validate_action_proof generate_hmac validate_action_data nonces now
        (proof req) secret = inl TimestampTooOld <->
      Qc_of_Z 30 < Qc_abs (now - timestamp (proof req))) /\
  (Qc_of_Z 30 < Qc_abs (now - timestamp (proof req)) <->
   Qc_of_Z 30 < now - timestamp (proof req) \/
   Qc_of_Z 30 < timestamp (proof req) - now) /\
  (Qc_of_Z 30 < Qc_abs (now - timestamp (proof req)) ->
   (exists kind, reply (handle env st now req) = Failure kind) /\
   db (final (handle env st now req)) = db st /\
   broadcasts (final (handle env st now req)) = broadcasts st /\
   (forall uid redis,
       token_identity env = Some uid ->
       rate_limit_middleware limits (rate_limits st) now (ip_address req)
         (str uid) (action_type (proof req)) = (Passed, redis) ->
       reply (handle env st now req) = Failure (InvalidProof TimestampTooOld))).
Proof.
  split; [intros nonces secret; apply stale_iff |].
  split; [apply Qc_abs_gt; vm_compute; discriminate |].
  intros Hstale.
  assert (Hreject : forall nonces secret,
             validate_action_proof generate_hmac validate_action_data nonces
               now (proof req) secret = inl TimestampTooOld)
    by (intros; apply stale_iff; exact Hstale).
  assert (Hfail : exists kind, reply (handle env st now req) = Failure kind).
  { unfold handle_score_update.
    destruct (token_identity env) as [uid |]; [| eexists; reflexivity].
    destruct (rate_limit_middleware limits (rate_limits st) now
                (ip_address req) (str uid) (action_type (proof req)))
      as [[| msg retry_after] redis]; [| eexists; reflexivity].
    rewrite Hreject. eexists; reflexivity. }
  split; [exact Hfail |]. destruct Hfail as [kind Hkind].
  destruct (failure_has_no_effect env st now req kind Hkind)
    as (_ & Hdb & Hbroadcast & _).
  split; [exact Hdb |]. split; [exact Hbroadcast |].
  intros uid redis Htoken Hpassed. unfold handle_score_update.
  rewrite Htoken, Hpassed, Hreject. reflexivity.
Qed.

End Handler.

Import Scenarios CoordinatorScenarios.

(** The scenarios of the specification: 45 seconds in the past is stale,
    so is 45 seconds in the future; 30 seconds is still fresh. *)
Example staleness_scenarios :
  validate_action_proof demo_hmac any_action ∅ (Qc_of_Z 1000)
    (puzzle_proof (Qc_of_Z 955)) "s3cret" = inl TimestampTooOld /\
  validate_action_proof demo_hmac any_action ∅ (Qc_of_Z 1000)
    (puzzle_proof (Qc_of_Z 1045)) "s3cret" = inl TimestampTooOld /\
  validate_action_proof demo_hmac any_action ∅ (Qc_of_Z 1000)
    (puzzle_proof (Qc_of_Z 970)) "s3cret" = inr tt.
Proof. repeat split; vm_compute; reflexivity. Qed.

(** Identity 7 at score 100 submits the puzzle proof while the cache and
    the hub are down: the reply is success with the new score 150 and
    rank 1, and both failures are logged. *)
Example downstream_outage :
  let r := handle_score_update demo_hmac any_action demo_layers outage
             scoreboard (Qc_of_Z 1000)
             {| ip_address := "10.0.0.1";
                proof := puzzle_proof (Qc_of_Z 1000) |} in
  reply r = Success 150 (Some 1%nat) 50 /\
  score_of (db (final r)) 7 = 150%Z /\
  telemetry (final r) =
    ["DownstreamUnavailable: cache"; "DownstreamUnavailable: broadcast"] /\
  stages r = [Received; Authenticated; ProofChecked; Applied; Responded].
Proof. vm_compute. repeat split; reflexivity. Qed.

End CoordinatorFacts.

(* ===================================================================== *)
(** * Further properties of the code *)
(* ===================================================================== *)

Module SumToNBeyond.
Import JSNumber SumToN JSNumberFacts SumToNFacts.

(** X1: on a negative input the formula does not return 0 like the loop
    and the recursion: [sum_to_n_b n] is the sum up to [- n - 1], which is
    positive from [n = -2] down. *)
Theorem sum_to_n_b_negative (n : Z) (fuel stack : nat) :
  n < -1 -> closed_form (- n - 1) <= MAX_SAFE_INTEGER ->
  sum_to_n_b n = closed_form (- n - 1) /\
  0 < sum_to_n_b n /\
  sum_to_n_a (S fuel) n = Some 0 /\
  sum_to_n_c (S stack) n = Some 0.
Proof.
  unfold MAX_SAFE_INTEGER. intros Hn Hsafe.
  pose proof (closed_form_ge (- n - 1) ltac:(lia)) as Hge.
  pose proof (closed_form_double (- n - 1)) as Hd.
  assert (Hb : sum_to_n_b n = closed_form (- n - 1)).
  { rewrite <- (sum_to_n_b_exact (- n - 1)) by lia.
    unfold sum_to_n_b, js_mul, js_add.
    rewrite (round_exact (n + 1)) by lia.
    rewrite (round_exact (- n - 1 + 1)) by lia.
    do 2 f_equal. lia. }
  split; [exact Hb |]. split; [rewrite Hb; nia |].
  split; [apply sum_to_n_a_negative | apply sum_to_n_c_negative]; lia.
Qed.

Lemma sum_to_n_b_negative_witness :
  sum_to_n_b (-5) = closed_form (- (-5) - 1) /\
  0 < sum_to_n_b (-5) /\
  sum_to_n_a 1 (-5) = Some 0 /\
  sum_to_n_c 1 (-5) = Some 0.
Proof.
  apply (sum_to_n_b_negative (-5) 0 0).
  - lia.
  - vm_compute. discriminate.
Defined.

(** X2: within the safe range the recursion answers exactly when the
    engine has room for more than [n] frames; with [n] frames or fewer it
    ends in the RangeError. *)
Theorem sum_to_n_c_needs_stack (n : Z) (stack : nat) :
  0 <= n -> closed_form n <= MAX_SAFE_INTEGER ->
  (sum_to_n_c stack n = None <-> Z.of_nat stack <= n) /\
  (sum_to_n_c stack n = Some (closed_form n) <-> n < Z.of_nat stack).
Proof.
  unfold MAX_SAFE_INTEGER. intros Hn Hsafe.
  assert (Hover : forall k m, 0 <= m -> closed_form m <= 2 ^ 53 ->
                              Z.of_nat k <= m -> sum_to_n_c k m = None).
  { induction k as [| k IH]; intros m Hm Hcf Hk; [reflexivity |].
    simpl. destruct (Z.leb_spec m 0) as [? | Hpos]; [lia |].
    pose proof (closed_form_ge m Hm) as Hge.
    assert (Hsub : js_sub m 1 = m - 1)
      by (unfold js_sub; apply round_exact; lia).
    rewrite Hsub, IH; [reflexivity | lia | | lia].
    pose proof (closed_form_mono (m - 1) m ltac:(lia)). lia. }
  destruct (Z.le_gt_cases (Z.of_nat stack) n) as [Hle | Hgt].
  - rewrite (Hover stack n Hn ltac:(lia) Hle).
    split; split; try discriminate; try lia; auto.
  - rewrite (sum_to_n_c_exact stack n Hn ltac:(lia) ltac:(lia)).
    split; split; try discriminate; try lia; auto.
Qed.

Lemma sum_to_n_c_needs_stack_witness :
  (sum_to_n_c 3 5 = None <-> Z.of_nat 3 <= 5) /\
  (sum_to_n_c 3 5 = Some (closed_form 5) <-> 5 < Z.of_nat 3).
Proof.
  apply (sum_to_n_c_needs_stack 5 3).
  - lia.
  - vm_compute. discriminate.
Defined.

Lemma loop_a_stuck (n : Z) (fuel : nat) :
  2 ^ 53 <= n ->
  forall i sum, 1 <= i <= 2 ^ 53 -> loop_a fuel n i sum = None.
Proof.
  intros Hn. induction fuel as [| fuel IH]; intros i sum Hi; [reflexivity |].
  rewrite loop_a_unfold.
  destruct (Z.leb_spec i n) as [_ | ?]; [| lia].
  apply IH. unfold js_add.
  destruct (Z.eq_dec i (2 ^ 53)) as [-> | Hne].
  - vm_compute. split; discriminate.
  - rewrite round_exact by lia. lia.
Qed.

(** X3: from 2^53 on the loop never returns: its counter reaches 2^53,
    where [i++] rounds back to 2^53, and the test [i <= n] stays true.
    Whatever the number of loop tests granted, no result comes. *)
Theorem sum_to_n_a_diverges (n : Z) (fuel : nat) :
  2 ^ 53 <= n -> sum_to_n_a fuel n = None.
Proof.
  intros Hn. unfold sum_to_n_a. apply loop_a_stuck; [exact Hn |].
  split; [lia | vm_compute; discriminate].
Qed.

Lemma sum_to_n_a_diverges_witness :
  sum_to_n_a 1000 (MAX_SAFE_INTEGER + 1) = None.
Proof.
  apply sum_to_n_a_diverges. vm_compute. discriminate.
Defined.

End SumToNBeyond.

(** Linear arithmetic on canonical rationals, through the rationals. *)
Lemma Qc_eq_Qeq (a b : Qc) : a = b <-> (this a == this b)%Q.
Proof. split; [intros ->; reflexivity | apply Qc_is_canon]. Qed.

Ltac qc_lra :=
  repeat match goal with
         | H : @eq Qc _ _ |- _ => apply Qc_eq_Qeq in H
         | H : ~ (@eq Qc _ _) |- _ => rewrite Qc_eq_Qeq in H
         end;
  try apply Qc_is_canon;
  unfold Qc_of_Z, Qcle, Qclt, Qcminus, Qcdiv, Qcplus, Qcmult, Qcopp, Q2Qc,
    inject_Z in *;
  cbn [this] in *;
  repeat match goal with
         | H : context [Qred ?q] |- _ => rewrite (Qred_correct q) in H
         | |- context [Qred ?q] => rewrite (Qred_correct q)
         end;
  lra.

Module RateLimiterBeyond.
Import Binary64 Binary64Facts FloatFacts RateLimiter RateLimiterSpec.
Import RateLimiterFacts.
Import RateLimiterRuns RateLimiterScenarios.

(** ** The count stays between 0 and the capacity *)

Lemma refilled_range (C r t t0 now : float) (c : Z) :
  C = FNum c -> 0 <= c ->
  fle (of_Z 0) r = true -> fle (of_Z 0) t = true ->
  not_negative (fsub now t0) ->
  exists n, refilled C r t t0 now = FNum n /\ 0 <= n <= c.
Proof.
  intros -> Hc Hr Ht He. unfold refilled.
  set (sum := fadd t (fmul (fsub now t0) r)).
  assert (Hsum : not_negative sum).
  { apply fadd_not_negative; [exact Ht |].
    apply fmul_not_negative; assumption. }
  destruct (py_min_either (FNum c) sum) as [[-> Hlt] | [-> _]].
  - destruct sum as [| [] | n]; simpl in Hlt, Hsum; try discriminate.
    apply Z.ltb_lt in Hlt. exists n. split; [reflexivity | lia].
  - exists c. split; [reflexivity | lia].
Qed.

Lemma allow_binary64_range (C r t t0 now : float) :
  finite_double C = true -> fle (of_Z 0) C = true ->
  fle (of_Z 0) r = true -> fle (of_Z 0) t = true ->
  not_negative (fsub now t0) ->
  fle (of_Z 0) (tokens (snd (allow_binary64 C r t t0 now))) = true.
Proof.
  intros HC H0 Hr Ht He.
  destruct C as [| s | c]; try discriminate HC. simpl in HC, H0.
  apply Z.leb_le in H0.
  destruct (refilled_range (FNum c) r t t0 now c eq_refl H0 Hr Ht He)
    as (n & Hn & Hrange).
  unfold allow_binary64. rewrite Hn.
  destruct (fle (of_Z 1) (FNum n)) eqn:Hone; cbn [snd tokens].
  - rewrite of_Z_1 in Hone. simpl in Hone. apply Z.leb_le in Hone.
    destruct (fsub_one_range n c HC ltac:(lia)) as (m & -> & Hm).
    simpl. apply Z.leb_le. lia.
  - simpl. apply Z.leb_le. lia.
Qed.

Lemma allow_binary64_shape (C r t t0 now : float) :
  {| tokens := tokens (snd (allow_binary64 C r t t0 now));
     last_refill := now |} = snd (allow_binary64 C r t t0 now).
Proof. unfold allow_binary64. destruct (fle _ _); reflexivity. Qed.

(** X4: whatever [time.time()] returns, when the capacity is a finite
    double that is not negative, the refill rate is not negative, and the
    stored bucket (if one is alive) holds a count that is not negative
    and a refill time that is not later than now, one call of
    [is_allowed] leaves a count between 0 and the capacity, and stores it
    with last_refill = now. *)
Theorem tokens_stay_in_range (self : TokenBucketRateLimiter)
        (redis : gmap string entry) (clock : Qc) (now : float)
        (key : string) :
  finite_double (bucket_size self) = true ->
  fle (of_Z 0) (bucket_size self) = true ->
  fle (of_Z 0) (refill_rate self) = true ->
  (forall b, redis_get redis clock (bucket_key key) = Some b ->
             fle (of_Z 0) (tokens b) = true /\
             fle (last_refill b) now = true) ->
  let result := is_allowed self redis clock now key (of_Z 1) in
  fle (of_Z 0) (snd (fst result)) = true /\
  fle (snd (fst result)) (bucket_size self) = true /\
  redis_get (snd result) clock (bucket_key key) =
    Some {| tokens := snd (fst result); last_refill := now |}.
Proof.
  intros HC H0 Hr Hstored result. subst result.
  destruct (redis_get redis clock (bucket_key key)) as [[t t0] |] eqn:Hget.
  - destruct (Hstored _ eq_refl) as [Ht Ht0]. cbn [tokens last_refill] in *.
    rewrite (is_allowed_stored self redis clock now key t t0 Hget).
    cbn [fst snd]. split; [| split].
    + apply allow_binary64_range; try assumption.
      apply fsub_not_negative, Ht0.
    + apply allow_binary64_bounded, HC.
    + rewrite redis_get_after_setex. symmetry. f_equal. apply allow_binary64_shape.
  - rewrite (is_allowed_fresh self redis clock now key Hget).
    cbn [fst snd]. split; [| split].
    + apply allow_binary64_range; try assumption.
      apply fsub_self_not_negative.
    + apply allow_binary64_bounded, HC.
    + rewrite redis_get_after_setex. symmetry. f_equal. apply allow_binary64_shape.
Qed.

Lemma tokens_stay_in_range_witness :
  fle (of_Z 0)
      (snd (fst (is_allowed ten_a_minute half_full 0 (of_Z 2) "user:7"
                   (of_Z 1)))) = true.
Proof.
  apply (tokens_stay_in_range ten_a_minute half_full 0%Qc (of_Z 2) "user:7").
  - vm_compute; reflexivity.
  - vm_compute; reflexivity.
  - vm_compute; reflexivity.
  - intros b Hb.
    assert (Hget : redis_get half_full 0%Qc (bucket_key "user:7") =
                   Some {| tokens := FNum (2 ^ 1073); last_refill := of_Z 0 |})
      by (vm_compute; reflexivity).
    rewrite Hget in Hb. injection Hb as <-.
    split; vm_compute; reflexivity.
Defined.

(** ** A burst on a full bucket *)

Lemma of_Z_units (j : Z) : of_Z j = FNum (j * one_unit).
Proof. reflexivity. Qed.

Lemma round53_level (j : Z) :
  0 <= j <= 2 ^ 53 -> round53 0 (j * one_unit) = j * one_unit.
Proof.
  intros Hj. apply (round53_exact j 1074); lia.
Qed.

Lemma level_small (j : Z) :
  0 <= j <= 2 ^ 53 -> Z.abs (j * one_unit) < overflow_threshold.
Proof.
  intros Hj. pose proof one_unit_pos.
  assert (2 ^ 53 * one_unit < overflow_threshold) by reflexivity.
  rewrite Z.abs_eq by nia. nia.
Qed.

Lemma round53_1074_0 : round53 1074 0 = 0.
Proof. reflexivity. Qed.

(** At the instant of the last refill nothing is added. *)
Lemma nothing_added (rho now : Z) :
  fmul (fsub (FNum now) (FNum now)) (FNum rho) = FNum 0.
Proof.
  unfold fsub. simpl. rewrite Z.add_opp_diag_r, round53_0 by lia.
  simpl. reflexivity.
Qed.

Lemma allow_binary64_level (k j rho now : Z) :
  0 <= j <= k -> k <= 2 ^ 53 ->
  allow_binary64 (of_Z k) (FNum rho) (of_Z j) (FNum now) (FNum now) =
  if 1 <=? j
  then (true, {| tokens := of_Z (j - 1); last_refill := FNum now |})
  else (false, {| tokens := of_Z j; last_refill := FNum now |}).
Proof.
  intros Hj Hk. pose proof one_unit_pos as Hone.
  assert (Href : refilled (of_Z k) (FNum rho) (of_Z j) (FNum now) (FNum now)
                 = of_Z j).
  { unfold refilled. rewrite nothing_added. rewrite !of_Z_units.
    cbn [fadd]. rewrite Z.add_0_r, round53_level by lia.
    rewrite overflow_small by (apply level_small; lia).
    unfold py_min. cbn [flt].
    destruct (Z.ltb_spec (j * one_unit) (k * one_unit)); [reflexivity |].
    f_equal. nia. }
  unfold allow_binary64. rewrite Href. rewrite !of_Z_units. cbn [fle].
  destruct (Z.leb_spec 1 j), (Z.leb_spec (1 * one_unit) (j * one_unit));
    try nia; [| reflexivity].
  f_equal. f_equal. unfold fsub. cbn [fopp fadd].
  replace (j * one_unit + - (1 * one_unit)) with ((j - 1) * one_unit) by ring.
  rewrite round53_level by lia.
  apply overflow_small, level_small. lia.
Qed.

Lemma burst_empty (self : TokenBucketRateLimiter) (k rho now : Z)
      (clock : Qc) (key : string) (m : nat) :
  0 <= k <= 2 ^ 53 ->
  bucket_size self = of_Z k -> refill_rate self = FNum rho ->
  forall redis,
    redis_get redis clock (bucket_key key) =
      Some {| tokens := of_Z 0; last_refill := FNum now |} ->
    fst (burst self redis clock (FNum now) key m) = replicate m false.
Proof.
  intros Hk HC Hr. induction m as [| m IH]; intros redis Hget;
    [reflexivity |].
  cbn [burst].
  rewrite (is_allowed_stored self redis clock (FNum now) key _ _ Hget).
  rewrite HC, Hr, (allow_binary64_level k 0 rho now) by lia.
  cbn [Z.leb fst snd tokens].
  specialize (IH (redis_setex redis clock (bucket_key key) ttl
                    {| tokens := of_Z 0; last_refill := FNum now |})
                 (redis_get_after_setex _ _ _ _)).
  destruct (burst self _ clock (FNum now) key m) as [rest redis2].
  cbn [fst] in *. rewrite IH. reflexivity.
Qed.

Lemma burst_from_level (self : TokenBucketRateLimiter) (k rho now : Z)
      (clock : Qc) (key : string) (m : nat) :
  0 <= k <= 2 ^ 53 ->
  bucket_size self = of_Z k -> refill_rate self = FNum rho ->
  forall (j : nat) redis,
    Z.of_nat j <= k ->
    redis_get redis clock (bucket_key key) =
      Some {| tokens := of_Z (Z.of_nat j); last_refill := FNum now |} ->
    fst (burst self redis clock (FNum now) key (j + m)) =
    replicate j true ++ replicate m false.
Proof.
  intros Hk HC Hr. induction j as [| j IH]; intros redis Hj Hget.
  - apply (burst_empty self k rho now clock key m Hk HC Hr redis Hget).
  - cbn [Nat.add burst].
    rewrite (is_allowed_stored self redis clock (FNum now) key _ _ Hget).
    rewrite HC, Hr, (allow_binary64_level k (Z.of_nat (S j)) rho now) by lia.
    destruct (Z.leb_spec 1 (Z.of_nat (S j))); [| lia].
    cbn [fst snd tokens].
    replace (Z.of_nat (S j) - 1) with (Z.of_nat j) by lia.
    specialize (IH (redis_setex redis clock (bucket_key key) ttl
                      {| tokens := of_Z (Z.of_nat j);
                         last_refill := FNum now |})
                   ltac:(lia) (redis_get_after_setex _ _ _ _)).
    destruct (burst self _ clock (FNum now) key (j + m)) as [rest redis2].
    cbn [fst] in *. rewrite IH. reflexivity.
Qed.

(** X5: a limiter whose capacity is the integer k, 1 <= k <= 2^53, with
    any finite refill rate, called k + m times at one instant on a key
    that has no live bucket, grants the first k calls and refuses the m
    that follow. *)
Theorem burst_exhausts (self : TokenBucketRateLimiter)
        (redis : gmap string entry) (clock : Qc) (rho now : Z)
        (key : string) (k m : nat) :
  (1 <= k)%nat -> Z.of_nat k <= 2 ^ 53 ->
  bucket_size self = of_Z (Z.of_nat k) ->
  refill_rate self = FNum rho ->
  redis_get redis clock (bucket_key key) = None ->
  fst (burst self redis clock (FNum now) key (k + m)) =
  replicate k true ++ replicate m false.
Proof.
  intros Hk1 Hk HC Hr Hget.
  destruct k as [| k]; [lia |].
  cbn [Nat.add burst].
  rewrite (is_allowed_fresh self redis clock (FNum now) key Hget).
  rewrite HC, Hr,
    (allow_binary64_level (Z.of_nat (S k)) (Z.of_nat (S k)) rho now) by lia.
  destruct (Z.leb_spec 1 (Z.of_nat (S k))); [| lia].
  cbn [fst snd tokens].
  replace (Z.of_nat (S k) - 1) with (Z.of_nat k) by lia.
  pose proof (burst_from_level self (Z.of_nat (S k)) rho now clock key m
                ltac:(lia) HC Hr k
                (redis_setex redis clock (bucket_key key) ttl
                   {| tokens := of_Z (Z.of_nat k); last_refill := FNum now |})
                ltac:(lia) (redis_get_after_setex _ _ _ _)) as IH.
  destruct (burst self _ clock (FNum now) key (k + m)) as [rest redis2].
  cbn [fst] in *. rewrite IH. reflexivity.
Qed.

Lemma burst_exhausts_witness :
  fst (burst ten_a_minute ∅ 0%Qc (of_Z 5) "user:7" (10 + 2)) =
  replicate 10 true ++ replicate 2 false.
Proof.
  apply (burst_exhausts ten_a_minute ∅ 0%Qc
           (6004799503160661 * 2 ^ 1019) (5 * one_unit) "user:7" 10 2);
    try reflexivity; lia.
Defined.

(** ** Waiting longer *)

Lemma fsub_mono (a b t0 : Z) :
  a <= b -> fle (fsub (FNum a) (FNum t0)) (fsub (FNum b) (FNum t0)) = true.
Proof.
  intros H. unfold fsub. cbn [fopp fadd].
  apply overflow_mono, round53_mono; lia.
Qed.

Lemma fmul_mono (e1 e2 : float) (rho : Z) :
  0 <= rho -> not_negative e1 -> fle e1 e2 = true ->
  below_or_nan (fmul e1 (FNum rho)) (fmul e2 (FNum rho)).
Proof.
  intros Hrho Hpos Hle. unfold below_or_nan.
  destruct e1 as [| [] | a], e2 as [| [] | b]; simpl in *;
    try discriminate; auto.
  - destruct (Z.eqb_spec rho 0); [left; reflexivity | right].
    destruct (Z.ltb_spec rho 0); [lia | reflexivity].
  - destruct (Z.eqb_spec rho 0); [left; reflexivity | right].
    destruct (Z.ltb_spec rho 0); [lia |]. cbn [xorb].
    unfold overflow. destruct (_ <=? _); [| reflexivity].
    simpl. destruct (_ <? _); reflexivity.
  - right. apply Z.leb_le in Hle.
    apply overflow_mono, round53_mono; [lia | nia].
Qed.

Lemma fadd_mono (t : Z) (a1 a2 : float) :
  below_or_nan a1 a2 ->
  below_or_nan (fadd (FNum t) a1) (fadd (FNum t) a2).
Proof.
  unfold below_or_nan. intros [-> | Hle]; [left; reflexivity | right].
  destruct a1 as [| [] | a], a2 as [| [] | b]; simpl in *;
    try discriminate; try reflexivity.
  - unfold overflow. destruct (_ <=? _); reflexivity.
  - unfold overflow. destruct (_ <=? _); [| reflexivity].
    simpl. destruct (_ <? _); reflexivity.
  - apply Z.leb_le in Hle. apply overflow_mono, round53_mono; lia.
Qed.

Lemma granted_mono (C s1 s2 : float) :
  below_or_nan s1 s2 ->
  fle (of_Z 1) (py_min C s1) = true -> fle (of_Z 1) (py_min C s2) = true.
Proof.
  intros Hs H1.
  assert (HC : fle (of_Z 1) C = true).
  { destruct (py_min_either C s1) as [[E Hlt] | [E _]]; rewrite E in H1;
      [| exact H1].
    apply (fle_trans _ s1); [exact H1 | apply flt_fle, Hlt]. }
  destruct (py_min_either C s2) as [[E2 Hlt2] | [E2 _]]; rewrite E2;
    [| exact HC].
  destruct Hs as [-> | Hle]; [discriminate Hlt2 |].
  destruct (py_min_either C s1) as [[E1 Hlt1] | [E1 Hge1]]; rewrite E1 in H1.
  - apply (fle_trans _ s1); assumption.
  - exfalso. apply (flt_irrefl_le C s2); [| exact Hlt2].
    apply (fle_trans _ s1); [| exact Hle].
    apply fle_total; [apply (fle_not_nan_l _ _ Hle) | | exact Hge1].
    apply (flt_not_nan_r _ _ Hlt2).
Qed.

(** X6: on a stored bucket with a finite count and refill time, and a
    finite refill rate that is not negative, waiting longer never loses
    a grant: if a call at time [later1] would be granted, so is a call at
    any time [later2] after it (while the bucket is alive), although
    each step of the refill rounds. *)
Theorem waiting_longer_never_hurts (self : TokenBucketRateLimiter)
        (redis : gmap string entry) (clock1 clock2 : Qc) (key : string)
        (rho t t0 later1 later2 : Z) :
  redis_get redis clock1 (bucket_key key) =
    Some {| tokens := FNum t; last_refill := FNum t0 |} ->
  redis_get redis clock2 (bucket_key key) =
    Some {| tokens := FNum t; last_refill := FNum t0 |} ->
  refill_rate self = FNum rho -> 0 <= rho ->
  t0 <= later1 <= later2 ->
  fst (fst (is_allowed self redis clock1 (FNum later1) key (of_Z 1))) = true ->
  fst (fst (is_allowed self redis clock2 (FNum later2) key (of_Z 1))) = true.
Proof.
  intros Hget1 Hget2 Hr Hrho Hlater.
  rewrite (is_allowed_stored self redis clock1 (FNum later1) key _ _ Hget1).
  rewrite (is_allowed_stored self redis clock2 (FNum later2) key _ _ Hget2).
  cbn [fst]. rewrite Hr. unfold allow_binary64, refilled.
  intros H1.
  destruct (fle (of_Z 1) (py_min (bucket_size self)
              (fadd (FNum t) (fmul (fsub (FNum later1) (FNum t0))
                                   (FNum rho))))) eqn:G1;
    [| discriminate H1].
  rewrite (granted_mono (bucket_size self) _
             (fadd (FNum t) (fmul (fsub (FNum later2) (FNum t0)) (FNum rho)))
             (fadd_mono t _ _
                (fmul_mono _ _ rho Hrho
                   (fsub_not_negative (FNum later1) (FNum t0)
                      ltac:(apply Z.leb_le; lia))
                   (fsub_mono later1 later2 t0 ltac:(lia)))) G1).
  reflexivity.
Qed.

Lemma waiting_longer_never_hurts_witness :
  fst (fst (is_allowed ten_a_minute emptied 1%Qc (of_Z 7) "user:7" (of_Z 1)))
    = true.
Proof.
  apply (waiting_longer_never_hurts ten_a_minute emptied 0%Qc 1%Qc "user:7"
           (6004799503160661 * 2 ^ 1019) 0 0 (6 * one_unit) (7 * one_unit)).
  - vm_compute; reflexivity.
  - vm_compute; reflexivity.
  - reflexivity.
  - vm_compute; discriminate.
  - vm_compute; split; discriminate.
  - vm_compute; reflexivity.
Defined.

(** ** A key without a live bucket *)

Lemma refilled_at_once (C r now : float) :
  finite_double C = true -> refilled C r C now now = C.
Proof.
  intros HC. destruct C as [| s | c]; try discriminate HC. simpl in HC.
  apply binary64_spec in HC. destruct HC as [Hfix Hfin].
  unfold refilled.
  assert (Hadd : fmul (fsub now now) r = FNaN \/
                 fmul (fsub now now) r = FNum 0).
  { destruct now as [| [] | n]; simpl; auto.
    unfold fsub. cbn [fopp fadd].
    rewrite Z.add_opp_diag_r, round53_0 by lia.
    destruct r as [| s | rho]; simpl; auto. }
  destruct Hadd as [-> | ->]; unfold py_min; cbn [fadd flt]; [reflexivity |].
  rewrite Z.add_0_r, Hfix, overflow_small by exact Hfin.
  cbn [flt]. rewrite Z.ltb_irrefl. reflexivity.
Qed.

(** X7: a key that has no live bucket (never seen, or expired) starts
    from a full bucket: when the capacity is a finite double of at least
    1, the call is granted and capacity - 1 (rounded) is stored with
    last_refill = now, whatever the refill rate and the time are. *)
Theorem idle_bucket_is_full (self : TokenBucketRateLimiter)
        (redis : gmap string entry) (clock : Qc) (now : float)
        (key : string) :
  redis_get redis clock (bucket_key key) = None ->
  finite_double (bucket_size self) = true ->
  fle (of_Z 1) (bucket_size self) = true ->
  is_allowed self redis clock now key (of_Z 1) =
  ((true, fsub (bucket_size self) (of_Z 1)),
   redis_setex redis clock (bucket_key key) ttl
     {| tokens := fsub (bucket_size self) (of_Z 1); last_refill := now |}).
Proof.
  intros Hget HC H1.
  rewrite (is_allowed_fresh self redis clock now key Hget).
  unfold allow_binary64. rewrite (refilled_at_once _ _ _ HC), H1.
  reflexivity.
Qed.

Lemma idle_bucket_is_full_witness :
  fst (is_allowed ten_a_minute expired (Qc_of_Z 7200) (of_Z 7200) "user:7"
         (of_Z 1)) = (true, of_Z 9).
Proof.
  rewrite (idle_bucket_is_full ten_a_minute expired (Qc_of_Z 7200)
             (of_Z 7200) "user:7");
    vm_compute; reflexivity.
Defined.

End RateLimiterBeyond.

Module RateLimitMiddlewareBeyond.
Import TokenBucket RateLimitMiddleware TokenBucketFacts RateLimitMiddlewareFacts.
Local Open Scope Qc_scope.

Lemma available_le_size (limiter : TokenBucketRateLimiter)
      (redis : gmap string entry) (now : Qc) (key : string) :
  available limiter redis now key <= bucket_size limiter.
Proof.
  unfold available.
  destruct (redis_get redis now (bucket_key key)) as [[t t0] |]; simpl;
    rewrite py_min_is_min; apply Qc_min_le_l.
Qed.

(** The bucket a check writes back. *)
Lemma check_layer_store (limiter : TokenBucketRateLimiter)
      (redis : gmap string entry) (now : Qc) (key : string) :
  snd (check_layer limiter redis now key) =
  redis_setex redis now (bucket_key key) ttl
    {| tokens := if decide (1 <= available limiter redis now key)
                 then available limiter redis now key - 1
                 else available limiter redis now key;
       last_refill := now |}.
Proof.
  unfold check_layer, Allow, available.
  destruct (redis_get redis now (bucket_key key)) as [[t t0] |]; simpl;
    case_decide; reflexivity.
Qed.

Lemma available_after_setex (limiter : TokenBucketRateLimiter)
      (redis : gmap string entry) (now level : Qc) (key : string) :
  level <= bucket_size limiter + 1 ->
  available limiter
    (redis_setex redis now (bucket_key key) ttl
       {| tokens := level - 1; last_refill := now |}) now key =
  level - 1.
Proof.
  intros Hle.
  assert (Hfresh : now < now + ttl) by (unfold ttl; qc_lra).
  unfold available. rewrite redis_get_setex by exact Hfresh. simpl.
  replace (level - 1 + (now - now) * refill_rate limiter) with (level - 1)
    by ring.
  destruct (py_min_cases (bucket_size limiter) (level - 1))
    as [[_ ->] | [Hge ->]]; [reflexivity |].
  apply Qcle_antisym; [exact Hge |].
  generalize dependent (bucket_size limiter). intros C Hle Hge. qc_lra.
Qed.

(** A granted check leaves its own bucket one token lower. *)
Lemma check_layer_self (limiter : TokenBucketRateLimiter)
      (redis : gmap string entry) (now : Qc) (key : string) :
  layer_fails limiter redis now key = false ->
  available limiter (snd (check_layer limiter redis now key)) now key =
  available limiter redis now key - 1.
Proof.
  intros Hpass. unfold layer_fails in Hpass.
  apply bool_decide_eq_false in Hpass. apply Qcnot_lt_le in Hpass.
  pose proof (available_le_size limiter redis now key) as Hsize.
  rewrite check_layer_store.
  destruct (decide (1 <= available limiter redis now key)) as [_ | Hn];
    [| contradiction].
  apply available_after_setex.
  generalize dependent (available limiter redis now key).
  generalize (bucket_size limiter). intros C level _ Hsize. qc_lra.
Qed.

Lemma check_layer_lookup_frame (limiter : TokenBucketRateLimiter)
      (redis : gmap string entry) (now : Qc) (key key' : string) :
  key <> key' ->
  snd (check_layer limiter redis now key) !! bucket_key key' =
  redis !! bucket_key key'.
Proof.
  intros Hne. unfold check_layer, Allow.
  destruct (redis_get redis now (bucket_key key)) as [[t t0] |]; simpl;
    case_decide; simpl; unfold redis_setex;
    apply lookup_insert_ne; intros Heq; apply Hne, bucket_key_inj, Heq.
Qed.

(** The store a denial at the third check leaves behind. *)
Lemma middleware_store_at_action (cfg : layers) (redis : gmap string entry)
      (now : Qc) (ip_address user_id action_type : string) :
  let keys := get_rate_limit_keys user_id ip_address action_type in
  let r1 := snd (check_layer (ip_limiter cfg) redis now (ip_global keys)) in
  let r2 := snd (check_layer (user_limiter cfg) r1 now (user_global keys)) in
  layer_fails (ip_limiter cfg) redis now (ip_global keys) = false ->
  layer_fails (user_limiter cfg) r1 now (user_global keys) = false ->
  layer_fails (action_limiter cfg) r2 now (user_action keys) = true ->
  snd (rate_limit_middleware cfg redis now ip_address user_id action_type) =
  snd (check_layer (action_limiter cfg) r2 now (user_action keys)).
Proof.
  intros keys r1 r2 H1 H2 H3. unfold rate_limit_middleware. fold keys.
  pose proof (check_layer_allowed (ip_limiter cfg) redis now (ip_global keys))
    as E1. rewrite H1 in E1. subst r2 r1.
  destruct (check_layer (ip_limiter cfg) redis now (ip_global keys))
    as [ok1 r1]. cbn [fst snd] in *. subst ok1. cbn [negb].
  pose proof (check_layer_allowed (user_limiter cfg) r1 now (user_global keys))
    as E2. rewrite H2 in E2.
  destruct (check_layer (user_limiter cfg) r1 now (user_global keys))
    as [ok2 r2]. cbn [fst snd] in *. subst ok2. cbn [negb].
  pose proof (check_layer_allowed (action_limiter cfg) r2 now
                (user_action keys)) as E3. rewrite H3 in E3.
  destruct (check_layer (action_limiter cfg) r2 now (user_action keys))
    as [ok3 r3]. cbn [fst snd] in *. subst ok3. reflexivity.
Qed.

(** X8: the checks are not all-or-nothing.  When the IP and the user
    checks pass and the action check fails, the request is refused with
    the action message, yet the IP and the user buckets have each lost a
    token; the bucket of the minimum-interval check, which was never
    reached, is untouched. *)
Theorem denial_keeps_earlier_charges (cfg : layers)
        (redis : gmap string entry) (now : Qc)
        (ip_address user_id action_type : string) :
  let keys := get_rate_limit_keys user_id ip_address action_type in
  let result :=
    rate_limit_middleware cfg redis now ip_address user_id action_type in
  layer_fails (ip_limiter cfg) redis now (ip_global keys) = false ->
  layer_fails (user_limiter cfg) redis now (user_global keys) = false ->
  layer_fails (action_limiter cfg) redis now (user_action keys) = true ->
  fst result = RateLimitExceeded "Action rate limit exceeded" (Qc_of_Z 30) /\
  available (ip_limiter cfg) (snd result) now (ip_global keys) =
    available (ip_limiter cfg) redis now (ip_global keys) - 1 /\
  available (user_limiter cfg) (snd result) now (user_global keys) =
    available (user_limiter cfg) redis now (user_global keys) - 1 /\
  snd result !! bucket_key (action_interval keys) =
    redis !! bucket_key (action_interval keys).
Proof.
  intros keys result H1 H2 H3. subst result.
  destruct (keys_distinct user_id ip_address action_type)
    as (H12 & H13 & H14 & H23 & H24 & H34). fold keys in H12, H13, H14, H23, H24, H34.
  split.
  { rewrite middleware_answer. unfold first_failure. fold keys.
    rewrite H1, H2, H3. reflexivity. }
  pose proof (layer_fails_frame (ip_limiter cfg) (user_limiter cfg) redis now
                _ _ H12) as F12.
  pose proof (layer_fails_frame (ip_limiter cfg) (action_limiter cfg) redis
                now _ _ H13) as F13.
  set (r1 := snd (check_layer (ip_limiter cfg) redis now (ip_global keys)))
    in *.
  pose proof (layer_fails_frame (user_limiter cfg) (action_limiter cfg) r1
                now _ _ H23) as F23.
  set (r2 := snd (check_layer (user_limiter cfg) r1 now (user_global keys)))
    in *.
  rewrite (middleware_store_at_action cfg redis now ip_address user_id
             action_type H1); fold keys; fold r1; fold r2;
    [| rewrite F12; exact H2 | rewrite F23, F13; exact H3].
  split; [| split].
  - rewrite check_layer_frame by (intros H; apply H13; symmetry; exact H).
    unfold r2.
    rewrite check_layer_frame by (intros H; apply H12; symmetry; exact H).
    apply check_layer_self, H1.
  - rewrite check_layer_frame by (intros H; apply H23; symmetry; exact H).
    unfold r2. rewrite check_layer_self by (rewrite F12; exact H2).
    unfold r1. rewrite check_layer_frame by exact H12. reflexivity.
  - rewrite check_layer_lookup_frame by exact H34. unfold r2.
    rewrite check_layer_lookup_frame by exact H24. unfold r1.
    apply check_layer_lookup_frame, H14.
Qed.

Lemma denial_keeps_earlier_charges_witness :
  fst (rate_limit_middleware Scenarios.demo_layers Scenarios.spent_redis
         (Qc_of_Z 0) "10.0.0.1" "7" "puzzle_complete") =
    RateLimitExceeded "Action rate limit exceeded" (Qc_of_Z 30).
Proof.
  refine (proj1 (denial_keeps_earlier_charges Scenarios.demo_layers
                   Scenarios.spent_redis (Qc_of_Z 0) "10.0.0.1" "7"
                   "puzzle_complete" _ _ _));
    vm_compute; reflexivity.
Defined.

Lemma app_inj_suffix (s1 s2 t : string) : s1 +:+ t = s2 +:+ t -> s1 = s2.
Proof.
  intros H.
  apply (f_equal list_ascii_of_string) in H.
  assert (Happ : forall a b,
             list_ascii_of_string (a +:+ b) =
             list_ascii_of_string a ++ list_ascii_of_string b).
  { intros a b. induction a as [| c a IH]; simpl; [reflexivity |].
    rewrite IH. reflexivity. }
  rewrite !Happ in H. apply app_inv_tail in H.
  rewrite <- (string_of_list_ascii_of_string s1),
          <- (string_of_list_ascii_of_string s2), H. reflexivity.
Qed.

(** X9: the five keys of one request are pairwise distinct, whatever the
    user id, the address and the action type, so no two layers share a
    bucket; and two users never share a global, daily or interval key, two
    addresses never share a key. *)
Theorem rate_limit_keys_separate (user_id ip_address action_type : string) :
  let keys := get_rate_limit_keys user_id ip_address action_type in
  NoDup [user_global keys; user_action keys; ip_global keys;
         user_daily keys; action_interval keys] /\
  (forall user_id' ip_address' action_type',
      let keys' := get_rate_limit_keys user_id' ip_address' action_type' in
      (user_global keys = user_global keys' -> user_id = user_id') /\
      (user_daily keys = user_daily keys' -> user_id = user_id') /\
      (action_interval keys = action_interval keys' -> user_id = user_id') /\
      (ip_global keys = ip_global keys' -> ip_address = ip_address')).
Proof.
  split.
  - repeat (apply NoDup_cons; split);
      rewrite ?elem_of_cons, ?elem_of_nil; try apply NoDup_nil_2;
      simpl; intros H; repeat destruct H as [H | H]; try exact H;
      try discriminate H;
      apply (inj (String.app "rate_limit:user:")) in H;
      apply (inj (String.app user_id)) in H; discriminate H.
  - intros user_id' ip_address' action_type'. simpl.
    repeat split; intros H.
    + apply (inj (String.app "rate_limit:user:")) in H.
      apply app_inj_suffix in H. exact H.
    + apply (inj (String.app "rate_limit:user:")) in H.
      apply app_inj_suffix in H. exact H.
    + apply (inj (String.app "rate_limit:user:")) in H.
      apply app_inj_suffix in H. exact H.
    + apply (inj (String.app "rate_limit:ip:")) in H.
      apply app_inj_suffix in H. exact H.
Qed.

End RateLimitMiddlewareBeyond.

Module ScoreStoreBeyond.
Import ScoreStore ScoreStoreSchema ScoreStoreFacts.

(** What one attempt may change in [users]: the score of its target. *)
Lemma apply_increment_users (db : database) (op : increment) (id : Z) :
  match users db !! id, users (snd (apply_increment db op)) !! id with
  | Some u, Some u' =>
      username u' = username u /\ is_active u' = is_active u /\
      (in_integer (score u) = true -> in_integer (score u') = true)
  | None, None => True
  | _, _ => False
  end.
Proof.
  destruct (apply_increment_step db op)
    as [(_ & (u & Hu & Husers) & _ & Hres) | (_ & ->)].
  - rewrite Husers. destruct (decide (target op = id)) as [<- | Hne].
    + rewrite Hu, lookup_insert_eq. simpl. repeat split; try reflexivity.
      intros _. revert Hres.
      unfold apply_increment, ApplyIncrement, score_update_transaction,
        sql_update_score. rewrite Hu.
      destruct (in_integer (score u + delta op)); [reflexivity |].
      discriminate.
    + rewrite lookup_insert_ne by exact Hne.
      destruct (users db !! id); [tauto | exact I].
  - destruct (users db !! id); [tauto | exact I].
Qed.

Lemma apply_increment_nonces (db : database) (op : increment) :
  action_nonces (snd (apply_increment db op)) = action_nonces db.
Proof.
  unfold apply_increment, ApplyIncrement, score_update_transaction,
    sql_update_score, sql_insert_history.
  destruct (users db !! target op) as [u |] eqn:Hu; simpl.
  - destruct (in_integer (score u + delta op)); [| reflexivity].
    simpl. rewrite lookup_insert_eq.
    destruct (in_integer (delta op)); [| reflexivity].
    destruct (conflict op); [reflexivity |]. simpl.
    rewrite lookup_insert_eq. reflexivity.
  - rewrite Hu. reflexivity.
Qed.

Lemma run_users (db : database) (ops : list increment) (id : Z) :
  match users db !! id, users (snd (run db ops)) !! id with
  | Some u, Some u' =>
      username u' = username u /\ is_active u' = is_active u /\
      (in_integer (score u) = true -> in_integer (score u') = true)
  | None, None => True
  | _, _ => False
  end.
Proof.
  revert db. induction ops as [| op ops IH]; intros db.
  - simpl. destruct (users db !! id); [tauto | exact I].
  - rewrite run_cons. cbn [snd].
    pose proof (apply_increment_users db op id) as H1.
    specialize (IH (snd (apply_increment db op))).
    destruct (users db !! id) as [u |],
      (users (snd (apply_increment db op)) !! id) as [u1 |],
      (users (snd (run (snd (apply_increment db op)) ops)) !! id) as [u2 |];
      try tauto.
    destruct H1 as (Hn1 & Ha1 & H1), IH as (Hn2 & Ha2 & H2).
    repeat split; [congruence | congruence | auto].
Qed.

(** X10: score updates only ever change scores.  Across any sequence of
    update attempts no user row appears or disappears, every user keeps its
    name and its active flag, and the nonce table is not written. *)
Theorem run_only_changes_scores (db : database) (ops : list increment) :
  dom (users (snd (run db ops))) = dom (users db) /\
  (forall id u',
      users (snd (run db ops)) !! id = Some u' ->
      exists u, users db !! id = Some u /\
                username u' = username u /\ is_active u' = is_active u) /\
  action_nonces (snd (run db ops)) = action_nonces db.
Proof.
  split; [| split].
  - apply set_eq. intros id. rewrite !elem_of_dom.
    pose proof (run_users db ops id) as H.
    destruct (users db !! id), (users (snd (run db ops)) !! id);
      try contradiction; split; intros [? ?]; eauto; discriminate.
  - intros id u' Hu'. pose proof (run_users db ops id) as H.
    rewrite Hu' in H. destruct (users db !! id) as [u |]; [| contradiction].
    exists u. tauto.
  - revert db. induction ops as [| op ops IH]; intros db; [reflexivity |].
    rewrite run_cons. cbn [snd]. rewrite IH. apply apply_increment_nonces.
Qed.

Lemma accepted_records (db : database) (ops : list increment) :
  Forall (fun op => in_integer (delta op) = true /\
                    is_Some (users db !! target op))
         (accepted (fst (run db ops))).
Proof.
  revert db. induction ops as [| op ops IH]; intros db; [constructor |].
  rewrite run_cons. cbn [fst]. rewrite accepted_cons.
  assert (Hrest : Forall (fun op => in_integer (delta op) = true /\
                                    is_Some (users db !! target op))
                    (accepted (fst (run (snd (apply_increment db op)) ops)))).
  { eapply Forall_impl; [apply IH |]. intros op' [Hd Hu]. split; [exact Hd |].
    pose proof (apply_increment_users db op (target op')) as H.
    destruct Hu as [u1 Hu1]. rewrite Hu1 in H.
    destruct (users db !! target op'); [eauto | contradiction]. }
  destruct (succeeded (fst (apply_increment db op))) eqn:Hok; [| exact Hrest].
  constructor; [| exact Hrest].
  revert Hok. unfold apply_increment, ApplyIncrement,
    score_update_transaction, sql_update_score, sql_insert_history.
  destruct (users db !! target op) as [u |] eqn:Hu; simpl.
  - destruct (in_integer (score u + delta op)); [| discriminate].
    simpl. rewrite lookup_insert_eq.
    destruct (in_integer (delta op)); [| discriminate]. eauto.
  - rewrite Hu. discriminate.
Qed.

(** X11: the schema's constraints are an invariant of the update path.
    If every score is an INTEGER and every history row carries an INTEGER
    delta and references a user, the same holds after any sequence of
    update attempts: an update that would leave the range is refused, no
    row is recorded for a missing user. *)
Theorem run_keeps_the_schema (db : database) (ops : list increment) :
  schema_holds db -> schema_holds (snd (run db ops)).
Proof.
  intros [Hscores Hhist]. split.
  - intros id u' Hu'. pose proof (run_users db ops id) as H.
    rewrite Hu' in H. destruct (users db !! id) as [u |] eqn:Hu;
      [| contradiction].
    apply H, (Hscores id u Hu).
  - assert (Hkeep : forall id, is_Some (users db !! id) ->
                               is_Some (users (snd (run db ops)) !! id)).
    { intros id [u Hu]. pose proof (run_users db ops id) as H.
      rewrite Hu in H.
      destruct (users (snd (run db ops)) !! id); [eauto | contradiction]. }
    rewrite run_history. apply Forall_app. split.
    + eapply Forall_impl; [exact Hhist |]. intros row [Hp Hu].
      split; [exact Hp | apply Hkeep, Hu].
    + apply Forall_fmap. eapply Forall_impl; [apply accepted_records |].
      intros op [Hd Hu]. split; [exact Hd | apply Hkeep, Hu].
Qed.

Lemma run_keeps_the_schema_witness :
  schema_holds
    (snd (run (Coordinator.db CoordinatorScenarios.scoreboard) [bonus])).
Proof.
  apply (run_keeps_the_schema
           (Coordinator.db CoordinatorScenarios.scoreboard) [bonus]).
  unfold schema_holds. apply (bool_decide_unpack _). vm_compute. reflexivity.
Defined.

End ScoreStoreBeyond.

Module RankingBeyond.
Import ScoreStore ScoreStoreFacts RankingFacts.

Lemma sorted_lookup {A : Type} (R : relation A) (l : list A) (i j : nat)
      (x y : A) :
  StronglySorted R l -> l !! i = Some x -> l !! j = Some y -> (i < j)%nat ->
  R x y.
Proof.
  intros Hs Hi Hj Hlt.
  pose proof (take_drop_middle l i x Hi) as Hsplit.
  rewrite <- Hsplit in Hs. apply StronglySorted_app_1_r in Hs.
  apply StronglySorted_inv in Hs. destruct Hs as [_ Hall].
  rewrite Forall_forall in Hall. apply Hall.
  apply list_elem_of_lookup. exists (j - S i)%nat. rewrite lookup_drop.
  replace (S i + (j - S i))%nat with j by lia. exact Hj.
Qed.

(** The rank of an identity is the 1-based index of its row in the
    ranking. *)
Lemma user_rank_lookup (db : database) (id : Z) (n : nat) :
  user_rank db id = Some n <->
  exists i u, n = S i /\ ranking db !! i = Some (id, u).
Proof.
  split.
  - intros Hr. destruct (users db !! id) as [u |] eqn:Hu.
    + destruct (is_active u) eqn:Ha.
      * assert (Hin : (id, u) ∈ ranking db) by (apply elem_of_ranking; auto).
        apply list_elem_of_split in Hin. destruct Hin as (pre & post & Hsplit).
        rewrite (user_rank_split db id u pre post Hsplit) in Hr.
        injection Hr as <-. exists (length pre), u. split; [reflexivity |].
        rewrite Hsplit. apply list_lookup_middle. reflexivity.
      * rewrite user_rank_absent in Hr; [discriminate |]. intros; congruence.
    + rewrite user_rank_absent in Hr; [discriminate |]. intros; congruence.
  - intros (i & u & -> & Hi).
    pose proof (take_drop_middle _ _ _ Hi) as Hsplit. symmetry in Hsplit.
    rewrite (user_rank_split db id u _ _ Hsplit).
    rewrite length_take_le; [reflexivity |]. apply lookup_lt_Some in Hi. lia.
Qed.

Lemma ranking_length (db : database) :
  length (ranking db) = length (active_users db).
Proof. apply Permutation_length, ranking_perm. Qed.

Lemma ranking_row (db : database) (i : nat) (id : Z) (u : user_row) :
  ranking db !! i = Some (id, u) ->
  users db !! id = Some u /\ is_active u = true.
Proof. intros Hi. apply elem_of_ranking, (list_elem_of_lookup_2 _ i), Hi. Qed.

Lemma user_rank_inj (db : database) (id id' : Z) (n : nat) :
  user_rank db id = Some n -> user_rank db id' = Some n -> id = id'.
Proof.
  intros H H'. apply user_rank_lookup in H, H'.
  destruct H as (i & u & -> & Hi), H' as (i' & u' & Heq & Hi').
  injection Heq as <-. congruence.
Qed.

(** X12: the ranks number the active users without gaps or repeats: every
    rank lies between 1 and the number of active users, every number in
    that range is the rank of some user, and no two users share a rank. *)
Theorem ranks_number_the_active_users (db : database) :
  (forall id n,
      user_rank db id = Some n ->
      (1 <= n <= length (active_users db))%nat) /\
  (forall n,
      (1 <= n <= length (active_users db))%nat ->
      exists id, user_rank db id = Some n) /\
  (forall id id' n,
      user_rank db id = Some n -> user_rank db id' = Some n -> id = id').
Proof.
  split; [| split].
  - intros id n Hr. apply user_rank_lookup in Hr.
    destruct Hr as (i & u & -> & Hi). apply lookup_lt_Some in Hi.
    rewrite ranking_length in Hi. lia.
  - intros n Hn. destruct n as [| i]; [lia |].
    destruct (lookup_lt_is_Some_2 (ranking db) i) as [[id u] Hi].
    { rewrite ranking_length. lia. }
    exists id. apply user_rank_lookup. eauto.
  - apply user_rank_inj.
Qed.

(** X13: the rank order is the score order.  Of two ranked users the one
    with the higher score has the smaller rank; on equal scores, the one
    with the smaller id. *)
Theorem better_score_better_rank (db : database) (a b : Z) (ua ub : user_row)
        (na nb : nat) :
  users db !! a = Some ua -> users db !! b = Some ub ->
  user_rank db a = Some na -> user_rank db b = Some nb ->
  ((na < nb)%nat <->
   score ub < score ua \/ (score ua = score ub /\ a < b)).
Proof.
  intros Hua Hub Hra Hrb.
  pose proof Hra as Hia. pose proof Hrb as Hib.
  apply user_rank_lookup in Hia, Hib.
  destruct Hia as (i & ua' & -> & Hi), Hib as (j & ub' & -> & Hj).
  destruct (ranking_row db i a ua' Hi) as [Hua' _].
  destruct (ranking_row db j b ub' Hj) as [Hub' _].
  assert (ua' = ua) as -> by congruence.
  assert (ub' = ub) as -> by congruence.
  pose proof (ranking_sorted db) as Hs.
  split.
  - intros Hlt. assert (Hij : (i < j)%nat) by lia.
    pose proof (sorted_lookup _ _ _ _ _ _ Hs Hi Hj Hij) as Hb.
    unfold ranks_before in Hb. simpl in Hb.
    assert (a <> b).
    { intros ->. rewrite Hra in Hrb. injection Hrb as Heq. lia. }
    lia.
  - intros Hord. destruct (lt_eq_lt_dec i j) as [[Hlt | Heq] | Hgt].
    + lia.
    + subst j. rewrite Hi in Hj. injection Hj as -> ->. lia.
    + pose proof (sorted_lookup _ _ _ _ _ _ Hs Hj Hi Hgt) as Hb.
      unfold ranks_before in Hb. simpl in Hb. lia.
Qed.

Lemma better_score_better_rank_witness :
  (1 < 2)%nat <->
  100 < 120 \/ (120 = 100 /\ 8 < 7).
Proof.
  apply (better_score_better_rank
           (Coordinator.db CoordinatorScenarios.scoreboard) 8 7
           {| username := "bea"; score := 120; is_active := true |}
           {| username := "ann"; score := 100; is_active := true |});
    vm_compute; reflexivity.
Defined.

(** X14: the leaderboard is the users of rank at most k.  It has k rows,
    or as many as there are active users if these are fewer, and a row
    (id, user, n) is on it exactly when the stored row of id is user, the
    rank of id is n, and n is at most k. *)
Theorem leaderboard_is_the_top_k (db : database) (k : nat) :
  length (leaderboard db k) = (k `min` length (active_users db))%nat /\
  (forall id u n,
      ((id, u), n) ∈ leaderboard db k <->
      users db !! id = Some u /\ user_rank db id = Some n /\ (n <= k)%nat).
Proof.
  split.
  - unfold leaderboard, ranked. rewrite take_row_number.
    rewrite <- (length_fmap fst), fst_row_number, length_take, ranking_length.
    reflexivity.
  - intros id u n. unfold leaderboard, ranked. rewrite elem_of_take. split.
    + intros (i & Hi & Hlt). rewrite row_number_lookup in Hi.
      destruct (ranking db !! i) as [row |] eqn:Hrow; [| discriminate Hi].
      simpl in Hi. injection Hi as -> <-.
      destruct (ranking_row db i id u Hrow) as [Hu _].
      split; [exact Hu |]. split; [| lia].
      apply user_rank_lookup. eauto.
    + intros (Hu & Hr & Hle). apply user_rank_lookup in Hr.
      destruct Hr as (i & u' & -> & Hi).
      destruct (ranking_row db i id u' Hi) as [Hu' _].
      assert (u' = u) as -> by congruence.
      exists i. split; [| lia]. rewrite row_number_lookup, Hi. reflexivity.
Qed.

Lemma filter_length_le {A : Type} (P Q : A -> Prop)
      `{!forall x, Decision (P x)} `{!forall x, Decision (Q x)} (l : list A) :
  (forall x, x ∈ l -> P x -> Q x) ->
  (length (filter P l) <= length (filter Q l))%nat.
Proof.
  induction l as [| x l IH]; intros Himp; [reflexivity |].
  assert (IH' : (length (filter P l) <= length (filter Q l))%nat).
  { apply IH. intros y Hy. apply Himp. right. exact Hy. }
  rewrite !filter_cons.
  destruct (decide (P x)) as [HP | HP].
  - rewrite decide_True by (apply Himp; [left | exact HP]). simpl. lia.
  - destruct (decide (Q x)); simpl; lia.
Qed.

Lemma position_among_perm (l k : list (Z * user_row)) (id : Z) (u : user_row) :
  l ≡ₚ k -> position_among l id u = position_among k id u.
Proof. intros H. unfold position_among. rewrite H. reflexivity. Qed.

(** The active rows before and after the score of [id] is replaced. *)
Lemma active_users_update (db db' : database) (id : Z) (u u' : user_row) :
  users db !! id = Some u ->
  users db' = <[id := u']> (users db) ->
  let rest :=
    filter (fun r : Z * user_row => is_active (snd r) = true)
           (map_to_list (delete id (users db))) in
  active_users db ≡ₚ (if is_active u then [(id, u)] else []) ++ rest /\
  active_users db' ≡ₚ (if is_active u' then [(id, u')] else []) ++ rest /\
  (forall r, r ∈ rest -> fst r <> id).
Proof.
  intros Hu Hdb' rest. unfold active_users. split; [| split].
  - rewrite <- (insert_delete_id (users db) id u Hu) at 1.
    rewrite map_to_list_insert by apply lookup_delete_eq.
    rewrite filter_cons. cbn [snd].
    destruct (is_active u); [rewrite decide_True by reflexivity |
                                     rewrite decide_False by discriminate];
      reflexivity.
  - rewrite Hdb', <- insert_delete_eq.
    rewrite map_to_list_insert by apply lookup_delete_eq.
    rewrite filter_cons. cbn [snd].
    destruct (is_active u'); [rewrite decide_True by reflexivity |
                                      rewrite decide_False by discriminate];
      reflexivity.
  - intros [j v] Hr. apply list_elem_of_filter in Hr. destruct Hr as [_ Hr].
    apply elem_of_map_to_list in Hr. simpl. intros ->.
    rewrite lookup_delete_eq in Hr. discriminate.
Qed.

Lemma earning_points_ranks (db : database) (op : increment) :
  0 <= delta op ->
  succeeded (fst (apply_increment db op)) = true ->
  let db' := snd (apply_increment db op) in
  (forall n, user_rank db (target op) = Some n ->
             exists n', user_rank db' (target op) = Some n' /\ (n' <= n)%nat) /\
  (forall other m,
      other <> target op -> user_rank db other = Some m ->
      exists m', user_rank db' other = Some m' /\ (m <= m' <= S m)%nat) /\
  (forall x, user_rank db x = None -> user_rank db' x = None).
Proof.
  intros Hdelta Hok db'.
  destruct (apply_increment_step db op)
    as [(_ & (u & Hu & Husers) & _ & _) | (Hko & _)];
    [| rewrite Hko in Hok; discriminate].
  fold db' in Husers.
  set (u' := {| username := username u; score := score u + delta op;
                is_active := is_active u |}) in *.
  destruct (active_users_update db db' (target op) u u' Hu Husers)
    as (Hperm & Hperm' & Hrest).
  set (rest := filter _ (map_to_list (delete (target op) (users db)))) in *.
  assert (Hu' : users db' !! target op = Some u').
  { rewrite Husers. apply lookup_insert_eq. }
  assert (Ha' : is_active u' = is_active u) by reflexivity.
  rewrite Ha' in Hperm'.
  assert (Hrank : forall d x,
             user_rank d x =
             match users d !! x with
             | Some v => if is_active v
                         then Some (position_among (active_users d) x v)
                         else None
             | None => None
             end).
  { intros d x. destruct (users d !! x) as [v |] eqn:Hv.
    - destruct (is_active v) eqn:Hact.
      + apply user_rank_active; assumption.
      + apply user_rank_absent. intros; congruence.
    - apply user_rank_absent. intros; congruence. }
  split; [| split].
  - intros n. rewrite !Hrank, Hu, Hu', Ha'.
    destruct (is_active u); [| discriminate].
    intros [= <-]. eexists. split; [reflexivity |].
    rewrite (position_among_perm _ _ _ _ Hperm),
      (position_among_perm _ _ _ _ Hperm').
    unfold position_among. simpl app. rewrite !filter_cons.
    rewrite !decide_False by (intros [_ Hne]; apply Hne; reflexivity).
    apply le_n_S, filter_length_le. intros r Hr [Hb Hne].
    split; [| exact Hne]. revert Hb. unfold ranks_before. simpl. lia.
  - intros other m Hother. rewrite !Hrank.
    rewrite Husers, lookup_insert_ne by congruence.
    destruct (users db !! other) as [v |]; [| discriminate].
    destruct (is_active v); [| discriminate].
    intros [= <-]. eexists. split; [reflexivity |].
    rewrite (position_among_perm _ _ _ _ Hperm),
      (position_among_perm _ _ _ _ Hperm').
    unfold position_among. rewrite !filter_app, !length_app.
    destruct (is_active u); [| simpl; lia].
    rewrite !filter_cons, !filter_nil.
    destruct (decide (strictly_before (target op, u) (other, v)))
      as [Hb | Hb].
    + rewrite decide_True; [simpl; lia |].
      destruct Hb as [Hb Hne]. split; [| exact Hne].
      revert Hb. unfold ranks_before. simpl. lia.
    + destruct (decide (strictly_before (target op, u') (other, v)));
        simpl; lia.
  - intros x. rewrite !Hrank. rewrite Husers.
    destruct (decide (target op = x)) as [<- | Hne].
    + rewrite lookup_insert_eq, Hu, Ha'.
      destruct (is_active u); [discriminate | reflexivity].
    + rewrite lookup_insert_ne by exact Hne.
      destruct (users db !! x) as [v |]; [| reflexivity].
      destruct (is_active v); [discriminate | reflexivity].
Qed.

(** X15: earning points never costs rank.  After a successful update by
    a non-negative delta the updated user's rank is the same or better,
    every other ranked user keeps its rank or moves down by exactly one
    place, and an unranked user stays unranked. *)
Theorem earning_points_never_costs_rank (db : database) (op : increment) :
  0 <= delta op ->
  succeeded (fst (apply_increment db op)) = true ->
  let db' := snd (apply_increment db op) in
  (forall n, user_rank db (target op) = Some n ->
             exists n', user_rank db' (target op) = Some n' /\ (n' <= n)%nat) /\
  (forall other m,
      other <> target op -> user_rank db other = Some m ->
      exists m', user_rank db' other = Some m' /\ (m <= m' <= S m)%nat) /\
  (forall x, user_rank db x = None -> user_rank db' x = None).
Proof. apply earning_points_ranks. Qed.

Lemma earning_points_never_costs_rank_witness :
  exists n',
    user_rank
      (snd (apply_increment (Coordinator.db CoordinatorScenarios.scoreboard)
              ScoreStoreSchema.bonus)) 7 = Some n' /\
    (n' <= 2)%nat.
Proof.
  refine (proj1 (earning_points_never_costs_rank
                   (Coordinator.db CoordinatorScenarios.scoreboard)
                   ScoreStoreSchema.bonus _ _) 2%nat _).
  - simpl. lia.
  - vm_compute. reflexivity.
  - vm_compute. reflexivity.
Defined.

End RankingBeyond.

Module RegexFacts.
Import Regex.

Lemma lang_Seq_inv (r1 r2 : regex) (l : list ascii) :
  lang (Seq r1 r2) l ->
  exists l1 l2, l = l1 ++ l2 /\ lang r1 l1 /\ lang r2 l2.
Proof. inversion 1; subst; eauto. Qed.

Lemma nullable_lang (r : regex) : nullable r = true <-> lang r [].
Proof.
  induction r as [| | p | r1 IH1 r2 IH2 | r1 IH1 r2 IH2 | r IH]; simpl.
  - split; [discriminate | inversion 1].
  - split; [constructor | reflexivity].
  - split; [discriminate | inversion 1].
  - rewrite andb_true_iff, IH1, IH2. split.
    + intros [H1 H2]. apply (lang_Seq r1 r2 [] []); assumption.
    + intros H. apply lang_Seq_inv in H.
      destruct H as (l1 & l2 & Heq & H1 & H2).
      destruct l1 as [| c l1]; [| discriminate Heq]. simpl in Heq.
      subst l2. auto.
  - rewrite orb_true_iff, IH1, IH2. split.
    + intros [H | H]; [apply lang_Alt_l | apply lang_Alt_r]; exact H.
    + inversion 1; auto.
  - split; [constructor | reflexivity].
Qed.

Lemma lang_Star_cons_inv (r : regex) (c : ascii) (l : list ascii) :
  lang (Star r) (c :: l) ->
  exists l1 l2, l = l1 ++ l2 /\ lang r (c :: l1) /\ lang (Star r) l2.
Proof.
  intros H. remember (Star r) as s eqn:Hs. remember (c :: l) as cl eqn:Hcl.
  revert l Hcl.
  induction H as [| | | | | | r' l1 l2 H1 _ H2 IH2]; try discriminate;
    intros l Hcl.
  injection Hs as ->. destruct l1 as [| c1 l1].
  - simpl in Hcl. apply IH2; [reflexivity | exact Hcl].
  - simpl in Hcl. injection Hcl as -> <-. eauto.
Qed.

Lemma deriv_lang (c : ascii) (r : regex) (l : list ascii) :
  lang (deriv c r) l <-> lang r (c :: l).
Proof.
  revert l.
  induction r as [| | p | r1 IH1 r2 IH2 | r1 IH1 r2 IH2 | r IH];
    intros l; simpl.
  - split; inversion 1.
  - split; inversion 1.
  - destruct (p c) eqn:Hp.
    + split; inversion 1; subst; constructor. exact Hp.
    + split; inversion 1; subst. congruence.
  - destruct (nullable r1) eqn:Hn.
    + split.
      * inversion 1 as [| | | ? ? ? H2 | ? ? ? H2 | |]; subst.
        -- apply lang_Seq_inv in H2. destruct H2 as (l1 & l2 & -> & H1 & H2).
           apply IH1 in H1. apply (lang_Seq r1 r2 (c :: l1) l2); assumption.
        -- apply IH2 in H2. apply (lang_Seq r1 r2 [] (c :: l)); [| exact H2].
           apply nullable_lang, Hn.
      * intros H. apply lang_Seq_inv in H.
        destruct H as (l1 & l2 & Heq & H1 & H2). destruct l1 as [| c1 l1].
        -- simpl in Heq. subst l2. apply lang_Alt_r, IH2, H2.
        -- injection Heq as <- ->. apply lang_Alt_l.
           apply lang_Seq; [apply IH1, H1 | exact H2].
    + split.
      * intros H. apply lang_Seq_inv in H.
        destruct H as (l1 & l2 & -> & H1 & H2). apply IH1 in H1.
        apply (lang_Seq r1 r2 (c :: l1) l2); assumption.
      * intros H. apply lang_Seq_inv in H.
        destruct H as (l1 & l2 & Heq & H1 & H2). destruct l1 as [| c1 l1].
        -- apply nullable_lang in H1. congruence.
        -- injection Heq as <- ->.
           apply lang_Seq; [apply IH1, H1 | exact H2].
  - split; inversion 1; subst;
      solve [apply lang_Alt_l, IH1; assumption
            | apply lang_Alt_r, IH2; assumption].
  - split.
    + intros H. apply lang_Seq_inv in H.
      destruct H as (l1 & l2 & -> & H1 & H2). apply IH in H1.
      apply (lang_Star_cons r (c :: l1) l2); assumption.
    + intros H. apply lang_Star_cons_inv in H.
      destruct H as (l1 & l2 & -> & H1 & H2).
      apply lang_Seq; [apply IH, H1 | exact H2].
Qed.

(** The matcher decides the language. *)
Lemma matches_lang (r : regex) (l : list ascii) :
  matches r l = true <-> lang r l.
Proof.
  revert r. induction l as [| c l IH]; intros r; simpl.
  - apply nullable_lang.
  - rewrite IH. apply deriv_lang.
Qed.

Lemma lang_Class_inv (p : ascii -> bool) (l : list ascii) :
  lang (Class p) l <-> exists c, l = [c] /\ p c = true.
Proof.
  split.
  - inversion 1; subst; eauto.
  - intros (c & -> & Hp). constructor. exact Hp.
Qed.

Lemma lang_Star_Class (p : ascii -> bool) (l : list ascii) :
  lang (Star (Class p)) l <-> Forall (fun c => p c = true) l.
Proof.
  split.
  - intros H. remember (Star (Class p)) as s eqn:Hs.
    induction H as [| | | | | | r l1 l2 H1 _ H2 IH2]; try discriminate.
    + constructor.
    + injection Hs as ->. apply lang_Class_inv in H1.
      destruct H1 as (c & -> & Hp). simpl. constructor; [exact Hp |].
      apply IH2. reflexivity.
  - induction 1 as [| c l Hp _ IH]; [constructor |].
    apply (lang_Star_cons (Class p) [c] l); [constructor; exact Hp | exact IH].
Qed.

(** [[class]+]: one or more code units of the class. *)
Lemma lang_Plus_Class (p : ascii -> bool) (l : list ascii) :
  lang (Plus (Class p)) l <-> l <> [] /\ Forall (fun c => p c = true) l.
Proof.
  unfold Plus. split.
  - intros H. apply lang_Seq_inv in H. destruct H as (l1 & l2 & -> & H1 & H2).
    apply lang_Class_inv in H1. destruct H1 as (c & -> & Hp).
    apply lang_Star_Class in H2. split; [discriminate |].
    constructor; assumption.
  - intros [Hne Hall]. destruct l as [| c l]; [contradiction |].
    apply Forall_cons in Hall. destruct Hall as [Hp Hall].
    apply (lang_Seq (Class p) (Star (Class p)) [c] l).
    + constructor. exact Hp.
    + apply lang_Star_Class, Hall.
Qed.

Lemma lang_Class_Seq (p : ascii -> bool) (r : regex) (l : list ascii) :
  lang (Seq (Class p) r) l <-> exists c l', l = c :: l' /\ p c = true /\ lang r l'.
Proof.
  split.
  - intros H. apply lang_Seq_inv in H. destruct H as (l1 & l2 & -> & H1 & H2).
    apply lang_Class_inv in H1. destruct H1 as (c & -> & Hp). eauto.
  - intros (c & l' & -> & Hp & Hr).
    apply (lang_Seq (Class p) r [c] l'); [constructor; exact Hp | exact Hr].
Qed.

End RegexFacts.

Module TrimFacts.
Import InputValidator Trimmed.

Lemma trimStart_split (l : list ascii) :
  exists pre, l = pre ++ trimStart_chars l /\ Forall space pre.
Proof.
  induction l as [| c l (pre & Heq & Hpre)]; [exists []; split; [reflexivity | constructor] |].
  simpl. destruct (is_js_space c) eqn:Hc.
  - exists (c :: pre). split; [simpl; congruence | constructor; assumption].
  - exists []. split; [reflexivity | constructor].
Qed.

Lemma trimStart_head (l : list ascii) (c : ascii) (t : list ascii) :
  trimStart_chars l = c :: t -> is_js_space c = false.
Proof.
  induction l as [| d l IH]; [discriminate |]. simpl.
  destruct (is_js_space d) eqn:Hd; [exact IH |].
  intros [= <- _]. exact Hd.
Qed.

Lemma trimStart_id (l : list ascii) :
  (forall c t, l = c :: t -> is_js_space c = false) -> trimStart_chars l = l.
Proof.
  destruct l as [| c l]; [reflexivity |]. intros H. simpl.
  rewrite (H c l eq_refl). reflexivity.
Qed.

Lemma trim_chars_split (l : list ascii) :
  exists pre post,
    l = pre ++ trim_chars l ++ post /\ Forall space pre /\ Forall space post.
Proof.
  unfold trim_chars.
  destruct (trimStart_split l) as (pre & Hl & Hpre).
  destruct (trimStart_split (rev (trimStart_chars l))) as (post & Hr & Hpost).
  exists pre, (rev post). split; [| split; [exact Hpre |]].
  - rewrite Hl at 1. f_equal.
    rewrite <- (rev_involutive (trimStart_chars l)), Hr at 1.
    rewrite rev_app_distr. reflexivity.
  - apply Forall_rev, Hpost.
Qed.

Lemma trim_chars_trimmed (l : list ascii) : trimmed (trim_chars l).
Proof.
  unfold trim_chars.
  set (m := trimStart_chars l).
  destruct (trimStart_split (rev m)) as (post & Hr & Hpost).
  set (n := trimStart_chars (rev m)) in *.
  split.
  - intros c t Heq.
    assert (Hm : m = rev n ++ rev post).
    { rewrite <- (rev_involutive m), Hr, rev_app_distr. reflexivity. }
    rewrite Heq in Hm. simpl in Hm.
    apply (trimStart_head l c (t ++ rev post)). exact Hm.
  - intros c t Heq. apply (f_equal (@rev ascii)) in Heq.
    rewrite rev_involutive, rev_app_distr in Heq. simpl in Heq.
    apply (trimStart_head (rev m) c (rev t)). exact Heq.
Qed.

Lemma trim_chars_id (l : list ascii) : trimmed l -> trim_chars l = l.
Proof.
  intros [Hhead Hlast]. unfold trim_chars.
  rewrite (trimStart_id l Hhead).
  rewrite trimStart_id; [apply rev_involutive |].
  intros c t Heq. apply (Hlast c (rev t)).
  rewrite <- (rev_involutive l), Heq. reflexivity.
Qed.

Lemma trim_chars_idempotent (l : list ascii) :
  trim_chars (trim_chars l) = trim_chars l.
Proof. apply trim_chars_id, trim_chars_trimmed. Qed.

Lemma trim_chars_length (l : list ascii) :
  (length (trim_chars l) <= length l)%nat.
Proof.
  destruct (trim_chars_split l) as (pre & post & Heq & _).
  rewrite Heq at 2. rewrite !length_app. lia.
Qed.

Lemma no_space_trimmed (l : list ascii) :
  Forall (fun c => is_js_space c = false) l -> trimmed l.
Proof.
  intros Hall. rewrite Forall_forall in Hall. split; intros c t ->; apply Hall.
  - left.
  - apply elem_of_app. right. left.
Qed.

Lemma string_length_chars (s : string) :
  String.length s = length (list_ascii_of_string s).
Proof. induction s as [| c s IH]; simpl; congruence. Qed.

Lemma trim_chars_of_trim (s : string) :
  list_ascii_of_string (trim s) = trim_chars (list_ascii_of_string s).
Proof. unfold trim. apply list_ascii_of_string_of_list_ascii. Qed.

Lemma trim_idempotent (s : string) : trim (trim s) = trim s.
Proof.
  unfold trim at 1. rewrite trim_chars_of_trim, trim_chars_idempotent.
  reflexivity.
Qed.

Lemma trim_length (s : string) : (String.length (trim s) <= String.length s)%nat.
Proof.
  rewrite !string_length_chars, trim_chars_of_trim. apply trim_chars_length.
Qed.

Lemma trim_no_space (s : string) :
  Forall (fun c => is_js_space c = false) (list_ascii_of_string s) ->
  trim s = s.
Proof.
  intros H. unfold trim. rewrite trim_chars_id by (apply no_space_trimmed, H).
  apply string_of_list_ascii_of_string.
Qed.

End TrimFacts.

Module InputValidatorFieldsFacts.
Import JSValues Regex RegexFacts Trimmed TrimFacts InputValidatorFields.

Lemma lang_emailRegex (l : list ascii) :
  lang emailRegex l <->
  exists a b c,
    l = a ++ "@"%char :: b ++ "."%char :: c /\
    a <> [] /\ b <> [] /\ c <> [] /\
    Forall (fun x => not_space_or_at x = true) (a ++ b ++ c).
Proof.
  unfold emailRegex. split.
  - intros H. apply lang_Seq_inv in H. destruct H as (a & r1 & -> & Ha & H).
    apply lang_Class_Seq in H. destruct H as (c1 & r2 & -> & Hc1 & H).
    apply Ascii.eqb_eq in Hc1. subst c1.
    apply lang_Seq_inv in H. destruct H as (b & r3 & -> & Hb & H).
    apply lang_Class_Seq in H. destruct H as (c2 & c & -> & Hc2 & Hc).
    apply Ascii.eqb_eq in Hc2. subst c2.
    apply lang_Plus_Class in Ha, Hb, Hc.
    exists a, b, c. rewrite !Forall_app. tauto.
  - intros (a & b & c & -> & Ha & Hb & Hc & Hall).
    rewrite !Forall_app in Hall. destruct Hall as (Fa & Fb & Fc).
    apply lang_Seq; [apply lang_Plus_Class; auto |].
    apply lang_Class_Seq. exists "@"%char, (b ++ "."%char :: c).
    split; [reflexivity |]. split; [reflexivity |].
    apply lang_Seq; [apply lang_Plus_Class; auto |].
    apply lang_Class_Seq. exists "."%char, c.
    split; [reflexivity |]. split; [reflexivity |].
    apply lang_Plus_Class; auto.
Qed.

Lemma validateEmail_lang (email : string) :
  validateEmail email = true <->
  lang emailRegex (list_ascii_of_string email) /\
  (String.length email <= 254)%nat.
Proof.
  unfold validateEmail, test.
  rewrite andb_true_iff, matches_lang, Nat.leb_le. reflexivity.
Qed.

Lemma not_space_or_at_spec (c : ascii) :
  not_space_or_at c = true <->
  InputValidator.is_js_space c = false /\ c <> "@"%char.
Proof.
  unfold not_space_or_at. rewrite negb_true_iff, orb_false_iff.
  rewrite Ascii.eqb_neq. reflexivity.
Qed.

(** X16: what [validateEmail] accepts.  An address is accepted exactly
    when it has at most 254 code units and reads local@domain.tld, with
    the three parts non-empty and free of white space and of "@". *)
Theorem validateEmail_shape (email : string) :
  validateEmail email = true <->
  (String.length email <= 254)%nat /\
  exists local domain tld,
    list_ascii_of_string email =
      local ++ "@"%char :: domain ++ "."%char :: tld /\
    local <> [] /\ domain <> [] /\ tld <> [] /\
    Forall (fun c => InputValidator.is_js_space c = false /\ c <> "@"%char)
           (local ++ domain ++ tld).
Proof.
  rewrite validateEmail_lang, lang_emailRegex. split.
  - intros [(a & b & c & Heq & Ha & Hb & Hc & Hall) Hlen].
    split; [exact Hlen |]. exists a, b, c. repeat split; try assumption.
    eapply Forall_impl; [exact Hall |]. intros x. apply not_space_or_at_spec.
  - intros [Hlen (a & b & c & Heq & Ha & Hb & Hc & Hall)].
    split; [| exact Hlen]. exists a, b, c. repeat split; try assumption.
    eapply Forall_impl; [exact Hall |]. intros x. apply not_space_or_at_spec.
Qed.

(** An accepted address has exactly one "@" and no white space. *)
Lemma valid_email_plain (email : string) :
  validateEmail email = true ->
  Forall (fun c => InputValidator.is_js_space c = false)
         (list_ascii_of_string email) /\
  "@"%char ∈ list_ascii_of_string email /\
  (String.length email <= 254)%nat.
Proof.
  intros H. apply validateEmail_lang in H. destruct H as [H Hlen].
  apply lang_emailRegex in H.
  destruct H as (a & b & c & -> & _ & _ & _ & Hall).
  rewrite !Forall_app in Hall. destruct Hall as (Fa & Fb & Fc).
  assert (Hplain : forall l, Forall (fun x => not_space_or_at x = true) l ->
                             Forall (fun x => InputValidator.is_js_space x = false) l).
  { intros l Hl. eapply Forall_impl; [exact Hl |]. intros x Hx.
    apply not_space_or_at_spec in Hx. tauto. }
  split; [| split; [| exact Hlen]].
  - apply Forall_app. split; [auto |]. constructor; [reflexivity |].
    apply Forall_app. split; [auto |]. constructor; [reflexivity | auto].
  - apply elem_of_app. right. left.
Qed.

Lemma clamp_index_of_Z (k : Z) (len : nat) :
  clamp_index (of_Z k) len = Nat.min (Z.to_nat k) len.
Proof. unfold clamp_index, of_Z. simpl. rewrite Z.quot_1_r. reflexivity. Qed.

Lemma substring_0_all (s : string) (k : Z) :
  (String.length s <= Z.to_nat k)%nat -> substring_0 s (of_Z k) = s.
Proof.
  intros Hlen. unfold substring_0. rewrite clamp_index_of_Z.
  rewrite Nat.min_r by exact Hlen. rewrite string_length_chars, firstn_all.
  apply string_of_list_ascii_of_string.
Qed.

(** X17: sanitising does not disturb a valid address: [sanitizeString]
    with the default limit returns an accepted address unchanged. *)
Theorem valid_email_survives_sanitizing (email : string) :
  validateEmail email = true ->
  sanitizeString (AString email) None = email.
Proof.
  intros H. apply valid_email_plain in H. destruct H as (Hplain & _ & Hlen).
  unfold sanitizeString. rewrite (trim_no_space email Hplain).
  apply substring_0_all. simpl. lia.
Qed.

Lemma valid_email_survives_sanitizing_witness :
  sanitizeString (AString "ann@example.org") None = "ann@example.org".
Proof.
  apply (valid_email_survives_sanitizing "ann@example.org").
  vm_compute. reflexivity.
Defined.

Lemma validateName_spec (name : string) :
  validateName name = true <->
  (String.length name <= 100)%nat /\
  InputValidator.trim name <> "" /\
  Forall (fun c => name_char c = true)
         (list_ascii_of_string (InputValidator.trim name)).
Proof.
  unfold validateName, test, nameRegex.
  destruct (String.eqb_spec name "") as [-> | Hne]; simpl.
  - split; [discriminate |]. intros (_ & H & _). exfalso. apply H.
    reflexivity.
  - destruct (Nat.eqb_spec (String.length (InputValidator.trim name)) 0)
      as [H0 | H0].
    + split; [discriminate |]. intros (_ & H & _). exfalso. apply H.
      destruct (InputValidator.trim name); [reflexivity | discriminate H0].
    + destruct (Nat.ltb_spec 100 (String.length name)) as [Hlong | Hshort].
      * split; [discriminate | lia].
      * rewrite matches_lang, lang_Plus_Class. split.
        -- intros [_ Hall]. split; [exact Hshort |]. split; [| exact Hall].
           intros Heq. rewrite Heq in H0. apply H0. reflexivity.
        -- intros (_ & Hn & Hall). split; [| exact Hall].
           intros Heq. apply Hn.
           rewrite <- (string_of_list_ascii_of_string (InputValidator.trim name)),
             Heq. reflexivity.
Qed.

(** X18: a valid name stays valid when it is sanitised: [sanitizeString]
    with the default limit returns its trimmed form, which [validateName]
    accepts again. *)
Theorem valid_name_survives_sanitizing (name : string) :
  validateName name = true ->
  sanitizeString (AString name) None = InputValidator.trim name /\
  validateName (sanitizeString (AString name) None) = true.
Proof.
  intros H. apply validateName_spec in H. destruct H as (Hlen & Hne & Hall).
  pose proof (trim_length name) as Htrim.
  assert (Hs : sanitizeString (AString name) None = InputValidator.trim name).
  { unfold sanitizeString. apply substring_0_all. simpl. lia. }
  split; [exact Hs |]. rewrite Hs. apply validateName_spec.
  rewrite trim_idempotent. split; [lia |]. split; assumption.
Qed.

Lemma valid_name_survives_sanitizing_witness :
  sanitizeString (AString "  Mary-Ann O'Neil ") None =
    InputValidator.trim "  Mary-Ann O'Neil " /\
  validateName (sanitizeString (AString "  Mary-Ann O'Neil ") None) = true.
Proof.
  apply (valid_name_survives_sanitizing "  Mary-Ann O'Neil ").
  vm_compute. reflexivity.
Defined.

Lemma take_trimmed_head (l : list ascii) (k : nat) (c : ascii)
      (t : list ascii) :
  trimmed l -> take k l = c :: t -> InputValidator.is_js_space c = false.
Proof.
  intros [Hhead _] Heq. destruct l as [| d l]; [destruct k; discriminate |].
  destruct k as [| k]; [discriminate |]. simpl in Heq.
  injection Heq as <- _. apply (Hhead d l eq_refl).
Qed.

(** X19: what [sanitizeString] returns.  For a string and a limit k the
    result is the trimmed string cut to k code units: a prefix of the
    trimmed string, at most k long (empty for a negative k), without
    leading white space, and the whole trimmed string when that fits.
    For a value that is not a string the result is empty. *)
Theorem sanitizeString_result (input : any) (k : Z) :
  let result := sanitizeString input (Some (of_Z k)) in
  (String.length result <= Z.to_nat k)%nat /\
  (forall c t, list_ascii_of_string result = c :: t ->
               InputValidator.is_js_space c = false) /\
  (forall s, input = AString s ->
             list_ascii_of_string result =
               take (Z.to_nat k) (list_ascii_of_string (InputValidator.trim s)) /\
             ((String.length (InputValidator.trim s) <= Z.to_nat k)%nat ->
              result = InputValidator.trim s)) /\
  ((forall s, input <> AString s) -> result = "").
Proof.
  intros result. subst result.
  destruct input as [s | n | b]; cbn [sanitizeString].
  - assert (Hchars : list_ascii_of_string
                       (substring_0 (InputValidator.trim s) (of_Z k)) =
                     take (Z.to_nat k)
                       (list_ascii_of_string (InputValidator.trim s))).
    { unfold substring_0. rewrite list_ascii_of_string_of_list_ascii.
      rewrite clamp_index_of_Z, string_length_chars.
      destruct (Nat.le_ge_cases (Z.to_nat k)
                  (length (list_ascii_of_string (InputValidator.trim s))))
        as [Hle | Hge].
      - rewrite Nat.min_l by exact Hle. reflexivity.
      - rewrite Nat.min_r by exact Hge.
        rewrite !take_ge by lia. reflexivity. }
    split; [| split; [| split]].
    + rewrite string_length_chars, Hchars, length_take. lia.
    + intros c t Heq. rewrite Hchars in Heq.
      rewrite trim_chars_of_trim in Heq.
      apply (take_trimmed_head _ _ _ t (trim_chars_trimmed _) Heq).
    + intros s' [= <-]. split; [exact Hchars |].
      apply substring_0_all.
    + intros H. exfalso. apply (H s). reflexivity.
  - split; [simpl; lia |]. split; [discriminate |].
    split; [discriminate | reflexivity].
  - split; [simpl; lia |]. split; [discriminate |].
    split; [discriminate | reflexivity].
Qed.

Lemma isInteger_spec (n : number) :
  isInteger n = true <-> exists z, n = of_Z z.
Proof.
  split.
  - destruct n as [| | | q]; try discriminate. simpl.
    intros H. apply bool_decide_eq_true in H.
    exists (Qnum (this q)). unfold of_Z. f_equal. apply Qc_is_canon.
    simpl. destruct q as [[a b] Hq]. simpl in *. subst b. reflexivity.
  - intros [z ->]. reflexivity.
Qed.

Lemma le_of_Z (a b : Z) : le (of_Z a) (of_Z b) = bool_decide (a <= b).
Proof.
  unfold le, lt, of_Z. simpl.
  rewrite <- (bool_decide_ext _ _ (Z2Qc_inj_lt b a)).
  repeat case_bool_decide; simpl; try reflexivity; lia.
Qed.

Lemma validateAge_spec (age : number) :
  validateAge age = true <-> exists z, age = of_Z z /\ 0 <= z <= 150.
Proof.
  unfold validateAge, ge. rewrite !andb_true_iff, isInteger_spec. split.
  - intros [[[z ->] H0] H150]. rewrite le_of_Z in H0, H150.
    apply bool_decide_eq_true in H0, H150. exists z. split; [reflexivity | lia].
  - intros (z & -> & Hz). rewrite !le_of_Z.
    repeat split; [exists z; reflexivity | |]; apply bool_decide_eq_true; lia.
Qed.

(** X20: [validateUserInput] reports every failing field once, in the
    order name, email, age, and declares the input valid exactly when no
    field fails: the name check, the address check and an integer age
    between 0 and 150. *)
Theorem validateUserInput_reports_each_failure (name email : string)
        (age : number) :
  let result := validateUserInput name email age in
  (isValid result = true <->
   validateName name = true /\ validateEmail email = true /\
   exists z, age = of_Z z /\ 0 <= z <= 150) /\
  (isValid result = true <-> errors result = []) /\
  errors result =
    (if validateName name then [] else [name_error]) ++
    (if validateEmail email then [] else [email_error]) ++
    (if validateAge age then [] else [age_error]).
Proof.
  intros result. subst result. rewrite <- validateAge_spec.
  unfold validateUserInput.
  destruct (validateName name), (validateEmail email), (validateAge age);
    simpl; repeat split; try reflexivity; try discriminate;
    intros H; try discriminate H; try tauto;
    destruct H as (? & ? & ?); discriminate.
Qed.


End InputValidatorFieldsFacts.

Module UserServiceFacts.
Import JSValues Regex RegexFacts Trimmed TrimFacts.
Import ValidationRules USER_ERROR_MESSAGES ErrorHandler Decorators.
Import InputValidatorFieldsFacts.

Lemma includes_char (s : string) (c : ascii) :
  c ∈ list_ascii_of_string s -> includes s (String c EmptyString) = true.
Proof.
  induction s as [| d s IH]; simpl; [intros H; inversion H |].
  intros H. apply elem_of_cons in H. destruct H as [-> | H].
  - destruct (Ascii.ascii_dec d d) as [_ | Hne]; [| contradiction].
    destruct s; reflexivity.
  - rewrite (IH H). apply orb_true_r.
Qed.

Lemma lt_of_Z (a b : Z) : lt (of_Z a) (of_Z b) = bool_decide (a < b).
Proof. unfold lt, of_Z. apply bool_decide_ext. symmetry. apply Z2Qc_inj_lt. Qed.

(** The four-decorator stack of the service methods, as one case
    analysis. *)
Lemma decorated_method {A T : Type} (operation : string)
      (validationFn : A -> validation) (body : A -> result T) (args : A) :
  LogMethod (Monitor (HandleErrors operation
    (ValidateInput validationFn body))) args =
  match validationFn args with
  | VBoolean true =>
      match body args with
      | Returned r => Returned r
      | Thrown error => Thrown (handleDatabaseError error operation)
      end
  | VBoolean false =>
      Thrown (handleDatabaseError (Error "Invalid input parameters") operation)
  | VString errorMessage =>
      Thrown (handleDatabaseError (Error errorMessage) operation)
  end.
Proof.
  unfold LogMethod, Monitor, HandleErrors, ValidateInput.
  destruct (validationFn args) as [[] | m]; [| reflexivity | reflexivity].
  destruct (body args); reflexivity.
Qed.

Lemma validateUserId_cases (id : any) :
  validateUserId id = VBoolean true \/
  validateUserId id = VString "Valid user ID is required".
Proof. unfold validateUserId. destruct (not_a_number_or _ _); auto. Qed.

Lemma validateEmail_cases (email : any) :
  ValidationRules.validateEmail email = VBoolean true \/
  ValidationRules.validateEmail email = VString "Valid email is required".
Proof.
  unfold ValidationRules.validateEmail. destruct (not_a_string_or _ _); auto.
Qed.

Lemma validateUserCreation_cases (name email age : any) :
  validateUserCreation name email age = VBoolean true \/
  validateUserCreation name email age =
    VString "Name is required and must be a non-empty string" \/
  validateUserCreation name email age = VString "Valid email is required" \/
  validateUserCreation name email age =
    VString "Age must be a number between 0 and 150".
Proof.
  unfold validateUserCreation.
  destruct (not_a_string_or name _); [auto |].
  destruct (not_a_string_or email _); [auto |].
  destruct (not_a_number_or age _); auto.
Qed.

Lemma validateUserUpdate_cases (id name email age : any) :
  validateUserUpdate id name email age = VBoolean true \/
  validateUserUpdate id name email age = VString "Valid user ID is required" \/
  validateUserUpdate id name email age =
    VString "Name is required and must be a non-empty string" \/
  validateUserUpdate id name email age = VString "Valid email is required" \/
  validateUserUpdate id name email age =
    VString "Age must be a number between 0 and 150".
Proof.
  unfold validateUserUpdate. destruct (not_a_number_or id _); [auto |].
  destruct (validateUserCreation_cases name email age) as [H | [H | [H | H]]];
    rewrite H; auto.
Qed.

Section Methods.

Variable User : Type.
Variable getUserById_body : any -> result (option User).
Variable emailExists_body : any -> result bool.
Variable createUser_body : any * any * any -> result User.
Variable updateUser_body : any * any * any * any -> result (option User).
Variable deleteUser_body : any -> result bool.

Local Abbreviation getUserById :=
  (UserService.getUserById User getUserById_body).
Local Abbreviation emailExists :=
  (UserService.emailExists emailExists_body).
Local Abbreviation createUser :=
  (UserService.createUser User createUser_body).
Local Abbreviation updateUser :=
  (UserService.updateUser User updateUser_body).
Local Abbreviation deleteUser :=
  (UserService.deleteUser deleteUser_body).

Lemma createUser_result (name email age : any) :
  createUser (name, email, age) =
  match validateUserCreation name email age with
  | VBoolean true =>
      match createUser_body (name, email, age) with
      | Returned r => Returned r
      | Thrown error => Thrown (handleDatabaseError error "create_user")
      end
  | _ => Thrown (Error FAILED_TO_CREATE_USER)
  end.
Proof.
  unfold UserService.createUser. rewrite decorated_method.
  destruct (validateUserCreation_cases name email age)
    as [H | [H | [H | H]]]; rewrite H; reflexivity.
Qed.

Lemma updateUser_result (id name email age : any) :
  updateUser (id, name, email, age) =
  match validateUserUpdate id name email age with
  | VBoolean true =>
      match updateUser_body (id, name, email, age) with
      | Returned r => Returned r
      | Thrown error => Thrown (handleDatabaseError error "update_user")
      end
  | _ => Thrown (Error FAILED_TO_UPDATE_USER)
  end.
Proof.
  unfold UserService.updateUser. rewrite decorated_method.
  destruct (validateUserUpdate_cases id name email age)
    as [H | [H | [H | [H | H]]]]; rewrite H; reflexivity.
Qed.

Lemma getUserById_result (id : any) :
  getUserById id =
  match validateUserId id with
  | VBoolean true =>
      match getUserById_body id with
      | Returned r => Returned r
      | Thrown error => Thrown (handleDatabaseError error "fetch_user")
      end
  | _ => Thrown (Error FAILED_TO_FETCH_USER)
  end.
Proof.
  unfold UserService.getUserById. rewrite decorated_method.
  destruct (validateUserId_cases id) as [H | H]; rewrite H; reflexivity.
Qed.

Lemma deleteUser_result (id : any) :
  deleteUser id =
  match validateUserId id with
  | VBoolean true =>
      match deleteUser_body id with
      | Returned r => Returned r
      | Thrown error => Thrown (handleDatabaseError error "delete_user")
      end
  | _ => Thrown (Error FAILED_TO_DELETE_USER)
  end.
Proof.
  unfold UserService.deleteUser. rewrite decorated_method.
  destruct (validateUserId_cases id) as [H | H]; rewrite H; reflexivity.
Qed.

Lemma emailExists_result (email : any) :
  emailExists email =
  match ValidationRules.validateEmail email with
  | VBoolean true =>
      match emailExists_body email with
      | Returned r => Returned r
      | Thrown error => Thrown (handleDatabaseError error "check_email")
      end
  | _ => Thrown (Error FAILED_TO_CHECK_EMAIL)
  end.
Proof.
  unfold UserService.emailExists. rewrite decorated_method.
  destruct (validateEmail_cases email) as [H | H]; rewrite H; reflexivity.
Qed.

End Methods.

End UserServiceFacts.

Module DecoratorFacts.
Import JSValues ValidationRules USER_ERROR_MESSAGES ErrorHandler Decorators.
Import UserServiceFacts.

Lemma handleDatabaseError_own (error : thrown) (operation text : string) :
  errorMap operation = Own text ->
  handleDatabaseError error operation = Error text \/
  (handleDatabaseError error operation = Error EMAIL_ALREADY_EXISTS /\
   exists message,
     error = Error message /\ includes message "Unique constraint" = true).
Proof.
  intros Hop. unfold handleDatabaseError. rewrite Hop.
  destruct error as [message | property |]; auto.
  destruct (includes message "Unique constraint") eqn:Hm; eauto.
Qed.

Lemma decorated_failures_cases {A T : Type} (operation text : string)
      (validationFn : A -> validation) (body : A -> result T) (args : A) :
  errorMap operation = Own text ->
  (forall message,
      validationFn args = VString message ->
      includes message "Unique constraint" = false) ->
  let decorated :=
    LogMethod (Monitor (HandleErrors operation
      (ValidateInput validationFn body))) in
  match decorated args with
  | Returned r => validationFn args = VBoolean true /\ body args = Returned r
  | Thrown error =>
      error = Error text \/
      (error = Error EMAIL_ALREADY_EXISTS /\
       validationFn args = VBoolean true /\
       exists message,
         body args = Thrown (Error message) /\
         includes message "Unique constraint" = true)
  end /\
  (validationFn args <> VBoolean true -> decorated args = Thrown (Error text)).
Proof.
  intros Hop Hmsg decorated. subst decorated. rewrite decorated_method.
  assert (Hplain : forall message,
             includes message "Unique constraint" = false ->
             handleDatabaseError (Error message) operation = Error text).
  { intros message Hm. unfold handleDatabaseError. rewrite Hm, Hop.
    reflexivity. }
  destruct (validationFn args) as [[] | message] eqn:Hv.
  - split; [| intros H; exfalso; apply H; reflexivity].
    destruct (body args) as [r | error]; [auto |].
    destruct (handleDatabaseError_own error operation text Hop)
      as [-> | (-> & m & -> & Hm)]; [auto |].
    right. split; [reflexivity |]. split; [reflexivity |]. eauto.
  - rewrite (Hplain "Invalid input parameters" eq_refl). auto.
  - rewrite (Hplain _ (Hmsg _ eq_refl)). auto.
Qed.

(** X21: what a caller of a decorated method can see.  For an operation
    of the error map and a validation function whose messages do not
    mention a unique constraint: the method returns only when the
    validation passed and the wrapped method returned that value; every
    error is an [Error] whose message is the operation's entry of the map
    or, when the wrapped method threw an [Error] mentioning
    "Unique constraint", "Email already exists".  In particular a failed
    validation is reported with the operation's entry: its own message
    never reaches the caller. *)
Theorem decorated_failures {A T : Type} (operation text : string)
        (validationFn : A -> validation) (body : A -> result T) (args : A) :
  errorMap operation = Own text ->
  (forall message,
      validationFn args = VString message ->
      includes message "Unique constraint" = false) ->
  let decorated :=
    LogMethod (Monitor (HandleErrors operation
      (ValidateInput validationFn body))) in
  match decorated args with
  | Returned r => validationFn args = VBoolean true /\ body args = Returned r
  | Thrown error =>
      error = Error text \/
      (error = Error EMAIL_ALREADY_EXISTS /\
       validationFn args = VBoolean true /\
       exists message,
         body args = Thrown (Error message) /\
         includes message "Unique constraint" = true)
  end /\
  (validationFn args <> VBoolean true -> decorated args = Thrown (Error text)).
Proof. apply decorated_failures_cases. Qed.

Lemma decorated_failures_witness :
  LogMethod (Monitor (HandleErrors "create_user"
    (ValidateInput
       (fun '(name, email, age) => validateUserCreation name email age)
       (fun _ => Returned tt))))
    (AString "", AString "ann@example.org", ANumber (of_Z 30)) =
  Thrown (Error "Failed to create user").
Proof.
  refine (proj2 (decorated_failures "create_user" FAILED_TO_CREATE_USER
                   (fun '(name, email, age) =>
                      validateUserCreation name email age)
                   (fun _ => Returned tt)
                   (AString "", AString "ann@example.org", ANumber (of_Z 30))
                   _ _) _).
  - reflexivity.
  - intros message [= <-]. reflexivity.
  - discriminate.
Defined.

End DecoratorFacts.

Module UserControllerFacts.
Import JSNumber JSValues Regex RegexFacts Trimmed TrimFacts.
Import ValidationRules USER_ERROR_MESSAGES ErrorHandler Decorators.
Import InputValidatorFieldsFacts UserServiceFacts UserController.

Lemma controller_email_valid (email : any) :
  UserController.validateEmail email = true ->
  exists e, email = AString e /\ InputValidator.trim e = e /\
            ValidationRules.validateEmail email = VBoolean true /\
            not_a_string_or email (fun s => negb (includes s "@")) = false.
Proof.
  destruct email as [e | |]; try discriminate. intros H.
  change (InputValidatorFields.validateEmail e = true) in H.
  apply valid_email_plain in H. destruct H as (Hplain & Hat & _).
  exists e. split; [reflexivity |].
  split; [apply trim_no_space, Hplain |].
  assert (Hguard : not_a_string_or (AString e)
                     (fun s => negb (includes s "@")) = false).
  { unfold not_a_string_or. rewrite (includes_char e "@" Hat). simpl.
    destruct e; [inversion Hat | reflexivity]. }
  split; [| exact Hguard].
  unfold ValidationRules.validateEmail. rewrite Hguard. reflexivity.
Qed.

Lemma controller_name_valid (name : any) :
  UserController.validateName name = true ->
  exists n, name = AString n /\
            not_a_string_or (AString (InputValidator.trim n))
              (fun s => (String.length (InputValidator.trim s) =? 0)%nat) =
            false.
Proof.
  destruct name as [n | |]; try discriminate. simpl. intros H.
  apply andb_true_iff in H. destruct H as [H _].
  apply andb_true_iff in H. destruct H as [_ H]. apply Nat.ltb_lt in H.
  exists n. split; [reflexivity |]. rewrite trim_idempotent.
  destruct (InputValidator.trim n) as [| c t] eqn:Ht; [simpl in H; lia |].
  reflexivity.
Qed.

Lemma controller_age_valid (age : any) :
  UserController.validateAge age = true ->
  not_a_number_or age (fun n => lt n (of_Z 0) || gt n (of_Z 150)) = false.
Proof.
  destruct age as [| a |]; try discriminate. intros H.
  change (InputValidatorFields.validateAge a = true) in H.
  apply validateAge_spec in H. destruct H as (z & -> & Hz).
  unfold not_a_number_or, gt. rewrite !lt_of_Z.
  rewrite !bool_decide_eq_false_2 by lia. reflexivity.
Qed.

Lemma route_id_positive (id : string) (n : number) :
  route_id id = Some n -> is_NaN n = false /\ le n (of_Z 0) = false.
Proof.
  unfold route_id.
  destruct (is_NaN (UserController.parseInt id)) eqn:Hnan; [discriminate |].
  destruct (le (UserController.parseInt id) (of_Z 0)) eqn:Hle;
    [discriminate |].
  intros [= <-]. split; assumption.
Qed.

Lemma route_id_accepted (id : string) (n : number) :
  route_id id = Some n -> validateUserId (ANumber n) = VBoolean true.
Proof.
  intros H. apply route_id_positive in H. destruct H as [_ H].
  unfold validateUserId. simpl. rewrite H. reflexivity.
Qed.

Section Handlers.

Variable User : Type.
Variable getUserById_body : any -> result (option User).
Variable emailExists_body : any -> result bool.
Variable createUser_body : any * any * any -> result User.
Variable updateUser_body : any * any * any * any -> result (option User).
Variable deleteUser_body : any -> result bool.

Lemma createUser_wired (name email age : any) :
  UserController.createUser User
    (UserService.emailExists emailExists_body)
    (UserService.createUser User createUser_body) name email age =
  if UserController.validateName name && UserController.validateEmail email &&
     UserController.validateAge age
  then
    match name with
    | AString n =>
        match emailExists_body email with
        | Thrown _ => database_error User
        | Returned true => (BAD_REQUEST, error_body EMAIL_ALREADY_EXISTS)
        | Returned false =>
            match createUser_body
                    (AString (InputValidator.trim n), email, age) with
            | Thrown _ => database_error User
            | Returned user => (CREATED, user_body user)
            end
        end
    | _ => invalid_user_data User
    end
  else invalid_user_data User.
Proof.
  unfold UserController.createUser.
  destruct (UserController.validateName name) eqn:Hname; [| reflexivity].
  destruct (UserController.validateEmail email) eqn:Hemail; [| reflexivity].
  destruct (UserController.validateAge age) eqn:Hage; [| reflexivity].
  cbn [negb orb andb].
  destruct (controller_name_valid name Hname) as (n & -> & Hn).
  destruct (controller_email_valid email Hemail)
    as (e & -> & Htrim & Hcheck & He).
  pose proof (controller_age_valid age Hage) as Ha.
  rewrite emailExists_result, Hcheck, Htrim.
  destruct (emailExists_body (AString e)) as [[] | error];
    [reflexivity | | reflexivity].
  rewrite createUser_result. unfold validateUserCreation.
  rewrite Hn, He, Ha.
  destruct (createUser_body _); reflexivity.
Qed.

Lemma getUser_wired (id : string) :
  UserController.getUser User (UserService.getUserById User getUserById_body)
    id =
  match route_id id with
  | None => invalid_user_data User
  | Some n =>
      match getUserById_body (ANumber n) with
      | Thrown _ => database_error User
      | Returned None => user_not_found User
      | Returned (Some user) => (OK, user_body user)
      end
  end.
Proof.
  unfold UserController.getUser.
  destruct (route_id id) as [n |] eqn:Hid; [| reflexivity].
  rewrite getUserById_result, (route_id_accepted id n Hid).
  destruct (getUserById_body _) as [[u |] | error]; reflexivity.
Qed.

Lemma deleteUser_wired (id : string) :
  UserController.deleteUser User (UserService.deleteUser deleteUser_body) id =
  match route_id id with
  | None => invalid_user_data User
  | Some n =>
      match deleteUser_body (ANumber n) with
      | Thrown _ => database_error User
      | Returned false => user_not_found User
      | Returned true => (NO_CONTENT, no_body)
      end
  end.
Proof.
  unfold UserController.deleteUser.
  destruct (route_id id) as [n |] eqn:Hid; [| reflexivity].
  rewrite deleteUser_result, (route_id_accepted id n Hid).
  destruct (deleteUser_body _) as [[] | error]; reflexivity.
Qed.

Lemma updateUser_wired (id : string) (name email age : any) :
  UserController.updateUser User
    (UserService.updateUser User updateUser_body) id name email age =
  match route_id id with
  | None => invalid_user_data User
  | Some i =>
      if UserController.validateName name &&
         UserController.validateEmail email && UserController.validateAge age
      then
        match name with
        | AString n =>
            match updateUser_body
                    (ANumber i, AString (InputValidator.trim n),
                     email, age) with
            | Thrown _ => database_error User
            | Returned None => user_not_found User
            | Returned (Some user) => (OK, user_body user)
            end
        | _ => invalid_user_data User
        end
      else invalid_user_data User
  end.
Proof.
  unfold UserController.updateUser.
  destruct (route_id id) as [i |] eqn:Hid; [| reflexivity].
  destruct (UserController.validateName name) eqn:Hname; [| reflexivity].
  destruct (UserController.validateEmail email) eqn:Hemail; [| reflexivity].
  destruct (UserController.validateAge age) eqn:Hage; [| reflexivity].
  cbn [negb orb andb].
  destruct (controller_name_valid name Hname) as (n & -> & Hn).
  destruct (controller_email_valid email Hemail)
    as (e & -> & Htrim & Hcheck & He).
  pose proof (controller_age_valid age Hage) as Ha.
  pose proof (route_id_accepted id i Hid) as Hi.
  rewrite updateUser_result, Htrim. unfold validateUserUpdate.
  unfold validateUserId in Hi.
  destruct (not_a_number_or (ANumber i) _); [discriminate Hi |].
  unfold validateUserCreation. rewrite Hn, He, Ha.
  destruct (updateUser_body _) as [[u |] | error]; reflexivity.
Qed.

(** X22: creating a user through the controller.  With the decorated
    service behind it, [createUser] answers 400 "Invalid user data
    provided" unless name, address and age pass the controller's checks;
    otherwise the two queries run on the trimmed name and the address as
    sent (the service's own validation never rejects what the controller
    let through), and the answer is 400 "Email already exists", 201 with
    the user, or 500 "Database operation failed" for any error of a
    query, whatever message the service mapped it to. *)
Theorem createUser_through_the_service (name email age : any) :
  UserController.createUser User
    (UserService.emailExists emailExists_body)
    (UserService.createUser User createUser_body) name email age =
  if UserController.validateName name && UserController.validateEmail email &&
     UserController.validateAge age
  then
    match name with
    | AString n =>
        match emailExists_body email with
        | Thrown _ => database_error User
        | Returned true => (BAD_REQUEST, error_body EMAIL_ALREADY_EXISTS)
        | Returned false =>
            match createUser_body
                    (AString (InputValidator.trim n), email, age) with
            | Thrown _ => database_error User
            | Returned user => (CREATED, user_body user)
            end
        end
    | _ => invalid_user_data User
    end
  else invalid_user_data User.
Proof. apply createUser_wired. Qed.

(** X23: requests addressed by id.  With the decorated service behind
    them, [getUser], [deleteUser] and [updateUser] answer 400 unless
    [parseInt] of the route id is a Number that is not NaN and is above
    0 (and, for an update, the fields pass the checks); otherwise the
    query runs on that Number, which is a positive integer or, for an id
    of some 309 digits or more, Infinity: the service's id validation
    never rejects an id the controller accepted, and any error of the
    query is answered 500 "Database operation failed". *)
Theorem id_requests_through_the_service (id : string) (name email age : any) :
  UserController.getUser User (UserService.getUserById User getUserById_body)
    id =
  match route_id id with
  | None => invalid_user_data User
  | Some n =>
      match getUserById_body (ANumber n) with
      | Thrown _ => database_error User
      | Returned None => user_not_found User
      | Returned (Some user) => (OK, user_body user)
      end
  end /\
  UserController.deleteUser User (UserService.deleteUser deleteUser_body) id =
  match route_id id with
  | None => invalid_user_data User
  | Some n =>
      match deleteUser_body (ANumber n) with
      | Thrown _ => database_error User
      | Returned false => user_not_found User
      | Returned true => (NO_CONTENT, no_body)
      end
  end /\
  UserController.updateUser User
    (UserService.updateUser User updateUser_body) id name email age =
  match route_id id with
  | None => invalid_user_data User
  | Some i =>
      if UserController.validateName name &&
         UserController.validateEmail email && UserController.validateAge age
      then
        match name with
        | AString n =>
            match updateUser_body
                    (ANumber i, AString (InputValidator.trim n),
                     email, age) with
            | Thrown _ => database_error User
            | Returned None => user_not_found User
            | Returned (Some user) => (OK, user_body user)
            end
        | _ => invalid_user_data User
        end
      else invalid_user_data User
  end.
Proof.
  split; [apply getUser_wired |].
  split; [apply deleteUser_wired | apply updateUser_wired].
Qed.

(** An id of 310 digits is read as Infinity, which is neither NaN nor
    at most 0: the query runs on Infinity. *)
Example oversized_id_reaches_the_query :
  route_id (string_of_list_ascii ("1" :: repeat "0" 309)%char) =
    Some Infinity /\
  UserController.getUser User (UserService.getUserById User getUserById_body)
    (string_of_list_ascii ("1" :: repeat "0" 309)%char) =
  match getUserById_body (ANumber Infinity) with
  | Thrown _ => database_error User
  | Returned None => user_not_found User
  | Returned (Some user) => (OK, user_body user)
  end.
Proof.
  assert (Hid : route_id (string_of_list_ascii ("1" :: repeat "0" 309)%char) =
                Some Infinity) by (vm_compute; reflexivity).
  split; [exact Hid |]. rewrite getUser_wired, Hid. reflexivity.
Qed.

End Handlers.

End UserControllerFacts.

Module RouteIdFacts.
Import JSNumber JSNumberFacts InputValidator InputValidatorFacts.
Import Trimmed TrimFacts UserController.

Lemma number_of_safe_integer (z : Z) :
  Z.abs z <= MAX_SAFE_INTEGER -> number_of_integer z = JSValues.of_Z z.
Proof.
  intros Hz. unfold MAX_SAFE_INTEGER in Hz. unfold number_of_integer.
  rewrite round_exact by lia.
  destruct (Z.leb_spec (2 ^ 1024) (Z.abs z)); [lia | reflexivity].
Qed.

Lemma trimStart_spaces (pre l : list ascii) :
  Forall space pre -> trimStart_chars (pre ++ l) = trimStart_chars l.
Proof.
  induction 1 as [| c pre Hc _ IH]; [reflexivity |].
  simpl. unfold space in Hc. rewrite Hc. exact IH.
Qed.

Lemma digit_prefix_until (ds post : list ascii) :
  Forall (fun c => is_digit c = true) ds ->
  (forall c t, post = c :: t -> is_digit c = false) ->
  digit_prefix (ds ++ post) = ds.
Proof.
  intros Hds Hpost. induction Hds as [| d ds Hd _ IH]; simpl.
  - destruct post as [| c t]; [reflexivity |]. simpl.
    rewrite (Hpost c t eq_refl). reflexivity.
  - rewrite Hd, IH. reflexivity.
Qed.

Lemma space_not_digit (c : ascii) : space c -> is_digit c = false.
Proof.
  unfold space. intros Hs. destruct (is_digit c) eqn:Hd; [| reflexivity].
  rewrite (digit_not_space c Hd) in Hs. discriminate Hs.
Qed.

Lemma digits_no_hex_prefix (ds post : list ascii) :
  Forall (fun c => is_digit c = true) ds -> Forall space post ->
  has_hex_prefix (ds ++ post) = false.
Proof.
  intros Hds Hpost.
  assert (Hall : Forall (fun c => is_digit c = true \/ space c) (ds ++ post)).
  { apply Forall_app. split; eapply Forall_impl; eauto. }
  destruct (ds ++ post) as [| c0 [| c1 l]]; try reflexivity.
  apply Forall_cons in Hall. destruct Hall as [_ Hall].
  apply Forall_cons in Hall. destruct Hall as [H1 _].
  simpl. destruct (Ascii.eqb_spec c1 "x") as [-> | _].
  - destruct H1 as [H1 | H1]; vm_compute in H1; discriminate H1.
  - destruct (Ascii.eqb_spec c1 "X") as [-> | _].
    + destruct H1 as [H1 | H1]; vm_compute in H1; discriminate H1.
    + apply andb_false_r.
Qed.

(** On a digit string with white space around it, [parseInt] without a
    radix reads the digits in base 10. *)
Lemma parseInt_padded_digits (s : string) :
  let ds := list_ascii_of_string (trim s) in
  ds <> [] -> Forall (fun c => is_digit c = true) ds ->
  UserController.parseInt s = number_of_integer (digits_value ds).
Proof.
  intros ds Hne Hall. subst ds. rewrite trim_chars_of_trim in *.
  destruct (trim_chars_split (list_ascii_of_string s))
    as (pre & post & Heq & Hpre & Hpost).
  set (ds := trim_chars (list_ascii_of_string s)) in *.
  unfold UserController.parseInt. rewrite Heq, (trimStart_spaces _ _ Hpre).
  destruct ds as [| d ds'] eqn:Hds; [contradiction |].
  pose proof (Forall_inv Hall) as Hd.
  simpl trimStart_chars. rewrite (digit_not_space d Hd).
  change ((d :: ds') ++ post) with (d :: ds' ++ post).
  rewrite (read_sign_digit d (ds' ++ post) Hd).
  change (d :: ds' ++ post) with ((d :: ds') ++ post).
  rewrite (digits_no_hex_prefix _ _ Hall Hpost).
  rewrite digit_prefix_until; [rewrite Z.mul_1_l; reflexivity | exact Hall |].
  intros c t ->. apply space_not_digit. apply (Forall_inv Hpost).
Qed.

Lemma validateId_route_id (s : string) (v : Z) :
  validateId (JSString s) = {| isValid := true; value := Some v |} ->
  route_id s = Some (JSValues.of_Z v).
Proof.
  intros Hvalid.
  destruct (test_digits (trim (ToString (JSString s)))) eqn:Htest.
  - apply test_digits_spec in Htest. destruct Htest as [Hne Hall].
    rewrite (validateId_digits (JSString s) ltac:(discriminate)
               ltac:(discriminate) Hne Hall) in Hvalid.
    simpl ToString in *.
    set (ds := list_ascii_of_string (trim s)) in *.
    destruct (Z.ltb_spec 0 (digits_value ds)) as [Hpos |];
      [| discriminate Hvalid].
    destruct (Z.leb_spec (digits_value ds) MAX_SAFE_INTEGER) as [Hsafe |];
      [| discriminate Hvalid].
    injection Hvalid as <-.
    unfold route_id. rewrite (parseInt_padded_digits s Hne Hall). fold ds.
    rewrite number_of_safe_integer by lia.
    rewrite InputValidatorFieldsFacts.le_of_Z.
    rewrite bool_decide_eq_false_2 by lia. reflexivity.
  - rewrite (validateId_not_digits _ Htest) in Hvalid. discriminate Hvalid.
Qed.

(** X24: [validateId] is at least as strict as the controller's id
    check.  Every id string that [validateId] accepts with value v is
    accepted by the check the routes apply ([parseInt] without a radix,
    then "not NaN and positive"), with the same number v. *)
Theorem validateId_ids_pass_the_route_check (s : string) (v : Z) :
  validateId (JSString s) = {| isValid := true; value := Some v |} ->
  route_id s = Some (JSValues.of_Z v).
Proof. apply validateId_route_id. Qed.

Lemma validateId_ids_pass_the_route_check_witness :
  route_id " 42 " = Some (JSValues.of_Z 42).
Proof.
  apply (validateId_ids_pass_the_route_check " 42 " 42).
  vm_compute. reflexivity.
Defined.

End RouteIdFacts.

Module UserStatsFacts.
Import UserService.

Lemma ageDistribution_step (age : Z) (users : list Z) :
  list_sum (snd <$> ageDistribution (age :: users)) =
  ((if (18 <=? age)%Z then 1 else 0) +
   list_sum (snd <$> ageDistribution users))%nat.
Proof.
  unfold ageDistribution, count_ages. cbn [fmap list_fmap snd list_sum].
  cbn [List.filter].
  destruct (Z.leb_spec 18 age), (Z.leb_spec age 25), (Z.leb_spec 26 age),
    (Z.leb_spec age 35), (Z.leb_spec 36 age), (Z.leb_spec age 50),
    (Z.ltb_spec 50 age); cbn [andb length]; unfold list_sum;
    cbn [fold_right]; lia.
Qed.

Lemma ageDistribution_total (users : list Z) :
  list_sum (snd <$> ageDistribution users) =
  length (List.filter (fun age => 18 <=? age) users).
Proof.
  induction users as [| age users IH]; [reflexivity |].
  rewrite ageDistribution_step, IH. cbn [List.filter].
  destruct (18 <=? age); reflexivity.
Qed.

(** X25: the age distribution of [getUserStats] counts the adults, each
    once.  The four buckets do not overlap, so their counts add up to the
    number of users aged 18 or more: never more than the number of users,
    and equal to it exactly when no user is younger than 18. *)
Theorem ageDistribution_counts_adults (users : list Z) :
  list_sum (snd <$> ageDistribution users) =
    length (List.filter (fun age => 18 <=? age) users) /\
  (list_sum (snd <$> ageDistribution users) <= length users)%nat /\
  (list_sum (snd <$> ageDistribution users) = length users <->
   Forall (fun age => 18 <= age) users).
Proof.
  rewrite ageDistribution_total. split; [reflexivity |].
  induction users as [| age users [IHle IHiff]].
  - split; [reflexivity |]. split; [constructor | reflexivity].
  - cbn [List.filter length]. destruct (Z.leb_spec 18 age) as [Hadult | Hminor].
    + cbn [length]. split; [lia |]. rewrite Forall_cons. split.
      * intros H. split; [exact Hadult |]. apply IHiff. lia.
      * intros [_ H]. apply IHiff in H. lia.
    + split; [lia |]. rewrite Forall_cons. split; [lia |].
      intros [H _]. lia.
Qed.

End UserStatsFacts.

Module FieldValidatorTests.
Import JSValues InputValidatorFields.

(** The cases of the repository's test suite for the field validators. *)
Example field_validator_tests :
  forallb validateEmail
    ["test@example.com"; "user.name@domain.co.uk";
     "first.last+tag@example.org"; "user123@test-domain.com"] = true /\
  existsb validateEmail
    [""; "invalid"; "@domain.com"; "user@"; "user@domain";
     "user name@domain.com"; "user@domain .com";
     string_of_list_ascii (replicate 250 "a"%char) +:+ "@domain.com"] = false /\
  forallb validateName
    ["John"; "John Doe"; "Mary-Jane"; "O'Connor"; "Jean-Luc";
     "Anna-Maria O'Sullivan"] = true /\
  existsb validateName
    [""; "   "; "John123"; "John@Doe"; "John.Doe"; "John_Doe";
     string_of_list_ascii (replicate 101 "a"%char); "!@#$%"] = false /\
  forallb validateAge (of_Z <$> [0; 1; 25; 65; 100; 150]) = true /\
  existsb validateAge
    [of_Z (-1); of_Z 151; Finite (Q2Qc (51 # 2)); NaN; Infinity;
     NegInfinity] = false /\
  validateUserInput "John Doe" "john@example.com" (of_Z 30) =
    {| isValid := true; errors := [] |} /\
  validateUserInput "" "invalid-email" (of_Z (-5)) =
    {| isValid := false; errors := [name_error; email_error; age_error] |} /\
  validateUserInput "John123" "john@example.com" (of_Z 30) =
    {| isValid := false; errors := [name_error] |} /\
  sanitizeString (AString "  test input  ") (Some (of_Z 50)) = "test input" /\
  sanitizeString (AString (string_of_list_ascii (replicate 100 "a"%char)))
    (Some (of_Z 10)) = string_of_list_ascii (replicate 10 "a"%char) /\
  sanitizeString (AString "") (Some (of_Z 50)) = "" /\
  sanitizeString (AOther false) (Some (of_Z 50)) = "".
Proof. repeat split; vm_compute; reflexivity. Qed.

End FieldValidatorTests.

Module ValidatorAgreement.
Import JSValues InputValidatorFields.

Lemma validateName_controller (name : string) :
  validateName name = true -> UserController.validateName (AString name) = true.
Proof.
  unfold validateName, UserController.validateName, ToBoolean.
  destruct (String.eqb name ""); [discriminate |].
  destruct (Nat.eqb_spec (String.length (InputValidator.trim name)) 0)
    as [| Hlen]; [discriminate |].
  destruct (Nat.ltb_spec 100 (String.length name)) as [| Hshort];
    [discriminate |].
  intros _. simpl.
  destruct (Nat.ltb_spec 0 (String.length (InputValidator.trim name)));
    [| lia].
  destruct (Nat.leb_spec (String.length name) 100); [reflexivity | lia].
Qed.

(** X26: the field validators of [InputValidator] are at least as strict
    as the checks of the controller: input that [validateUserInput]
    declares valid passes the controller's name, address and age checks,
    so a request carrying it is not answered "Invalid user data
    provided". *)
Theorem valid_input_passes_the_controller (name email : string)
        (age : number) :
  isValid (validateUserInput name email age) = true ->
  UserController.validateName (AString name) = true /\
  UserController.validateEmail (AString email) = true /\
  UserController.validateAge (ANumber age) = true.
Proof.
  unfold validateUserInput.
  destruct (validateName name) eqn:Hname, (validateEmail email) eqn:Hemail,
    (validateAge age) eqn:Hage; simpl; intros H; try discriminate H.
  split; [apply validateName_controller, Hname |].
  split; [exact Hemail | exact Hage].
Qed.

Lemma valid_input_passes_the_controller_witness :
  UserController.validateName (AString "John Doe") = true /\
  UserController.validateEmail (AString "john@example.com") = true /\
  UserController.validateAge (ANumber (of_Z 30)) = true.
Proof.
  apply (valid_input_passes_the_controller "John Doe" "john@example.com"
           (of_Z 30)).
  vm_compute. reflexivity.
Defined.

End ValidatorAgreement.
